(** * saltpack-python: the multi-recipient encryption demo [encrypt.py]

    A shallow embedding of [src/encrypt.py] and the properties of its
    encoder, decoder and framing layer.

    - Python values that travel through msgpack are the inductive [obj].
    - A Python call either returns, raises, or loops for ever: [outcome].
    - The libraries the script imports ([umsgpack], [nacl.bindings], [hmac],
      [os.urandom]) are interfaces (type classes); what the proofs need from
      them is stated as hypotheses of the sections, and a small reference
      implementation, [Ref], inhabits all of them.
    - [print] calls write to stdout only and are left out, except that
      [json_repr], which they call, can raise: that is kept. *)

From Stdlib Require Import ZArith List Lia.
From Stdlib Require Import Strings.Byte Strings.Ascii Strings.String.
From stdpp Require Import strings.
From stdpp Require Import base tactics option numbers list.

Set Warnings "-register-all".
Local Open Scope Z_scope.

(** ** Bytes *)

Abbreviation bytes := (list byte).

#[global] Instance byte_eq_decision : EqDecision byte := byte_eq_dec.

Definition byte_of_Z (z : Z) : byte :=
  default x00 (Byte.of_N (Z.to_N (z mod 256))).

Definition Z_of_byte (b : byte) : Z := Z.of_N (Byte.to_N b).

(** ** Outcomes of a Python call *)

(** The exceptions the script can meet. The two [RuntimeError]s it raises
    itself are told apart by their message, as in the source. *)
Inductive exn : Type :=
  | OverflowError
  | TypeError
  | KeyError
  | IndexError
  | ValueError
  | AttributeError
  | AssertionError
  | UnpackException          (* any exception of umsgpack.unpack *)
  | CryptoError              (* any exception of a nacl open primitive *)
  | RuntimeError (msg : string).

Definition RecipientNotFound : exn := RuntimeError "recipient key not found".
Definition MacMismatch : exn := RuntimeError "MAC mismatch!".

#[global] Instance exn_eq_decision : EqDecision exn.
Proof. solve_decision. Defined.

(** [Diverge] is a loop that never ends (the model ran out of fuel). *)
Inductive outcome (A : Type) : Type :=
  | Ret (a : A)
  | Raise (e : exn)
  | Diverge.
Arguments Ret {A} a.
Arguments Raise {A} e.
Arguments Diverge {A}.

#[global] Instance outcome_ret : MRet outcome := @Ret.
#[global] Instance outcome_bind : MBind outcome := λ A B f m,
  match m with
  | Ret a => f a
  | Raise e => Raise e
  | Diverge => Diverge
  end.
#[global] Instance outcome_fmap : FMap outcome := λ A B f m,
  match m with
  | Ret a => Ret (f a)
  | Raise e => Raise e
  | Diverge => Diverge
  end.

(** Settles a goal about the outcome of a straight-line block by going
    through its cases. *)
Ltac outcome_cases :=
  repeat first [ progress simplify_eq/= | case_match ]; try done.

(** [for x in l: s = body(s, x)], where the body may raise. *)
Fixpoint for_each {A S : Type} (body : S → A → outcome S) (s : S) (l : list A)
    : outcome S :=
  match l with
  | [] => Ret s
  | x :: l => s' ← body s x; for_each body s' l
  end.

(** [enumerate(l)] *)
Definition enumerate {A : Type} (l : list A) : list (nat * A) :=
  imap (λ i x, (i, x)) l.

(** ** Python built-ins used by the script *)

(** Big-endian digits of [n], exactly [len] of them. *)
Fixpoint be_bytes (len : nat) (n : Z) : bytes :=
  match len with
  | O => []
  | S k => be_bytes k (n / 256) ++ [byte_of_Z n]
  end.

(** The number a big-endian string of digits stands for. *)
Definition be_value (b : bytes) : Z :=
  fold_left (λ acc x, acc * 256 + Z_of_byte x) b 0.

(** [n.to_bytes(len, byteorder='big')]: raises [OverflowError] for a negative
    [n] and for an [n] that does not fit in [len] bytes. *)
Definition to_bytes (n : Z) (len : nat) : outcome bytes :=
  if n <? 0 then Raise OverflowError
  else if 256 ^ Z.of_nat len <=? n then Raise OverflowError
  else Ret (be_bytes len n).

(** One bound of a slice, as [PySlice_AdjustIndices] clamps it (step 1). *)
Definition slice_index (len i : Z) : Z :=
  if i <? 0 then Z.max 0 (i + len) else Z.min i len.

(** [l[start:stop]] *)
Definition py_slice {A : Type} (l : list A) (start stop : Z) : list A :=
  let len := Z.of_nat (length l) in
  let a := slice_index len start in
  let b := slice_index len stop in
  take (Z.to_nat (b - a)) (drop (Z.to_nat a) l).

(** ** The values msgpack carries *)

(** nil, bool, int, bin, str, array and map. A dict is the list of its
    items in insertion order, the order msgpack writes and reads them in.
    An array that umsgpack turned into a tuple (as a map key) is an [OList]
    too. Floats, timestamps and extension types do not occur in this format
    and are not modelled. *)
Inductive obj : Type :=
  | ONone
  | OBool (b : bool)
  | OInt (z : Z)
  | OBytes (b : bytes)
  | OStr (s : string)
  | OList (l : list obj)
  | ODict (d : list (obj * obj)).

(** [x == y] for a hashable [x] looked up among the keys of a dict: [bool] is
    an [int] in Python, values of different types are different. *)
Definition key_eqb (x y : obj) : bool :=
  match x, y with
  | ONone, ONone => true
  | OBool a, OBool b => bool_decide (a = b)
  | OBool a, OInt z | OInt z, OBool a => bool_decide (z = if a then 1 else 0)
  | OInt a, OInt b => bool_decide (a = b)
  | OBytes a, OBytes b => bool_decide (a = b)
  | OStr a, OStr b => bool_decide (a = b)
  | _, _ => false
  end.

Fixpoint dict_lookup (k : obj) (d : list (obj * obj)) : option obj :=
  match d with
  | [] => None
  | (k', v) :: d => if key_eqb k k' then Some v else dict_lookup k d
  end.

(** [o[k]] for a string literal [k] *)
Definition getitem_str (o : obj) (k : string) : outcome obj :=
  match o with
  | ODict d =>
      match dict_lookup (OStr k) d with
      | Some v => Ret v
      | None => Raise KeyError
      end
  | _ => Raise TypeError
  end.

(** [o.get(k)] for a string literal [k]: [None] when the key is absent *)
Definition dict_get (o : obj) (k : string) : outcome obj :=
  match o with
  | ODict d => Ret (default ONone (dict_lookup (OStr k) d))
  | _ => Raise AttributeError
  end.

(** [l[i]] on a sequence: a negative [i] counts from the end. *)
Definition seq_index {A : Type} (l : list A) (i : Z) : outcome A :=
  let len := Z.of_nat (length l) in
  let j := if i <? 0 then i + len else i in
  if (j <? 0) || (len <=? j) then Raise IndexError
  else match l !! Z.to_nat j with
       | Some x => Ret x
       | None => Raise IndexError
       end.

Definition chars (s : string) : list obj :=
  (λ c, OStr (String c EmptyString)) <$> list_ascii_of_string s.

Definition byte_ints (b : bytes) : list obj :=
  (λ x, OInt (Z_of_byte x)) <$> b.

(** [o[i]] for values [o] and [i] that both come out of msgpack *)
Definition getitem (o i : obj) : outcome obj :=
  let as_int :=
    match i with
    | OInt z => Some z
    | OBool b => Some (if b then 1 else 0)
    | _ => None
    end in
  match o with
  | OList l => match as_int with Some z => seq_index l z | None => Raise TypeError end
  | OBytes b => match as_int with Some z => seq_index (byte_ints b) z | None => Raise TypeError end
  | OStr s => match as_int with Some z => seq_index (chars s) z | None => Raise TypeError end
  | ODict d =>
      match i with
      | OList _ | ODict _ => Raise TypeError          (* unhashable *)
      | _ => match dict_lookup i d with
             | Some v => Ret v
             | None => Raise KeyError
             end
      end
  | _ => Raise TypeError
  end.

(** [o[:16]] *)
Definition slice16 (o : obj) : outcome obj :=
  match o with
  | OBytes b => Ret (OBytes (py_slice b 0 16))
  | OStr s => Ret (OStr (string_of_list_ascii (py_slice (list_ascii_of_string s) 0 16)))
  | OList l => Ret (OList (py_slice l 0 16))
  | _ => Raise TypeError
  end.

(** The items [for x in o] goes through; a dict yields its keys. *)
Definition py_iter (o : obj) : outcome (list obj) :=
  match o with
  | OList l => Ret l
  | ODict d => Ret (fst <$> d)
  | OStr s => Ret (chars s)
  | OBytes b => Ret (byte_ints b)
  | _ => Raise TypeError
  end.

(** [a, b = o] *)
Definition unpack_pair (o : obj) : outcome (obj * obj) :=
  items ← py_iter o;
  match items with
  | [a; b] => Ret (a, b)
  | _ => Raise ValueError
  end.

(** [o == b] for a [bytes] value [b] *)
Definition eq_bytes (o : obj) (b : bytes) : bool :=
  match o with
  | OBytes a => bool_decide (a = b)
  | _ => false
  end.

(** [o == 1] *)
Definition eq_one (o : obj) : bool :=
  match o with
  | OInt z => bool_decide (z = 1)
  | OBool b => b
  | _ => false
  end.

(** A value a C extension wants as [bytes] *)
Definition as_bytes (o : obj) : outcome bytes :=
  match o with
  | OBytes b => Ret b
  | _ => Raise TypeError
  end.

(** Whether [json_repr(o)] returns. [_recurse_repr] turns a tuple into a list,
    which cannot be the key of the dict it rebuilds; nothing else in [obj]
    makes it or [json.dumps] raise. *)
Fixpoint json_ok (o : obj) : bool :=
  match o with
  | OList l => forallb json_ok l
  | ODict d =>
      forallb (λ kv, match fst kv with
                     | OList _ | ODict _ => false
                     | _ => json_ok (snd kv)
                     end) d
  | _ => true
  end.

(** ** The imported libraries, as interfaces *)

(** [os.urandom(n)], reading from an explicit source of randomness. *)
Class Random := {
  rng : Type;
  urandom : nat → rng → bytes * rng;
}.

(** [nacl.bindings]. Encryption is a total function of its arguments; an
    open primitive answers [None] where the binding raises. *)
Class Nacl := {
  crypto_scalarmult_base : bytes → bytes;
  (* message, nonce, sk, pk *)
  crypto_box : bytes → bytes → bytes → bytes → bytes;
  (* ciphertext, nonce, sk, pk *)
  crypto_box_open : bytes → bytes → bytes → bytes → option bytes;
  (* message, nonce, key *)
  crypto_secretbox : bytes → bytes → bytes → bytes;
  (* ciphertext, nonce, key *)
  crypto_secretbox_open : bytes → bytes → bytes → option bytes;
}.

(** [hmac.new(key, digestmod='sha512')], [update(msg)], [digest()] *)
Class Hmac := {
  hmac_sha512 : bytes → bytes → bytes;
}.

(** [umsgpack.packb(obj)] and [umsgpack.unpack(stream)]: the latter reads one
    value off the front of the stream and leaves the rest, or raises. *)
Class Msgpack := {
  packb : obj → bytes;
  unpack : bytes → option (obj * bytes);
}.

(** ** The script *)

(** What [encrypt] computes for one recipient: the dict [keys], the nonce
    and the box that goes into the header. *)
Record recipient_row := {
  row_pub : bytes;
  row_keys : obj;
  row_nonce : bytes;
  row_boxed : bytes;
}.

(** What [encrypt] computes for one chunk. *)
Record chunk_row := {
  chunk_plain : bytes;
  chunk_nonce : bytes;
  chunk_map : obj;
}.

(** The local variables of [encrypt] when it returns. *)
Record trace := {
  tr_rows : list recipient_row;
  tr_mac_keys : list bytes;
  tr_header : obj;
  tr_chunks : list chunk_row;
  tr_output : bytes;
}.

Section Script.
Context `{Random, Nacl, Hmac, Msgpack}.

Fixpoint chunks_with_empty_loop (fuel : nat) (message : bytes)
    (chunk_size chunk_start : Z) (chunks : list bytes) : outcome (list bytes) :=
  if chunk_start <? Z.of_nat (length message) then
    match fuel with
    | O => Diverge
    | S fuel =>
        chunks_with_empty_loop fuel message chunk_size (chunk_start + chunk_size)
          (chunks ++ [py_slice message chunk_start (chunk_start + chunk_size)])
    end
  else Ret (chunks ++ [[]]).

(** The loop runs at most [len(message)] times when it ends at all. *)
Definition chunks_with_empty (message : bytes) (chunk_size : Z)
    : outcome (list bytes) :=
  chunks_with_empty_loop (length message) message chunk_size 0 [].

Definition write_framed_msgpack (stream : bytes) (o : obj) : bytes :=
  let msgpack_bytes := packb o in
  let frame := packb (OInt (Z.of_nat (length msgpack_bytes))) in
  (stream ++ frame) ++ msgpack_bytes.

Definition unpack_stream (stream : bytes) : outcome (obj * bytes) :=
  match unpack stream with
  | Some r => Ret r
  | None => Raise UnpackException
  end.

(** [umsgpack.unpackb(s)]: the first value of [s] *)
Definition unpackb (s : bytes) : outcome obj := fst <$> unpack_stream s.

Definition json_repr (o : obj) : outcome unit :=
  if json_ok o then Ret () else Raise TypeError.

(** Returns the value and the stream after it. *)
Definition read_framed_msgpack (stream : bytes) : outcome (obj * bytes) :=
  '(length, stream) ← unpack_stream stream;
  (* We discard the frame length and stream on. *)
  '(o, stream) ← unpack_stream stream;
  _ ← json_repr o;
  Ret (o, stream).

(** *** encrypt *)

Definition make_keys (need_macs : bool) (encryption_key : bytes)
    (group_num : nat) (mac_key : bytes) : obj :=
  if need_macs then
    ODict [ (OStr "encryption_key", OBytes encryption_key);
            (OStr "mac_group", OInt (Z.of_nat group_num));
            (OStr "mac_key", OBytes mac_key) ]
  else
    ODict [ (OStr "encryption_key", OBytes encryption_key) ].

(** The body of [for recipient in group]; the state is [recipients] and
    [recipient_num]. *)
Definition encrypt_recipient (need_macs : bool)
    (encryption_key recipients_nonce_start sender_private : bytes)
    (group_num : nat) (mac_key : bytes)
    (st : list recipient_row * Z) (recipient : bytes)
    : outcome (list recipient_row * Z) :=
  let '(recipients, recipient_num) := st in
  let keys := make_keys need_macs encryption_key group_num mac_key in
  let packed_keys := packb keys in
  counter ← to_bytes recipient_num 8;
  let recipient_nonce := recipients_nonce_start ++ counter in
  let recipient_num := recipient_num + 1 in
  let boxed_keys :=
    crypto_box packed_keys recipient_nonce sender_private recipient in
  Ret (recipients ++ [ {| row_pub := recipient; row_keys := keys;
                          row_nonce := recipient_nonce;
                          row_boxed := boxed_keys |} ],
       recipient_num).

(** The body of [for group_num, group in enumerate(recipient_groups)]; the
    state is the randomness, [mac_keys], [recipients], [recipient_num]. *)
Definition encrypt_group (need_macs : bool)
    (encryption_key recipients_nonce_start sender_private : bytes)
    (st : rng * list bytes * (list recipient_row * Z))
    (it : nat * list bytes)
    : outcome (rng * list bytes * (list recipient_row * Z)) :=
  let '(g, mac_keys, rs) := st in
  let '(group_num, group) := it in
  let '(mac_key, g, mac_keys) :=
    if need_macs then
      let '(mac_key, g) := urandom 16 g in (mac_key, g, mac_keys ++ [mac_key])
    else ([], g, mac_keys) in
  rs ← for_each (encrypt_recipient need_macs encryption_key
                   recipients_nonce_start sender_private group_num mac_key)
                rs group;
  Ret (g, mac_keys, rs).

Definition header_entry (r : recipient_row) : obj :=
  OList [OBytes (row_pub r); OBytes (row_boxed r)].

Definition chunk_macs (need_macs : bool) (mac_keys : list bytes)
    (boxed_chunk : bytes) : list obj :=
  if need_macs then
    let authenticator := py_slice boxed_chunk 0 16 in
    (λ mac_key, OBytes (py_slice (hmac_sha512 mac_key authenticator) 0 16))
      <$> mac_keys
  else [].

(** The body of [for chunknum, chunk in enumerate(chunks_with_empty(..))];
    the state is [output]. *)
Definition encrypt_chunk (need_macs : bool) (encryption_key : bytes)
    (mac_keys : list bytes)
    (st : list chunk_row * bytes) (it : nat * bytes)
    : outcome (list chunk_row * bytes) :=
  let '(rows, output) := st in
  let '(chunknum, chunk) := it in
  nonce ← to_bytes (Z.of_nat chunknum) 24;
  let boxed_chunk := crypto_secretbox chunk nonce encryption_key in
  let macs := chunk_macs need_macs mac_keys boxed_chunk in
  let chunk_map := ODict [ (OStr "macs", OList macs);
                           (OStr "chunk", OBytes boxed_chunk) ] in
  Ret (rows ++ [ {| chunk_plain := chunk; chunk_nonce := nonce;
                    chunk_map := chunk_map |} ],
       write_framed_msgpack output chunk_map).

Definition FORMAT_VERSION : Z := 1.

Definition encrypt_traced (g : rng) (sender_private : bytes)
    (recipient_groups : list (list bytes)) (message : bytes) (chunk_size : Z)
    : outcome trace :=
  let sender_public := crypto_scalarmult_base sender_private in
  let '(encryption_key, g) := urandom 32 g in
  let need_macs := bool_decide (1 < length recipient_groups)%nat in
  let '(recipients_nonce_start, g) := urandom 16 g in
  '(_, mac_keys, (recipients, _)) ←
    for_each (encrypt_group need_macs encryption_key recipients_nonce_start
                sender_private)
             (g, [], ([], 0)) (enumerate recipient_groups);
  let header := ODict [ (OStr "version", OInt FORMAT_VERSION);
                        (OStr "sender", OBytes sender_public);
                        (OStr "nonce", OBytes recipients_nonce_start);
                        (OStr "recipients", OList (header_entry <$> recipients)) ] in
  let output := write_framed_msgpack [] header in
  chunks ← chunks_with_empty message chunk_size;
  '(rows, output) ←
    for_each (encrypt_chunk need_macs encryption_key mac_keys)
             ([], output) (enumerate chunks);
  Ret {| tr_rows := recipients; tr_mac_keys := mac_keys; tr_header := header;
         tr_chunks := rows; tr_output := output |}.

Definition encrypt (g : rng) (sender_private : bytes)
    (recipient_groups : list (list bytes)) (message : bytes) (chunk_size : Z)
    : outcome bytes :=
  tr_output <$> encrypt_traced g sender_private recipient_groups message chunk_size.

(** *** decrypt *)

(** [for pub, boxed_keys in recipients: ... break ... else: raise] *)
Fixpoint find_recipient_loop (items : list obj) (recipient_public : bytes)
    (recipient_num : Z) : outcome (Z * obj) :=
  match items with
  | [] => Raise RecipientNotFound
  | item :: items =>
      '(pub, boxed_keys) ← unpack_pair item;
      if eq_bytes pub recipient_public then Ret (recipient_num, boxed_keys)
      else find_recipient_loop items recipient_public (recipient_num + 1)
  end.

Definition find_recipient (recipients : obj) (recipient_public : bytes)
    : outcome (Z * obj) :=
  items ← py_iter recipients;
  find_recipient_loop items recipient_public 0.

(** The block under [if mac_key is not None]. *)
Definition check_mac (mac_key mac_group macs boxed_chunk : obj) : outcome unit :=
  match mac_key with
  | ONone => Ret ()
  | _ =>
      their_mac ← getitem macs mac_group;
      authenticator ← slice16 boxed_chunk;
      key ← as_bytes mac_key;
      msg ← as_bytes authenticator;
      let our_mac := py_slice (hmac_sha512 key msg) 0 16 in
      their_mac ← as_bytes their_mac;
      if bool_decide (their_mac = our_mac) then Ret () else Raise MacMismatch
  end.

Definition secretbox_open (boxed_chunk : obj) (nonce : bytes)
    (encryption_key : obj) : outcome bytes :=
  ciphertext ← as_bytes boxed_chunk;
  key ← as_bytes encryption_key;
  match crypto_secretbox_open ciphertext nonce key with
  | Some chunk => Ret chunk
  | None => Raise CryptoError
  end.

Definition box_open (boxed_keys : obj) (nonce sk : bytes) (pk : obj)
    : outcome bytes :=
  ciphertext ← as_bytes boxed_keys;
  pk ← as_bytes pk;
  match crypto_box_open ciphertext nonce sk pk with
  | Some m => Ret m
  | None => Raise CryptoError
  end.

(** [while True:]; returns [output] and the unread rest of the stream. *)
Fixpoint decrypt_loop (fuel : nat) (encryption_key mac_group mac_key : obj)
    (stream : bytes) (chunknum : Z) (output : bytes) : outcome (bytes * bytes) :=
  match fuel with
  | O => Diverge
  | S fuel =>
      nonce ← to_bytes chunknum 24;
      '(chunk_map, stream) ← read_framed_msgpack stream;
      macs ← getitem_str chunk_map "macs";
      boxed_chunk ← getitem_str chunk_map "chunk";
      (* Check the MAC. *)
      _ ← check_mac mac_key mac_group macs boxed_chunk;
      (* Prepend the nonce and decrypt. *)
      chunk ← secretbox_open boxed_chunk nonce encryption_key;
      if bool_decide (chunk = []) then Ret (output, stream)
      else decrypt_loop fuel encryption_key mac_group mac_key stream
             (chunknum + 1) (output ++ chunk)
  end.

(** The block under [# Unbox the recipient's keys.] *)
Definition unbox_keys (sender_public recipients_nonce_start : obj)
    (recipient_private : bytes) (recipient_num : Z) (boxed_keys : obj)
    : outcome obj :=
  counter ← to_bytes recipient_num 8;
  prefix ← as_bytes recipients_nonce_start;
  let recipient_nonce := prefix ++ counter in
  packed_keys ← box_open boxed_keys recipient_nonce recipient_private sender_public;
  unpackb packed_keys.

(** What the loop needs from [keys]: [encryption_key], [mac_group] and
    [mac_key], after [print(... json_repr(keys) ...)]. *)
Definition chunk_keys (keys : obj) : outcome (obj * obj * obj) :=
  _ ← json_repr keys;
  encryption_key ← getitem_str keys "encryption_key";
  mac_group ← dict_get keys "mac_group";
  mac_key ← dict_get keys "mac_key";
  Ret (encryption_key, mac_group, mac_key).

(** The block under [# Unbox each of the chunks.] Every turn of the loop
    reads a frame, so it cannot take more turns than the stream has bytes,
    plus one that fails. *)
Definition unbox_chunks (keys : obj) (stream : bytes) : outcome (bytes * bytes) :=
  '(encryption_key, mac_group, mac_key) ← chunk_keys keys;
  decrypt_loop (S (length stream)) encryption_key mac_group mac_key stream 0 [].

(** The block under [# Parse the header.]: [sender_public],
    [recipients_nonce_start], [recipients] and the stream after the
    header frame. *)
Definition parse_header (input : bytes) : outcome (obj * obj * obj * bytes) :=
  let stream := input in
  '(header, stream) ← read_framed_msgpack stream;
  version ← getitem_str header "version";
  if negb (eq_one version) then Raise AssertionError else
  sender_public ← getitem_str header "sender";
  recipients_nonce_start ← getitem_str header "nonce";
  recipients ← getitem_str header "recipients";
  Ret (sender_public, recipients_nonce_start, recipients, stream).

(** [decrypt], returning [output.getvalue()] and the unread rest of the
    stream. *)
Definition decrypt_traced (input recipient_private : bytes)
    : outcome (bytes * bytes) :=
  '(sender_public, recipients_nonce_start, recipients, stream) ←
    parse_header input;
  (* Find this recipient's key box. *)
  let recipient_public := crypto_scalarmult_base recipient_private in
  '(recipient_num, boxed_keys) ← find_recipient recipients recipient_public;
  (* Unbox the recipient's keys. *)
  keys ← unbox_keys sender_public recipients_nonce_start recipient_private
           recipient_num boxed_keys;
  unbox_chunks keys stream.

Definition decrypt (input recipient_private : bytes) : outcome bytes :=
  fst <$> decrypt_traced input recipient_private.

End Script.

(** ** What the encoder writes, in closed form *)

(** [ceil(a / c)] for [a ≥ 0] and [c ≥ 1] *)
Definition ceil_div (a c : Z) : Z := (a + c - 1) / c.


(** The [macs] list of a chunk record *)
Definition macs_of (chunk_map : obj) : list obj :=
  match getitem_str chunk_map "macs" with
  | Ret (OList macs) => macs
  | _ => []
  end.

Section Plan.
Context `{Random, Nacl, Hmac, Msgpack}.

(** The bytes [write_framed_msgpack] appends for [o]. *)
Definition frame (o : obj) : bytes :=
  packb (OInt (Z.of_nat (length (packb o)))) ++ packb o.

(** The row of the recipient [pk], the [i]-th of the message, who is in
    group [group_num], whose MAC key is [mac_key]. *)
Definition mk_row (need_macs : bool)
    (encryption_key recipients_nonce_start sender_private : bytes)
    (group_num : nat) (mac_key : bytes) (i : nat) (pk : bytes) : recipient_row :=
  let keys := make_keys need_macs encryption_key group_num mac_key in
  let nonce := recipients_nonce_start ++ be_bytes 8 (Z.of_nat i) in
  {| row_pub := pk; row_keys := keys; row_nonce := nonce;
     row_boxed := crypto_box (packb keys) nonce sender_private pk |}.

Definition mk_chunk_map (need_macs : bool) (mac_keys : list bytes)
    (boxed_chunk : bytes) : obj :=
  ODict [ (OStr "macs", OList (chunk_macs need_macs mac_keys boxed_chunk));
          (OStr "chunk", OBytes boxed_chunk) ].

(** The row of the [i]-th chunk. *)
Definition mk_chunk_row (need_macs : bool) (encryption_key : bytes)
    (mac_keys : list bytes) (i : nat) (chunk : bytes) : chunk_row :=
  let nonce := be_bytes 24 (Z.of_nat i) in
  {| chunk_plain := chunk; chunk_nonce := nonce;
     chunk_map := mk_chunk_map need_macs mac_keys
                    (crypto_secretbox chunk nonce encryption_key) |}.

(** The stream of a header and chunk records, frame after frame. *)
Definition frames (os : list obj) : bytes := concat (frame <$> os).

(** The random values [encrypt] draws first. *)
Definition encryption_key_of (g : rng) : bytes := (urandom 32 g).1.
Definition nonce_start_of (g : rng) : bytes := (urandom 16 (urandom 32 g).2).1.
Definition need_macs_of (recipient_groups : list (list bytes)) : bool :=
  bool_decide (1 < length recipient_groups)%nat.

(** What a run of [encrypt] that returned [tr] did; [pieces] are the
    chunks of the message before the empty one. *)
Record encrypted (g : rng) (sender_private : bytes)
    (recipient_groups : list (list bytes)) (message : bytes) (chunk_size : Z)
    (tr : trace) (pieces : list bytes) : Prop := {
  enc_concat : concat pieces = message;
  enc_pieces :
    Forall (λ p, p ≠ [] ∧ Z.of_nat (length p) ≤ chunk_size) pieces;
  enc_count :
    Z.of_nat (length pieces) = ceil_div (Z.of_nat (length message)) chunk_size;
  enc_chunks :
    tr_chunks tr
    = imap (mk_chunk_row (need_macs_of recipient_groups) (encryption_key_of g)
              (tr_mac_keys tr))
           (pieces ++ [[]]);
  enc_header :
    tr_header tr
    = ODict [ (OStr "version", OInt 1);
              (OStr "sender", OBytes (crypto_scalarmult_base sender_private));
              (OStr "nonce", OBytes (nonce_start_of g));
              (OStr "recipients", OList (header_entry <$> tr_rows tr)) ];
  enc_output :
    tr_output tr = frames (tr_header tr :: (chunk_map <$> tr_chunks tr));
  enc_pubs : row_pub <$> tr_rows tr = concat recipient_groups;
  enc_mac_keys :
    length (tr_mac_keys tr)
    = if need_macs_of recipient_groups then length recipient_groups else 0%nat;
  enc_rows : ∀ j r, tr_rows tr !! j = Some r →
    ∃ gn mk,
      r = mk_row (need_macs_of recipient_groups) (encryption_key_of g)
            (nonce_start_of g) sender_private gn mk j (row_pub r)
      ∧ (need_macs_of recipient_groups = true → tr_mac_keys tr !! gn = Some mk);
}.
End Plan.

(** ** Vocabulary for the decoder *)

Section Decoder.
Context `{Random, Nacl, Hmac, Msgpack}.



(** [decrypt] up to the loop: the three values taken from [keys], and the
    stream after the header frame. *)
Definition decrypt_keys (input recipient_private : bytes)
    : outcome (obj * obj * obj * bytes) :=
  '(sender_public, recipients_nonce_start, recipients, stream) ←
    parse_header input;
  let recipient_public := crypto_scalarmult_base recipient_private in
  '(recipient_num, boxed_keys) ← find_recipient recipients recipient_public;
  keys ← unbox_keys sender_public recipients_nonce_start recipient_private
           recipient_num boxed_keys;
  '(encryption_key, mac_group, mac_key) ← chunk_keys keys;
  Ret (encryption_key, mac_group, mac_key, stream).

(** The stream starts with the frames of the chunks [pieces], numbered
    from [chunknum], each passing the MAC check and opening to a
    non-empty chunk, then the frame of an empty chunk, then [rest]. *)
Inductive chunk_run (encryption_key mac_group mac_key : obj)
    : bytes → Z → list bytes → bytes → Prop :=
  | chunk_run_last stream chunknum nonce chunk_map macs boxed_chunk rest :
      to_bytes chunknum 24 = Ret nonce →
      read_framed_msgpack stream = Ret (chunk_map, rest) →
      getitem_str chunk_map "macs" = Ret macs →
      getitem_str chunk_map "chunk" = Ret boxed_chunk →
      check_mac mac_key mac_group macs boxed_chunk = Ret () →
      secretbox_open boxed_chunk nonce encryption_key = Ret [] →
      chunk_run encryption_key mac_group mac_key stream chunknum [] rest
  | chunk_run_more stream chunknum nonce chunk_map macs boxed_chunk chunk
        stream' pieces rest :
      to_bytes chunknum 24 = Ret nonce →
      read_framed_msgpack stream = Ret (chunk_map, stream') →
      getitem_str chunk_map "macs" = Ret macs →
      getitem_str chunk_map "chunk" = Ret boxed_chunk →
      check_mac mac_key mac_group macs boxed_chunk = Ret () →
      secretbox_open boxed_chunk nonce encryption_key = Ret chunk →
      chunk ≠ [] →
      chunk_run encryption_key mac_group mac_key stream' (chunknum + 1) pieces rest →
      chunk_run encryption_key mac_group mac_key stream chunknum
        (chunk :: pieces) rest.
End Decoder.

(** ** Tampering with a chunk record *)

(** Bit [pos] of [b], counted from the first byte, flipped. *)
Definition flip_bit (b : bytes) (pos : nat) : bytes :=
  alter (λ x, byte_of_Z (Z.lxor (Z_of_byte x) (2 ^ Z.of_nat (pos mod 8))))
        (pos / 8)%nat b.

(** The ciphertext of a chunk record *)
Definition boxed_of (chunk_map : obj) : bytes :=
  match getitem_str chunk_map "chunk" with
  | Ret (OBytes b) => b
  | _ => []
  end.

(** The chunk record with another ciphertext and the same [macs]. *)
Definition with_boxed (chunk_map : obj) (boxed_chunk : bytes) : obj :=
  ODict [ (OStr "macs", OList (macs_of chunk_map));
          (OStr "chunk", OBytes boxed_chunk) ].

(** An exception that holds nothing but its name: of the [RuntimeError]s,
    the two whose fixed message the script spells out. *)
Definition plain_exn (e : exn) : Prop :=
  match e with
  | RuntimeError msg => msg = "recipient key not found"%string
                        ∨ msg = "MAC mismatch!"%string
  | _ => True
  end.

(** * A reference implementation of the libraries

    Small, executable stand-ins for the four interfaces, used to run the
    script on concrete inputs and to show that what the sections above
    assume of the libraries can be had together.

    - The codec writes msgpack: positive fixint and uint 8/16/32/64, nil,
      true/false, bin 8/16/32, fixstr and str 8/16/32, fixarray and array
      16/32, fixmap and map 16/32. A negative integer, and a size that
      msgpack has no format for (where umsgpack raises), is written after
      the byte 0xc1, which msgpack never uses, so that packing is total.
    - The ciphers are toys with the interface of the real ones: a key
      agreement in the additive group of integers mod 2^255 - 19, a Caesar
      shift under a 16-byte tag, a polynomial hash as HMAC. They are not
      secure; the laws assumed above are all they are good for. *)

Module Ref.

(** ** The codec *)

Inductive head : Type :=
  | HNone
  | HBool (b : bool)
  | HInt (z : Z)
  | HBin (n : Z)
  | HStr (n : Z)
  | HArr (n : Z)
  | HMap (n : Z).

(** [n] ones and a zero *)
Definition unary (n : nat) : bytes := replicate n x01 ++ [x00].

Fixpoint read_unary (s : bytes) : option (nat * bytes) :=
  match s with
  | x00 :: s => Some (O, s)
  | x01 :: s => '(n, s) ← read_unary s; Some (S n, s)
  | _ => None
  end.

Definition escape (kind : byte) (n : Z) : bytes :=
  xc1 :: kind :: unary (Z.to_nat n).

Definition write_head (h : head) : bytes :=
  match h with
  | HNone => [xc0]
  | HBool b => [if b then xc3 else xc2]
  | HInt z =>
      if z <? 0 then escape x01 (- z)
      else if z <? 128 then [byte_of_Z z]
      else if z <? 2 ^ 8 then xcc :: be_bytes 1 z
      else if z <? 2 ^ 16 then xcd :: be_bytes 2 z
      else if z <? 2 ^ 32 then xce :: be_bytes 4 z
      else if z <? 2 ^ 64 then xcf :: be_bytes 8 z
      else escape x00 z
  | HBin n =>
      if n <? 2 ^ 8 then xc4 :: be_bytes 1 n
      else if n <? 2 ^ 16 then xc5 :: be_bytes 2 n
      else if n <? 2 ^ 32 then xc6 :: be_bytes 4 n
      else escape x02 n
  | HStr n =>
      if n <? 32 then [byte_of_Z (160 + n)]
      else if n <? 2 ^ 8 then xd9 :: be_bytes 1 n
      else if n <? 2 ^ 16 then xda :: be_bytes 2 n
      else if n <? 2 ^ 32 then xdb :: be_bytes 4 n
      else escape x03 n
  | HArr n =>
      if n <? 16 then [byte_of_Z (144 + n)]
      else if n <? 2 ^ 16 then xdc :: be_bytes 2 n
      else if n <? 2 ^ 32 then xdd :: be_bytes 4 n
      else escape x04 n
  | HMap n =>
      if n <? 16 then [byte_of_Z (128 + n)]
      else if n <? 2 ^ 16 then xde :: be_bytes 2 n
      else if n <? 2 ^ 32 then xdf :: be_bytes 4 n
      else escape x05 n
  end.

(** A big-endian number of [w] bytes off the front of [s] *)
Definition read_be (w : nat) (s : bytes) : option (Z * bytes) :=
  if decide (w ≤ length s)%nat then Some (be_value (take w s), drop w s)
  else None.

Definition sized (mk : Z → head) (w : nat) (s : bytes) : option (head * bytes) :=
  '(n, s) ← read_be w s; Some (mk n, s).

Definition read_escape (s : bytes) : option (head * bytes) :=
  match s with
  | kind :: s =>
      '(n, s) ← read_unary s;
      let n := Z.of_nat n in
      match kind with
      | x00 => Some (HInt n, s)
      | x01 => Some (HInt (- n), s)
      | x02 => Some (HBin n, s)
      | x03 => Some (HStr n, s)
      | x04 => Some (HArr n, s)
      | x05 => Some (HMap n, s)
      | _ => None
      end
  | [] => None
  end.

Definition read_head (s : bytes) : option (head * bytes) :=
  match s with
  | [] => None
  | b :: s =>
      let t := Z_of_byte b in
      if t <? 128 then Some (HInt t, s)
      else if t <? 144 then Some (HMap (t - 128), s)
      else if t <? 160 then Some (HArr (t - 144), s)
      else if t <? 192 then Some (HStr (t - 160), s)
      else match b with
           | xc0 => Some (HNone, s)
           | xc1 => read_escape s
           | xc2 => Some (HBool false, s)
           | xc3 => Some (HBool true, s)
           | xc4 => sized HBin 1 s
           | xc5 => sized HBin 2 s
           | xc6 => sized HBin 4 s
           | xcc => sized HInt 1 s
           | xcd => sized HInt 2 s
           | xce => sized HInt 4 s
           | xcf => sized HInt 8 s
           | xd9 => sized HStr 1 s
           | xda => sized HStr 2 s
           | xdb => sized HStr 4 s
           | xdc => sized HArr 2 s
           | xdd => sized HArr 4 s
           | xde => sized HMap 2 s
           | xdf => sized HMap 4 s
           | _ => None
           end
  end.

Fixpoint ref_packb (o : obj) : bytes :=
  match o with
  | ONone => write_head HNone
  | OBool b => write_head (HBool b)
  | OInt z => write_head (HInt z)
  | OBytes b => write_head (HBin (Z.of_nat (length b))) ++ b
  | OStr s =>
      let b := list_byte_of_string s in
      write_head (HStr (Z.of_nat (length b))) ++ b
  | OList l =>
      write_head (HArr (Z.of_nat (length l)))
      ++ (fix items (l : list obj) : bytes :=
            match l with
            | [] => []
            | x :: l => ref_packb x ++ items l
            end) l
  | ODict d =>
      write_head (HMap (Z.of_nat (length d)))
      ++ (fix pairs (d : list (obj * obj)) : bytes :=
            match d with
            | [] => []
            | kv :: d => (ref_packb (fst kv) ++ ref_packb (snd kv)) ++ pairs d
            end) d
  end.

(** Exactly [n] bytes off the front of [s] *)
Definition take_exact (n : Z) (s : bytes) : option (bytes * bytes) :=
  if decide (0 ≤ n ≤ Z.of_nat (length s))
  then Some (take (Z.to_nat n) s, drop (Z.to_nat n) s)
  else None.

(** [n] values off the front of [s], each read by [u] *)
Fixpoint unpack_items (u : bytes → option (obj * bytes)) (n : nat) (s : bytes)
    : option (list obj * bytes) :=
  match n with
  | O => Some ([], s)
  | S n =>
      '(x, s) ← u s;
      '(l, s) ← unpack_items u n s;
      Some (x :: l, s)
  end.

Fixpoint unpack_pairs (u : bytes → option (obj * bytes)) (n : nat) (s : bytes)
    : option (list (obj * obj) * bytes) :=
  match n with
  | O => Some ([], s)
  | S n =>
      '(k, s) ← u s;
      '(v, s) ← u s;
      '(d, s) ← unpack_pairs u n s;
      Some ((k, v) :: d, s)
  end.

(** A value nested [fuel] deep at most *)
Fixpoint unpack_fuel (fuel : nat) (s : bytes) : option (obj * bytes) :=
  match fuel with
  | O => None
  | S fuel =>
      '(h, s) ← read_head s;
      match h with
      | HNone => Some (ONone, s)
      | HBool b => Some (OBool b, s)
      | HInt z => Some (OInt z, s)
      | HBin n => '(b, s) ← take_exact n s; Some (OBytes b, s)
      | HStr n => '(b, s) ← take_exact n s; Some (OStr (string_of_list_byte b), s)
      | HArr n =>
          if decide (0 ≤ n ≤ Z.of_nat (length s)) then
            '(l, s) ← unpack_items (unpack_fuel fuel) (Z.to_nat n) s;
            Some (OList l, s)
          else None
      | HMap n =>
          if decide (0 ≤ n ≤ Z.of_nat (length s)) then
            '(d, s) ← unpack_pairs (unpack_fuel fuel) (Z.to_nat n) s;
            Some (ODict d, s)
          else None
      end
  end.

(** A value takes at least a byte for each level of nesting. *)
Definition ref_unpack (s : bytes) : option (obj * bytes) :=
  unpack_fuel (length s) s.

#[export] Instance msgpack : Msgpack := Build_Msgpack ref_packb ref_unpack.

(** *** Vocabulary for the laws of the codec *)

Ltac ltb_cases :=
  repeat match goal with
         | |- context [?a <? ?b] => destruct (Z.ltb_spec a b); try lia
         | H : context [?a <? ?b] |- _ => destruct (Z.ltb_spec a b); try lia
         end.

(** A head whose size is not negative *)
Definition head_ok (h : head) : Prop :=
  match h with
  | HBin n | HStr n | HArr n | HMap n => 0 ≤ n
  | _ => True
  end.

(** What a read took, and nothing after it, decides what it returns. *)
Definition reads_prefix {A : Type} (rd : bytes → option (A * bytes))
    (s : bytes) (a : A) (rest : bytes) : Prop :=
  ∃ c, c ≠ [] ∧ s = c ++ rest ∧ ∀ rest', rd (c ++ rest') = Some (a, rest').

(** What reading a value with fuel [f] took decides the value, whatever
    follows and with any fuel that covers it. *)
Definition fuel_prefix (f : nat) : Prop :=
  ∀ s o rest, unpack_fuel f s = Some (o, rest) →
    ∃ c, c ≠ [] ∧ s = c ++ rest
         ∧ ∀ rest' f', (length c ≤ f')%nat →
             unpack_fuel f' (c ++ rest') = Some (o, rest').

(** ** The ciphers *)

(** 2^128 and 2^56, written out *)
Definition two128 : Z := 340282366920938463463374607431768211456.
Definition two56 : Z := 72057594037927936.

Definition mix (acc x : Z) : Z :=
  ((acc + x) * 6364136223846793005 + 1442695040888963407) mod two128.

(** A 128-bit polynomial hash *)
Definition hash (b : bytes) : Z :=
  fold_left (λ acc x, mix acc (Z_of_byte x)) b 5381.

(** [n] bytes off the hash of [seed] *)
Definition expand (n : nat) (seed : bytes) : bytes :=
  let h := hash seed in
  (λ i, byte_of_Z (mix h (Z.of_nat i) / two56)) <$> seq 0 n.

(** 2^255 - 19 *)
Definition p25519 : Z :=
  57896044618658097711785492504343953926634992332820282019728792003956564819949.

(** The public key of [sk]: 9 times [sk], mod p *)
Definition ref_scalarmult_base (sk : bytes) : bytes :=
  be_bytes 32 (be_value sk * 9 mod p25519).

(** What [sk] and the public key [pk] of the other side agree on *)
Definition shared (sk pk : bytes) : bytes :=
  be_bytes 32 (be_value sk * be_value pk mod p25519).

Definition shift (by_ : Z) (b : bytes) : bytes :=
  (λ x, byte_of_Z (Z_of_byte x + by_)) <$> b.

Definition tag (body nonce key : bytes) : bytes :=
  be_bytes 16 (hash (key ++ nonce ++ body)).

(** A 16-byte tag, then the message shifted by a pad drawn from the key
    and the nonce *)
Definition ref_secretbox (message nonce key : bytes) : bytes :=
  let body := shift (hash (key ++ nonce)) message in
  tag body nonce key ++ body.

Definition ref_secretbox_open (ciphertext nonce key : bytes) : option bytes :=
  if decide (length ciphertext < 16)%nat then None
  else
    let body := drop 16 ciphertext in
    if decide (take 16 ciphertext = tag body nonce key)
    then Some (shift (- hash (key ++ nonce)) body)
    else None.

Definition ref_box (message nonce sk pk : bytes) : bytes :=
  ref_secretbox message nonce (shared sk pk).

Definition ref_box_open (ciphertext nonce sk pk : bytes) : option bytes :=
  ref_secretbox_open ciphertext nonce (shared sk pk).

#[export] Instance nacl : Nacl :=
  Build_Nacl ref_scalarmult_base ref_box ref_box_open ref_secretbox ref_secretbox_open.

#[export] Instance hmac : Hmac :=
  Build_Hmac (λ key msg, expand 64 (key ++ x5c :: msg)).

(** The randomness is a counter; each draw hashes it and steps it. *)
#[export] Instance random : Random :=
  Build_Random Z (λ n g, (expand n (be_bytes 8 g), g + 1)).

(** ** Sample inputs *)

Definition bytes_of (s : string) : bytes := list_byte_of_string s.

Definition jack_private : bytes := replicate 32 xaa.
Definition alice_private : bytes := expand 32 (bytes_of "alice").
Definition bob_private : bytes := expand 32 (bytes_of "bob").
Definition carol_private : bytes := expand 32 (bytes_of "carol").
Definition alice_public : bytes := ref_scalarmult_base alice_private.
Definition bob_public : bytes := ref_scalarmult_base bob_private.

(** [encrypt(jack_private, [[alice], [bob]], b"hi", 100)] *)
Definition two_groups : outcome trace :=
  encrypt_traced 2025 jack_private [[alice_public]; [bob_public]] (bytes_of "hi") 100.

(** Of an outcome that returned, the value *)
Definition returned {A : Type} (d : A) (m : outcome A) : A :=
  match m with
  | Ret a => a
  | _ => d
  end.

Definition empty_trace : trace :=
  {| tr_rows := []; tr_mac_keys := []; tr_header := ONone; tr_chunks := [];
     tr_output := [] |}.

Definition hi_trace : trace := returned empty_trace two_groups.
Definition hi_blob : bytes := tr_output hi_trace.

(** The first chunk record of [hi_trace], and its ciphertext *)
Definition hi_chunk : chunk_row :=
  default {| chunk_plain := []; chunk_nonce := []; chunk_map := ONone |}
          (tr_chunks hi_trace !! 0%nat).
Definition hi_boxed : bytes := boxed_of (chunk_map hi_chunk).

(** [hi_blob] with the ciphertext of its first chunk record replaced *)
Definition hi_blob_with (boxed_chunk : bytes) : bytes :=
  frames (tr_header hi_trace ::
          <[0%nat := with_boxed (chunk_map hi_chunk) boxed_chunk]>
            (chunk_map <$> tr_chunks hi_trace)).




End Ref.
(** ** json_repr, in full *)

(** [base64.b64encode(b).decode()]: three bytes give four digits of the
    standard alphabet; a last group of one or two bytes is padded with [=]. *)
Definition b64_alphabet : string :=
  "ABCDEFGHIJKLMNOPQRSTUVWXYZabcdefghijklmnopqrstuvwxyz0123456789+/".

Definition b64_digit (n : Z) : ascii :=
  default "="%char (list_ascii_of_string b64_alphabet !! Z.to_nat n).

Fixpoint b64_chars (b : bytes) : list ascii :=
  match b with
  | [] => []
  | [x] =>
      let n := Z_of_byte x * 65536 in
      [b64_digit (n / 262144); b64_digit (n / 4096 mod 64); "="%char; "="%char]
  | [x; y] =>
      let n := Z_of_byte x * 65536 + Z_of_byte y * 256 in
      [b64_digit (n / 262144); b64_digit (n / 4096 mod 64);
       b64_digit (n / 64 mod 64); "="%char]
  | x :: y :: z :: b =>
      let n := Z_of_byte x * 65536 + Z_of_byte y * 256 + Z_of_byte z in
      [b64_digit (n / 262144); b64_digit (n / 4096 mod 64);
       b64_digit (n / 64 mod 64); b64_digit (n mod 64)] ++ b64_chars b
  end.

Definition b64encode (b : bytes) : string := string_of_list_ascii (b64_chars b).

(** Whether [o] can be the key of a dict. A list cannot, nor a dict. *)
Definition hashable (o : obj) : bool :=
  match o with
  | OList _ | ODict _ => false
  | _ => true
  end.

(** [d[k] = v]: a key that is there keeps its place and gets the value. *)
Fixpoint dict_set (d : list (obj * obj)) (k v : obj) : list (obj * obj) :=
  match d with
  | [] => [(k, v)]
  | (k', v') :: d =>
      if key_eqb k k' then (k', v) :: d else (k', v') :: dict_set d k v
  end.

(** [[f(x) for x in l]] *)
Definition list_comprehension (f : obj → outcome obj)
    : list obj → outcome (list obj) :=
  fix go (l : list obj) : outcome (list obj) :=
    match l with
    | [] => Ret []
    | x :: l => y ← f x; ys ← go l; Ret (y :: ys)
    end.

(** [{f(key): f(val) for key, val in d.items()}], built item by item on
    [acc] *)
Definition dict_comprehension (f : obj → outcome obj)
    : list (obj * obj) → list (obj * obj) → outcome (list (obj * obj)) :=
  fix go (d acc : list (obj * obj)) : outcome (list (obj * obj)) :=
    match d with
    | [] => Ret acc
    | kv :: d =>
        k ← f (fst kv);
        v ← f (snd kv);
        if hashable k then go d (dict_set acc k v) else Raise TypeError
    end.

(** The helper of [json_repr]. A tuple, which is an [OList] here, comes
    back as a list, which no dict takes as a key. The limit Python puts on
    the depth of the recursion is not modelled. *)
Fixpoint _recurse_repr (o : obj) : outcome obj :=
  match o with
  | OList l => OList <$> list_comprehension _recurse_repr l
  | ODict d => ODict <$> dict_comprehension _recurse_repr d []
  | OBytes b => Ret (OStr (b64encode b))
  | _ => Ret o
  end.

(** Whether no [bytes] value is left in [o], at any depth *)
Fixpoint no_bytes (o : obj) : bool :=
  match o with
  | OBytes _ => false
  | OList l => forallb no_bytes l
  | ODict d => forallb (λ kv, no_bytes (fst kv) && no_bytes (snd kv)) d
  | _ => true
  end.

(** Whether the keys of [d] are pairwise different *)
Fixpoint distinct_keys (d : list (obj * obj)) : bool :=
  match d with
  | [] => true
  | kv :: d =>
      forallb (λ kv', negb (key_eqb (fst kv') (fst kv))) d && distinct_keys d
  end.

(** A value [json.dumps] takes as it is: no [bytes] at any depth, and every
    dict with hashable, pairwise different keys *)
Fixpoint json_native (o : obj) : bool :=
  match o with
  | OBytes _ => false
  | OList l => forallb json_native l
  | ODict d =>
      forallb (λ kv, hashable (fst kv) && json_native (fst kv)
                     && json_native (snd kv)) d
      && distinct_keys d
  | _ => true
  end.

(** What a dict entry of a [json_native] value is *)
Definition native_item (kv : obj * obj) : Prop :=
  hashable kv.1 = true ∧ json_native kv.1 = true ∧ json_native kv.2 = true.

(** What [_recurse_repr] does with [o], next to [json_ok]: it raises
    [TypeError] where [json_ok] says no, and returns a value that is
    hashable when [o] is where [json_ok] says yes. *)
Definition repr_agrees (o : obj) : Prop :=
  (_recurse_repr o = Raise TypeError ∧ json_ok o = false)
  ∨ (∃ r, _recurse_repr o = Ret r ∧ json_ok o = true ∧ hashable r = hashable o).

(** ** Vocabulary for the MACs of a chunk record *)


(** ** Vocabulary for the exceptions of a block *)

(** When [m] raises, it raises one of [es]. *)
Definition raises_only {A : Type} (m : outcome A) (es : list exn) : Prop :=
  ∀ e, m = Raise e → e ∈ es.

(** Settles [x ∈ l] and [l ⊆ l'] for lists that are written out. *)
Ltac in_list :=
  solve [ repeat first [ apply list_elem_of_here | apply list_elem_of_further ] ].

Ltac sub_list :=
  let x := fresh "x" in
  let Hx := fresh "Hx" in
  intros x Hx;
  repeat (apply elem_of_cons in Hx as [->|Hx]; [in_list|]);
  by apply elem_of_nil in Hx.

(** Settles a goal from [H : e ∈ l], where [e] is none of [l]. *)
Ltac not_in_list H :=
  exfalso; unfold MacMismatch, RecipientNotFound in H;
  repeat (apply elem_of_cons in H as [H|H]; [by simplify_eq|]);
  by apply elem_of_nil in H.

(** Settles [raises_only] for a block without a loop, case by case. *)
Ltac raises_cases :=
  intros ? ?; repeat first [ progress simplify_eq/= | case_match ];
  try done; in_list.

(** ** main *)

(** What [docopt.docopt(__doc__)] returns for the usage pattern of the
    script: the values of [<message>], [--recipients] and [--chunk], each
    [None] or a [str]. *)
Record args := {
  arg_message : option string;
  arg_recipients : option string;
  arg_chunk : option string;
}.

(** The two conversions [main] applies to these strings, as interfaces:
    [s.encode('utf8')] and [int(s)], each answering [None] where Python
    raises ([UnicodeEncodeError], which is a [ValueError], and
    [ValueError]). *)
Class Text := {
  encode_utf8 : string → option bytes;
  int_of_str : string → option Z;
}.

Definition jack_private : bytes := replicate 32 xaa.

Section Main.
Context `{Random, Nacl, Hmac, Msgpack, Text}.

Definition jack_public : bytes := crypto_scalarmult_base jack_private.

Definition default_message : bytes :=
  list_byte_of_string "The Magic Words are Squeamish Ossifrage".

(** [int(x or d)]: [None] and the empty string are false. *)
Definition int_or (x : option string) (d : Z) : outcome Z :=
  match x with
  | Some (String c s) =>
      match int_of_str (String c s) with
      | Some z => Ret z
      | None => Raise ValueError
      end
  | _ => Ret d
  end.

(** [[os.urandom(size) for i in range(n)]] *)
Fixpoint urandom_list (n size : nat) (g : rng) : list bytes * rng :=
  match n with
  | O => ([], g)
  | S n =>
      let '(x, g) := urandom size g in
      let '(xs, g) := urandom_list n size g in
      (x :: xs, g)
  end.

(** The block of [main] that makes [encoded_message]. *)
Definition main_message (a : args) : outcome bytes :=
  match arg_message a with
  | None => Ret default_message
  | Some message =>
      match encode_utf8 message with
      | Some b => Ret b
      | None => Raise ValueError
      end
  end.

(** [main], returning what it prints: [output] (as base64) and
    [decoded_message]. *)
Definition main_traced (g : rng) (a : args) : outcome (bytes * bytes) :=
  encoded_message ← main_message a;
  recipients_len ← int_or (arg_recipients a) 1;
  let '(recipients_private, g) := urandom_list (Z.to_nat recipients_len) 32 g in
  let recipients_public := crypto_scalarmult_base <$> recipients_private in
  let groups := (λ p, [p]) <$> recipients_public in
  chunk_size ← int_or (arg_chunk a) 100;
  output ← encrypt g jack_private groups encoded_message chunk_size;
  first ← seq_index recipients_private 0;
  decoded_message ← decrypt output first;
  Ret (output, decoded_message).

Definition main (g : rng) (a : args) : outcome unit :=
  _ ← main_traced g a; Ret ().
End Main.

(** * A reference implementation of the text conversions *)

Module RefText.

(** The number that a string of decimal digits stands for *)
Fixpoint digits (s : list ascii) (acc : Z) : option Z :=
  match s with
  | [] => Some acc
  | c :: s =>
      let n := Z.of_nat (nat_of_ascii c) - 48 in
      if (0 <=? n) && (n <=? 9) then digits s (acc * 10 + n) else None
  end.

(** [int(s)] for a string of digits, with a [-] before them or not *)
Definition ref_int (s : string) : option Z :=
  match list_ascii_of_string s with
  | [] => None
  | ["-"%char] => None
  | "-"%char :: s => Z.opp <$> digits s 0
  | s => digits s 0
  end.

(** A [str] is held as its UTF-8 bytes. *)
#[export] Instance text : Text :=
  Build_Text (λ s, Some (list_byte_of_string s)) ref_int.

(** ** Sample inputs *)

Definition no_args : args :=
  {| arg_message := None; arg_recipients := None; arg_chunk := None |}.

(** [encrypt.py hello --recipients=3 --chunk=2] *)
Definition hello_args : args :=
  {| arg_message := Some "hello"%string; arg_recipients := Some "3"%string;
     arg_chunk := Some "2"%string |}.

(** [encrypt.py --recipients=0] *)
Definition nobody_args : args :=
  {| arg_message := None; arg_recipients := Some "0"%string; arg_chunk := None |}.
End RefText.

(** * More sample inputs *)

Module Samples.
Import Ref.


(** The row of Alice, the first recipient of [hi_trace] *)
Definition hi_row : recipient_row :=
  default {| row_pub := []; row_keys := ONone; row_nonce := []; row_boxed := [] |}
          (tr_rows hi_trace !! 0%nat).

(** A header that says version 2 *)
Definition version_2 : bytes := frame (ODict [ (OStr "version", OInt 2) ]).

End Samples.

(** * Properties *)

(** ** Python built-ins *)

Lemma py_slice_take {A : Type} (l : list A) (n : Z) :
  0 ≤ n → py_slice l 0 n = take (Z.to_nat n) l.
Proof.
  intros Hn. unfold py_slice, slice_index. simpl.
  destruct (n <? 0) eqn:E; [lia|]. clear E.
  rewrite (Z.min_l 0) by lia. rewrite Z.sub_0_r.
  change (Z.to_nat 0) with 0%nat. rewrite drop_0.
  destruct (decide (n ≤ Z.of_nat (length l))).
  - by rewrite Z.min_l.
  - rewrite Z.min_r by lia. rewrite Nat2Z.id.
    rewrite !take_ge; [done | lia | lia].
Qed.

Lemma py_slice_chunk {A : Type} (l : list A) (start size : Z) :
  0 ≤ start < Z.of_nat (length l) → 1 ≤ size →
  py_slice l start (start + size) = take (Z.to_nat size) (drop (Z.to_nat start) l).
Proof.
  intros Hs Hc. unfold py_slice, slice_index.
  destruct (start <? 0) eqn:E1; [lia|].
  destruct (start + size <? 0) eqn:E2; [lia|]. clear E1 E2.
  rewrite (Z.min_l start) by lia.
  destruct (decide (start + size ≤ Z.of_nat (length l))).
  - rewrite Z.min_l by lia. f_equal. lia.
  - rewrite Z.min_r by lia.
    rewrite !take_ge; [done | rewrite length_drop; lia | rewrite length_drop; lia].
Qed.

Lemma Z_of_byte_range (b : byte) : 0 ≤ Z_of_byte b < 256.
Proof.
  unfold Z_of_byte. pose proof (Byte.to_N_bounded b). lia.
Qed.

Lemma byte_of_Z_of_byte (b : byte) : byte_of_Z (Z_of_byte b) = b.
Proof.
  unfold byte_of_Z. pose proof (Z_of_byte_range b).
  rewrite Z.mod_small by done. unfold Z_of_byte.
  by rewrite N2Z.id, Byte.of_to_N.
Qed.

Lemma Z_of_byte_of_Z (z : Z) : Z_of_byte (byte_of_Z z) = z mod 256.
Proof.
  unfold byte_of_Z, Z_of_byte.
  pose proof (Z.mod_pos_bound z 256 ltac:(lia)) as Hb.
  destruct (Byte.of_N (Z.to_N (z mod 256))) as [b|] eqn:E.
  - simpl. apply Byte.to_of_N in E. rewrite E. lia.
  - exfalso. pose proof (Byte.to_of_N_option_map (Z.to_N (z mod 256))) as Hm.
    rewrite E in Hm. simpl in Hm.
    destruct (N.leb_spec (Z.to_N (z mod 256)) 255); [done | lia].
Qed.

Lemma be_value_snoc (b : bytes) (x : byte) :
  be_value (b ++ [x]) = be_value b * 256 + Z_of_byte x.
Proof. unfold be_value. by rewrite fold_left_app. Qed.

Lemma be_value_be_bytes (len : nat) (n : Z) :
  0 ≤ n < 256 ^ Z.of_nat len → be_value (be_bytes len n) = n.
Proof.
  revert n. induction len as [|len IH]; intros n Hn.
  - simpl in *. unfold be_value. simpl. lia.
  - simpl be_bytes. rewrite be_value_snoc, Z_of_byte_of_Z.
    rewrite IH.
    + pose proof (Z.div_mod n 256). lia.
    + rewrite Nat2Z.inj_succ, Z.pow_succ_r in Hn by lia.
      split; [apply Z.div_pos; lia | apply Z.div_lt_upper_bound; lia].
Qed.

Lemma length_be_bytes (len : nat) (n : Z) : length (be_bytes len n) = len.
Proof.
  revert n. induction len as [|len IH]; intros n; [done|].
  simpl. rewrite length_app, IH. simpl. lia.
Qed.

Lemma to_bytes_Ret (n : Z) (len : nat) :
  0 ≤ n < 256 ^ Z.of_nat len → to_bytes n len = Ret (be_bytes len n).
Proof.
  intros Hn. unfold to_bytes.
  destruct (n <? 0) eqn:E1; [lia|].
  destruct (256 ^ Z.of_nat len <=? n) eqn:E2; [lia|]. done.
Qed.

Lemma to_bytes_inv (n : Z) (len : nat) (b : bytes) :
  to_bytes n len = Ret b → 0 ≤ n < 256 ^ Z.of_nat len ∧ b = be_bytes len n.
Proof.
  unfold to_bytes.
  destruct (n <? 0) eqn:E1; [done|].
  destruct (256 ^ Z.of_nat len <=? n) eqn:E2; [done|].
  intros [= <-]. split; [lia | done].
Qed.

Lemma to_bytes_inj (n m : Z) (len : nat) (b : bytes) :
  to_bytes n len = Ret b → to_bytes m len = Ret b → n = m.
Proof.
  intros [Hn ->]%to_bytes_inv [Hm Heq]%to_bytes_inv.
  rewrite <- (be_value_be_bytes len n), <- (be_value_be_bytes len m) by done.
  by rewrite Heq.
Qed.

Lemma seq_index_nat {A : Type} (l : list A) (i : nat) (x : A) :
  l !! i = Some x → seq_index l (Z.of_nat i) = Ret x.
Proof.
  intros Hx. pose proof (lookup_lt_Some _ _ _ Hx) as Hlt. unfold seq_index.
  destruct (Z.of_nat i <? 0) eqn:E1; [lia|].
  destruct (Z.of_nat i <? 0) eqn:E2; [lia|].
  destruct (Z.of_nat (length l) <=? Z.of_nat i) eqn:E3; [lia|].
  simpl. by rewrite Nat2Z.id, Hx.
Qed.

(** ** The outcome monad *)

Lemma bind_Ret {A B : Type} (a : A) (f : A → outcome B) : Ret a ≫= f = f a.
Proof. done. Qed.

Lemma bind_Ret_inv {A B : Type} (m : outcome A) (f : A → outcome B) (b : B) :
  m ≫= f = Ret b → ∃ a, m = Ret a ∧ f a = Ret b.
Proof. destruct m; [eauto | done | done]. Qed.

Lemma fmap_Ret_inv {A B : Type} (m : outcome A) (f : A → B) (b : B) :
  f <$> m = Ret b → ∃ a, m = Ret a ∧ f a = b.
Proof. destruct m; [|done|done]. intros [= <-]. eauto. Qed.

Lemma for_each_app {A S : Type} (body : S → A → outcome S) (s : S) (l1 l2 : list A) :
  for_each body s (l1 ++ l2) = for_each body s l1 ≫= λ s', for_each body s' l2.
Proof.
  revert s. induction l1 as [|x l1 IH]; intros s; [done|].
  simpl. destruct (body s x); [apply IH | done | done].
Qed.

(** ** chunks_with_empty *)

Lemma ceil_div_step (a c : Z) :
  1 ≤ a → 1 ≤ c → ceil_div a c = 1 + ceil_div (Z.max 0 (a - c)) c.
Proof.
  intros Ha Hc. unfold ceil_div.
  destruct (decide (c ≤ a)).
  - rewrite Z.max_r by lia.
    replace (a + c - 1) with ((a - c + c - 1) + 1 * c) by lia.
    rewrite Z.div_add by lia. lia.
  - rewrite Z.max_l by lia.
    rewrite (Z.div_small (0 + c - 1)) by lia.
    symmetry. apply Z.div_unique with (a - 1); lia.
Qed.

Lemma ceil_div_0 (c : Z) : 1 ≤ c → ceil_div 0 c = 0.
Proof. intros. unfold ceil_div. apply Z.div_small. lia. Qed.

Lemma chunks_with_empty_loop_spec (fuel : nat) (message : bytes)
    (chunk_size chunk_start : Z) (chunks : list bytes) :
  1 ≤ chunk_size → 0 ≤ chunk_start →
  (Z.to_nat (Z.of_nat (length message) - chunk_start) ≤ fuel)%nat →
  ∃ pieces,
    chunks_with_empty_loop fuel message chunk_size chunk_start chunks
      = Ret (chunks ++ pieces ++ [[]])
    ∧ concat pieces = drop (Z.to_nat chunk_start) message
    ∧ Forall (λ p, p ≠ [] ∧ Z.of_nat (length p) ≤ chunk_size) pieces
    ∧ Z.of_nat (length pieces)
        = ceil_div (Z.max 0 (Z.of_nat (length message) - chunk_start)) chunk_size.
Proof.
  intros Hc. revert chunk_start chunks.
  induction fuel as [|fuel IH]; intros start chunks Hs Hfuel.
  - simpl. destruct (start <? Z.of_nat (length message)) eqn:E; [lia|].
    exists []. split_and!; [done | | done |].
    + rewrite drop_ge; [done | lia].
    + rewrite Z.max_l by lia. by rewrite ceil_div_0.
  - simpl. destruct (start <? Z.of_nat (length message)) eqn:E.
    + destruct (IH (start + chunk_size)
                  (chunks ++ [py_slice message start (start + chunk_size)]))
        as (pieces & Hrun & Hcat & Hne & Hlen); [lia | lia |].
      rewrite py_slice_chunk in * by lia.
      set (piece := take (Z.to_nat chunk_size) (drop (Z.to_nat start) message)) in *.
      exists (piece :: pieces). split_and!.
      * rewrite Hrun. by rewrite <- app_assoc.
      * simpl. rewrite Hcat. unfold piece.
        replace (Z.to_nat (start + chunk_size))
          with (Z.to_nat start + Z.to_nat chunk_size)%nat by lia.
        rewrite <- drop_drop. apply take_drop.
      * constructor; [|done]. unfold piece. split.
        -- intros Hnil%(f_equal length). rewrite length_take, length_drop in Hnil.
           simpl in Hnil. lia.
        -- rewrite length_take. lia.
      * simpl length. rewrite Nat2Z.inj_succ, Hlen.
        rewrite (Z.max_r 0 (Z.of_nat (length message) - start)) by lia.
        rewrite (ceil_div_step (Z.of_nat (length message) - start)) by lia.
        replace (Z.of_nat (length message) - (start + chunk_size))
          with (Z.of_nat (length message) - start - chunk_size) by lia. lia.
    + exists []. split_and!; [done | | done |].
      * rewrite drop_ge; [done | lia].
      * rewrite Z.max_l by lia. by rewrite ceil_div_0.
Qed.

Lemma chunks_with_empty_spec (message : bytes) (chunk_size : Z) :
  1 ≤ chunk_size →
  ∃ pieces,
    chunks_with_empty message chunk_size = Ret (pieces ++ [[]])
    ∧ concat pieces = message
    ∧ Forall (λ p, p ≠ [] ∧ Z.of_nat (length p) ≤ chunk_size) pieces
    ∧ Z.of_nat (length pieces) = ceil_div (Z.of_nat (length message)) chunk_size.
Proof.
  intros Hc.
  destruct (chunks_with_empty_loop_spec (length message) message chunk_size 0 [])
    as (pieces & Hrun & Hcat & Hne & Hlen); [done | done | lia |].
  exists pieces. split_and!; [done | done | done |].
  rewrite Hlen. f_equal. lia.
Qed.

(** ** The loops of encrypt *)

Section Encoder.
Context `{Random, Nacl, Hmac, Msgpack}.

Lemma write_framed_msgpack_frame (stream : bytes) (o : obj) :
  write_framed_msgpack stream o = stream ++ frame o.
Proof. unfold write_framed_msgpack, frame. by rewrite <- app_assoc. Qed.

Lemma frames_app (os1 os2 : list obj) :
  frames (os1 ++ os2) = frames os1 ++ frames os2.
Proof. unfold frames. by rewrite fmap_app, concat_app. Qed.

Lemma frames_cons (o : obj) (os : list obj) :
  frames (o :: os) = frame o ++ frames os.
Proof. done. Qed.

Lemma encrypt_recipient_step (need_macs : bool) (ek prefix sk : bytes)
    (gn : nat) (mk : bytes) (rows : list recipient_row) (n : nat) (pk : bytes) :
  Z.of_nat n < 2 ^ 64 →
  encrypt_recipient need_macs ek prefix sk gn mk (rows, Z.of_nat n) pk
  = Ret (rows ++ [mk_row need_macs ek prefix sk gn mk n pk], Z.of_nat (S n)).
Proof.
  intros Hn. unfold encrypt_recipient.
  rewrite to_bytes_Ret by (change (256 ^ Z.of_nat 8) with (2 ^ 64); lia).
  rewrite bind_Ret. unfold mk_row. do 2 f_equal. lia.
Qed.

Lemma encrypt_chunk_step (need_macs : bool) (ek : bytes) (mks : list bytes)
    (rows : list chunk_row) (output : bytes) (i : nat) (chunk : bytes) :
  Z.of_nat i < 2 ^ 192 →
  encrypt_chunk need_macs ek mks (rows, output) (i, chunk)
  = Ret (rows ++ [mk_chunk_row need_macs ek mks i chunk],
         output ++ frame (chunk_map (mk_chunk_row need_macs ek mks i chunk))).
Proof.
  intros Hi. unfold encrypt_chunk.
  rewrite to_bytes_Ret by (change (256 ^ Z.of_nat 24) with (2 ^ 192); lia).
  rewrite bind_Ret. by rewrite write_framed_msgpack_frame.
Qed.

Lemma encrypt_recipients_spec (need_macs : bool) (ek prefix sk : bytes)
    (gn : nat) (mk : bytes) (group : list bytes) (rows : list recipient_row) :
  Z.of_nat (length rows + length group) ≤ 2 ^ 64 →
  for_each (encrypt_recipient need_macs ek prefix sk gn mk)
           (rows, Z.of_nat (length rows)) group
  = Ret (rows ++ imap (λ j pk, mk_row need_macs ek prefix sk gn mk
                                  (length rows + j) pk) group,
         Z.of_nat (length rows + length group)).
Proof.
  revert rows. induction group as [|pk group IH]; intros rows Hlen.
  - simpl. by rewrite app_nil_r, Nat.add_0_r.
  - simpl in Hlen. cbn [for_each].
    rewrite encrypt_recipient_step by lia. rewrite bind_Ret.
    replace (S (length rows)) with
      (length (rows ++ [mk_row need_macs ek prefix sk gn mk (length rows) pk]))
      by (rewrite length_app; simpl; lia).
    rewrite IH.
    + rewrite <- app_assoc. cbn [imap app length]. rewrite Nat.add_0_r.
      do 2 f_equal.
      * do 2 f_equal. apply imap_ext. intros j x _. simpl.
        rewrite length_app. simpl. f_equal. lia.
      * rewrite length_app. simpl. lia.
    + rewrite length_app. simpl. lia.
Qed.

Lemma encrypt_group_step (need_macs : bool) (ek prefix sk : bytes)
    (g : rng) (mks : list bytes) (rows : list recipient_row)
    (k : nat) (group : list bytes) :
  Z.of_nat (length rows + length group) ≤ 2 ^ 64 →
  ∃ mk0 g0 mks0,
    encrypt_group need_macs ek prefix sk
      (g, mks, (rows, Z.of_nat (length rows))) (k, group)
    = Ret (g0, mks ++ mks0,
           (rows ++ imap (λ j pk, mk_row need_macs ek prefix sk k mk0
                                    (length rows + j) pk) group,
            Z.of_nat (length rows + length group)))
    ∧ mks0 = (if need_macs then [mk0] else []).
Proof.
  intros Hlen. unfold encrypt_group. destruct need_macs.
  - destruct (urandom 16 g) as [mk0 g0]. exists mk0, g0, [mk0].
    by rewrite encrypt_recipients_spec.
  - exists [], g, []. rewrite encrypt_recipients_spec by done.
    by rewrite app_nil_r.
Qed.

(** The rows the loop over the groups adds: who they are for, and how
    each was made. *)
Lemma encrypt_groups_spec (need_macs : bool) (ek prefix sk : bytes)
    (groups : list (list bytes)) :
  ∀ (k : nat) (g : rng) (mks : list bytes) (rows : list recipient_row),
    Z.of_nat (length rows + length (concat groups)) ≤ 2 ^ 64 →
    (need_macs = true → length mks = k) →
    ∃ g' mks_new new,
      for_each (encrypt_group need_macs ek prefix sk)
               (g, mks, (rows, Z.of_nat (length rows)))
               (imap (λ i x, ((k + i)%nat, x)) groups)
        = Ret (g', mks ++ mks_new, (rows ++ new, Z.of_nat (length rows + length new)))
      ∧ row_pub <$> new = concat groups
      ∧ length mks_new = (if need_macs then length groups else 0%nat)
      ∧ ∀ j r, new !! j = Some r →
          ∃ gn mk,
            r = mk_row need_macs ek prefix sk gn mk (length rows + j) (row_pub r)
            ∧ (need_macs = true → (mks ++ mks_new) !! gn = Some mk).
Proof.
  induction groups as [|group groups IH]; intros k g mks rows Hlen Hk.
  - exists g, [], []. simpl. rewrite !app_nil_r, Nat.add_0_r.
    split_and!; [done | done | by destruct need_macs | done].
  - simpl in Hlen. rewrite length_app in Hlen.
    cbn [imap for_each].
    destruct (encrypt_group_step need_macs ek prefix sk g mks rows (k + 0) group)
      as (mk0 & g0 & mks0 & -> & Hmks0); [lia|].
    rewrite bind_Ret.
    set (new0 := imap (λ j pk, mk_row need_macs ek prefix sk (k + 0) mk0
                                 (length rows + j) pk) group).
    assert (length new0 = length group) as Hnew0 by (subst new0; by rewrite length_imap).
    replace (length rows + length group)%nat with (length (rows ++ new0))
      by (rewrite length_app; lia).
    destruct (IH (S k) g0 (mks ++ mks0) (rows ++ new0)) as (g' & mks' & new' & Hrun & Hpub & Hmlen & Hrows).
    { rewrite length_app. lia. }
    { intros ->. rewrite length_app, Hmks0. simpl. rewrite (Hk eq_refl). lia. }
    exists g', (mks0 ++ mks'), (new0 ++ new').
    split_and!.
    + erewrite imap_ext; [rewrite Hrun|].
      * rewrite <- !app_assoc. do 3 f_equal. rewrite !length_app. lia.
      * intros i x _. simpl. f_equal. lia.
    + rewrite fmap_app, Hpub. f_equal. subst new0.
      rewrite fmap_imap. unfold compose. simpl.
      by rewrite (imap_const (λ x : bytes, x)), list_fmap_id.
    + rewrite length_app, Hmlen, Hmks0. by destruct need_macs.
    + intros j r Hj. destruct (decide (j < length new0)%nat) as [Hlt|Hge].
      * rewrite lookup_app_l in Hj by done. subst new0.
        apply list_lookup_imap_Some in Hj as (pk & Hpk & ->).
        exists (k + 0)%nat, mk0. split; [done|].
        intros ->. rewrite Nat.add_0_r, app_assoc.
        rewrite lookup_app_l by (rewrite length_app, Hmks0, (Hk eq_refl); simpl; lia).
        rewrite Hmks0. rewrite <- (Hk eq_refl).
        by rewrite lookup_app_r, Nat.sub_diag.
      * rewrite lookup_app_r in Hj by lia.
        destruct (Hrows _ _ Hj) as (gn & mk & Hr & Hmk).
        exists gn, mk. split.
        -- rewrite Hr at 1. f_equal. rewrite length_app. lia.
        -- intros Hnm. rewrite app_assoc. by apply Hmk.
Qed.

Lemma encrypt_chunks_spec (need_macs : bool) (ek : bytes) (mks : list bytes)
    (chunks : list bytes) :
  ∀ (k : nat) (rows : list chunk_row) (output : bytes),
    Z.of_nat (k + length chunks) ≤ 2 ^ 192 →
    for_each (encrypt_chunk need_macs ek mks) (rows, output)
             (imap (λ i x, ((k + i)%nat, x)) chunks)
    = Ret (rows ++ imap (λ i, mk_chunk_row need_macs ek mks (k + i)) chunks,
           output ++ frames (chunk_map <$>
                      imap (λ i, mk_chunk_row need_macs ek mks (k + i)) chunks)).
Proof.
  induction chunks as [|chunk chunks IH]; intros k rows output Hlen.
  - simpl. unfold frames. simpl. by rewrite !app_nil_r.
  - simpl in Hlen. cbn [imap for_each].
    rewrite encrypt_chunk_step by lia. rewrite bind_Ret.
    assert (imap ((λ i x, ((k + i)%nat, x)) ∘ S) chunks
            = imap (λ i (x : bytes), ((S k + i)%nat, x)) chunks) as ->.
    { apply imap_ext. intros i x _. simpl. f_equal. lia. }
    assert (imap ((λ i, mk_chunk_row need_macs ek mks (k + i)) ∘ S) chunks
            = imap (λ i, mk_chunk_row need_macs ek mks (S k + i)) chunks) as ->.
    { apply imap_ext. intros i x _. simpl. f_equal. lia. }
    rewrite (IH (S k)) by lia.
    rewrite <- !app_assoc. unfold frames. cbn [fmap list_fmap concat app].
    by rewrite <- ?app_assoc.
Qed.
End Encoder.

(** ** encrypt returns, and what it returns *)

Section EncryptSpec.
Context `{Random, Nacl, Hmac, Msgpack}.

Lemma encrypt_traced_spec (g : rng) (sender_private : bytes)
    (recipient_groups : list (list bytes)) (message : bytes) (chunk_size : Z) :
  1 ≤ chunk_size →
  Z.of_nat (length (concat recipient_groups)) ≤ 2 ^ 64 →
  ceil_div (Z.of_nat (length message)) chunk_size < 2 ^ 192 →
  ∃ tr pieces,
    encrypt_traced g sender_private recipient_groups message chunk_size = Ret tr
    ∧ encrypted g sender_private recipient_groups message chunk_size tr pieces.
Proof.
  intros Hc Hrec Hchunks. unfold encrypt_traced.
  pose proof (eq_refl (encryption_key_of g)) as Hek. unfold encryption_key_of at 1 in Hek.
  pose proof (eq_refl (nonce_start_of g)) as Hns. unfold nonce_start_of at 1 in Hns.
  destruct (urandom 32 g) as [ek g1]. simpl in Hek, Hns.
  destruct (urandom 16 g1) as [prefix g2]. simpl in Hns.
  fold (need_macs_of recipient_groups).
  destruct (encrypt_groups_spec (need_macs_of recipient_groups) ek prefix
              sender_private recipient_groups 0 g2 [] [])
    as (g' & mks & rows & Hrun & Hpub & Hmlen & Hrows); [simpl; lia | done |].
  unfold enumerate. simpl in Hrun. change (Z.of_nat 0) with 0 in Hrun.
  rewrite Hrun, bind_Ret. clear Hrun.
  destruct (chunks_with_empty_spec message chunk_size Hc)
    as (pieces & -> & Hcat & Hne & Hlen).
  rewrite bind_Ret.
  pose proof (encrypt_chunks_spec (need_macs_of recipient_groups) ek mks
                (pieces ++ [[]]) 0 [] (write_framed_msgpack [] (ODict
                  [ (OStr "version", OInt FORMAT_VERSION);
                    (OStr "sender", OBytes (crypto_scalarmult_base sender_private));
                    (OStr "nonce", OBytes prefix);
                    (OStr "recipients", OList (header_entry <$> rows)) ]))) as Hch.
  simpl in Hch. rewrite Hch, bind_Ret; clear Hch.
  2:{ rewrite length_app. simpl. lia. }
  eexists _, pieces. split; [done|].
  subst ek prefix. constructor; simpl; done.
Qed.
End EncryptSpec.

(** ** Reading back what encrypt wrote *)

Section Roundtrip.
Context `{Random, Nacl, Hmac, Msgpack}.

(** umsgpack reads back what it wrote, and leaves what follows it. *)
Hypothesis unpack_packb : ∀ (o : obj) (rest : bytes),
  unpack (packb o ++ rest) = Some (o, rest).

(** A box made for [pk_r = base sk_r] with the sender's [sk_s] opens with
    [sk_r] and the sender's public key. *)
Hypothesis box_open_box : ∀ (m n sk_s sk_r : bytes),
  crypto_box_open
    (crypto_box m n sk_s (crypto_scalarmult_base sk_r))
    n sk_r (crypto_scalarmult_base sk_s) = Some m.

Hypothesis secretbox_open_secretbox : ∀ (m n k : bytes),
  crypto_secretbox_open (crypto_secretbox m n k) n k = Some m.

Lemma packb_nonempty (o : obj) : packb o ≠ [].
Proof.
  intros Hnil.
  set (w := match o with ONone => OInt 0 | _ => ONone end).
  assert (o ≠ w) as Hne by (subst w; by destruct o).
  pose proof (unpack_packb o (packb w)) as Ho.
  pose proof (unpack_packb w []) as Hw.
  rewrite Hnil in Ho. simpl in Ho. rewrite app_nil_r in Hw. congruence.
Qed.

Lemma length_frame (o : obj) : (2 ≤ length (frame o))%nat.
Proof.
  unfold frame. rewrite length_app.
  pose proof (packb_nonempty o) as Ho.
  pose proof (packb_nonempty (OInt (Z.of_nat (length (packb o))))) as Hl.
  destruct (packb o); [done|]. destruct (packb _); [done|]. simpl. lia.
Qed.

Lemma length_frames (os : list obj) : (length os ≤ length (frames os))%nat.
Proof.
  unfold frames. induction os as [|o os IH]; [done|].
  cbn [fmap list_fmap concat]. rewrite length_app.
  pose proof (length_frame o). simpl. lia.
Qed.

Lemma read_framed_frame (o : obj) (rest : bytes) :
  json_ok o = true →
  read_framed_msgpack (frame o ++ rest) = Ret (o, rest).
Proof.
  intros Hok. unfold read_framed_msgpack, frame, unpack_stream.
  rewrite <- app_assoc, unpack_packb. simpl.
  rewrite unpack_packb. simpl. unfold json_repr. by rewrite Hok.
Qed.

Lemma find_recipient_loop_rows (rows : list recipient_row) (rp : bytes) (k : Z) :
  find_recipient_loop (header_entry <$> rows) rp k
  = match list_find (λ r, row_pub r = rp) rows with
    | Some (i, r) => Ret (k + Z.of_nat i, OBytes (row_boxed r))
    | None => Raise RecipientNotFound
    end.
Proof.
  revert k. induction rows as [|r rows IH]; intros k; [done|].
  cbn [fmap list_fmap find_recipient_loop list_find].
  change (unpack_pair (header_entry r)) with (Ret (OBytes (row_pub r), OBytes (row_boxed r))).
  rewrite bind_Ret. unfold eq_bytes.
  destruct (decide (row_pub r = rp)) as [Heq|Hne].
  - rewrite bool_decide_true by done. do 2 f_equal. lia.
  - rewrite bool_decide_false by done. rewrite IH.
    destruct (list_find _ rows) as [[i r']|]; simpl; [|done].
    do 2 f_equal. lia.
Qed.

Lemma make_keys_json_ok (nm : bool) (ek : bytes) (gn : nat) (mk : bytes) :
  json_ok (make_keys nm ek gn mk) = true.
Proof. by destruct nm. Qed.

Lemma make_keys_encryption_key (nm : bool) (ek : bytes) (gn : nat) (mk : bytes) :
  getitem_str (make_keys nm ek gn mk) "encryption_key" = Ret (OBytes ek).
Proof. by destruct nm. Qed.

Lemma make_keys_mac_group (nm : bool) (ek : bytes) (gn : nat) (mk : bytes) :
  dict_get (make_keys nm ek gn mk) "mac_group"
  = Ret (if nm then OInt (Z.of_nat gn) else ONone).
Proof. by destruct nm. Qed.

Lemma make_keys_mac_key (nm : bool) (ek : bytes) (gn : nat) (mk : bytes) :
  dict_get (make_keys nm ek gn mk) "mac_key"
  = Ret (if nm then OBytes mk else ONone).
Proof. by destruct nm. Qed.

Lemma unbox_keys_row (nm : bool) (ek prefix sk_s sk_r : bytes)
    (gn : nat) (mk : bytes) (i : nat) :
  Z.of_nat i < 2 ^ 64 →
  unbox_keys (OBytes (crypto_scalarmult_base sk_s)) (OBytes prefix) sk_r (Z.of_nat i)
    (OBytes (row_boxed (mk_row nm ek prefix sk_s gn mk i (crypto_scalarmult_base sk_r))))
  = Ret (make_keys nm ek gn mk).
Proof.
  intros Hi. unfold unbox_keys.
  rewrite to_bytes_Ret by (change (256 ^ Z.of_nat 8) with (2 ^ 64); lia).
  unfold box_open, mk_row. cbn -[crypto_box crypto_box_open packb make_keys be_bytes].
  rewrite box_open_box.
  rewrite bind_Ret. unfold unpackb, unpack_stream.
  rewrite <- (app_nil_r (packb _)), unpack_packb. done.
Qed.

Lemma check_mac_ok (nm : bool) (mks : list bytes) (gn : nat) (mk boxed : bytes) :
  (nm = true → mks !! gn = Some mk) →
  check_mac (if nm then OBytes mk else ONone)
            (if nm then OInt (Z.of_nat gn) else ONone)
            (OList (chunk_macs nm mks boxed)) (OBytes boxed)
  = Ret ().
Proof.
  intros Hmk. destruct nm; [|done]. specialize (Hmk eq_refl).
  unfold check_mac, getitem, chunk_macs.
  erewrite seq_index_nat; [|by rewrite list_lookup_fmap, Hmk].
  simpl. by rewrite bool_decide_true.
Qed.

Lemma chunk_macs_json_ok (nm : bool) (mks : list bytes) (boxed : bytes) :
  forallb json_ok (chunk_macs nm mks boxed) = true.
Proof. unfold chunk_macs. destruct nm; [|done]. by induction mks. Qed.

Lemma mk_chunk_map_json_ok (nm : bool) (mks : list bytes) (boxed : bytes) :
  json_ok (mk_chunk_map nm mks boxed) = true.
Proof.
  unfold mk_chunk_map. cbn [json_ok forallb fst snd].
  by rewrite chunk_macs_json_ok.
Qed.

(** One turn of the loop on a frame that [encrypt] wrote. *)
Lemma decrypt_loop_step (nm : bool) (ek : bytes) (mks : list bytes)
    (gn : nat) (mk chunk : bytes) (i fuel : nat) (rest out : bytes) :
  (nm = true → mks !! gn = Some mk) →
  Z.of_nat i < 2 ^ 192 →
  decrypt_loop (S fuel) (OBytes ek)
    (if nm then OInt (Z.of_nat gn) else ONone)
    (if nm then OBytes mk else ONone)
    (frame (chunk_map (mk_chunk_row nm ek mks i chunk)) ++ rest) (Z.of_nat i) out
  = if bool_decide (chunk = []) then Ret (out, rest)
    else decrypt_loop fuel (OBytes ek)
           (if nm then OInt (Z.of_nat gn) else ONone)
           (if nm then OBytes mk else ONone)
           rest (Z.of_nat i + 1) (out ++ chunk).
Proof.
  intros Hmk Hi. cbn [decrypt_loop].
  rewrite to_bytes_Ret by (change (256 ^ Z.of_nat 24) with (2 ^ 192); lia).
  rewrite bind_Ret. cbn [mk_chunk_row chunk_map].
  rewrite read_framed_frame by apply mk_chunk_map_json_ok.
  rewrite bind_Ret. unfold mk_chunk_map at 1 2.
  change (getitem_str (ODict ((OStr "macs", ?m) :: ?d)) "macs") with (@Ret obj m).
  rewrite bind_Ret.
  change (getitem_str (ODict [(OStr "macs", ?m); (OStr "chunk", ?c)]) "chunk")
    with (@Ret obj c).
  rewrite bind_Ret, check_mac_ok by done. rewrite bind_Ret.
  unfold secretbox_open. simpl. by rewrite secretbox_open_secretbox.
Qed.

(** The loop on the first chunk frames of [encrypt], none of an empty
    chunk: it goes through them and carries on with what follows. *)
Lemma decrypt_loop_prefix (nm : bool) (ek : bytes) (mks : list bytes)
    (gn : nat) (mk : bytes) (pieces : list bytes) :
  (nm = true → mks !! gn = Some mk) →
  Forall (λ p, p ≠ []) pieces →
  ∀ (k : nat) (out : bytes) (fuel : nat) (rest : bytes),
    Z.of_nat (k + length pieces) < 2 ^ 192 →
    decrypt_loop (length pieces + fuel) (OBytes ek)
      (if nm then OInt (Z.of_nat gn) else ONone)
      (if nm then OBytes mk else ONone)
      (frames (chunk_map <$> imap (λ i, mk_chunk_row nm ek mks (k + i)) pieces)
         ++ rest)
      (Z.of_nat k) out
    = decrypt_loop fuel (OBytes ek)
        (if nm then OInt (Z.of_nat gn) else ONone)
        (if nm then OBytes mk else ONone)
        rest (Z.of_nat (k + length pieces)) (out ++ concat pieces).
Proof.
  intros Hmk Hne. induction Hne as [|p pieces Hp Hne IH];
    intros k out fuel rest Hk; simpl in Hk.
  - simpl. by rewrite Nat.add_0_r, app_nil_r.
  - cbn [app imap fmap list_fmap length Nat.add]. unfold frames.
    cbn [fmap list_fmap concat].
    rewrite Nat.add_0_r, <- app_assoc.
    rewrite decrypt_loop_step by (done || lia).
    rewrite bool_decide_false by done.
    assert (imap ((λ i, mk_chunk_row nm ek mks (k + i)) ∘ S) pieces
            = imap (λ i, mk_chunk_row nm ek mks (S k + i)) pieces) as ->.
    { apply imap_ext. intros i x _. simpl. f_equal. lia. }
    replace (Z.of_nat k + 1) with (Z.of_nat (S k)) by lia.
    fold (frames (chunk_map <$> imap (λ i, mk_chunk_row nm ek mks (S k + i)) pieces)).
    rewrite IH by lia. simpl. rewrite <- app_assoc. do 2 f_equal. lia.
Qed.

(** The loop on all the chunk frames of [encrypt]: it returns the pieces,
    joined, and stops at the empty chunk. *)
Lemma decrypt_loop_frames (nm : bool) (ek : bytes) (mks : list bytes)
    (gn : nat) (mk : bytes) (pieces : list bytes) :
  (nm = true → mks !! gn = Some mk) →
  Forall (λ p, p ≠ []) pieces →
  ∀ (k : nat) (out : bytes) (fuel : nat) (rest : bytes),
    (length pieces < fuel)%nat →
    Z.of_nat (k + length pieces) < 2 ^ 192 →
    decrypt_loop fuel (OBytes ek)
      (if nm then OInt (Z.of_nat gn) else ONone)
      (if nm then OBytes mk else ONone)
      (frames (chunk_map <$> imap (λ i, mk_chunk_row nm ek mks (k + i))
                               (pieces ++ [[]])) ++ rest)
      (Z.of_nat k) out
    = Ret (out ++ concat pieces, rest).
Proof.
  intros Hmk Hne k out fuel rest Hfuel Hk.
  replace fuel with (length pieces + S (fuel - length pieces - 1))%nat by lia.
  rewrite imap_app, fmap_app, frames_app, <- app_assoc.
  rewrite (decrypt_loop_prefix nm ek mks gn mk pieces Hmk Hne) by lia.
  cbn [imap fmap list_fmap]. rewrite frames_cons. unfold frames at 1.
  cbn [fmap list_fmap concat app]. rewrite Nat.add_0_r, app_nil_r.
  rewrite decrypt_loop_step by (done || lia).
  by rewrite bool_decide_true.
Qed.

Lemma header_entries_json_ok (rows : list recipient_row) :
  forallb json_ok (header_entry <$> rows) = true.
Proof. by induction rows. Qed.

(** With the header that [encrypt] wrote, a listed recipient gets as far
    as the loop, holding the message key and the MAC key of a group. *)
Lemma decrypt_traced_encrypted (g : rng) (sender_private : bytes)
    (recipient_groups : list (list bytes)) (message : bytes) (chunk_size : Z)
    (tr : trace) (pieces : list bytes) (recipient_private : bytes) :
  encrypted g sender_private recipient_groups message chunk_size tr pieces →
  crypto_scalarmult_base recipient_private ∈ concat recipient_groups →
  Z.of_nat (length (concat recipient_groups)) ≤ 2 ^ 64 →
  ∃ gn mk,
    (need_macs_of recipient_groups = true → tr_mac_keys tr !! gn = Some mk)
    ∧ ∀ body,
        decrypt_traced (frame (tr_header tr) ++ body) recipient_private
        = decrypt_loop (S (length body)) (OBytes (encryption_key_of g))
            (if need_macs_of recipient_groups then OInt (Z.of_nat gn) else ONone)
            (if need_macs_of recipient_groups then OBytes mk else ONone)
            body 0 [].
Proof.
  intros Henc Hin Hrec.
  destruct Henc as [Hcat Hpieces Hcount Hchunkrows Hheader Hout Hpubs Hmlen Hrows].
  rewrite <- Hpubs in Hin. apply list_elem_of_fmap in Hin as (r0 & Hr0 & Hin).
  destruct (list_find_elem_of (λ r, row_pub r = crypto_scalarmult_base recipient_private)
              (tr_rows tr) r0 Hin (eq_sym Hr0)) as [[i r] Hfind].
  pose proof Hfind as Hfind'.
  apply list_find_Some in Hfind' as (Hi & Hr & _).
  destruct (Hrows i r Hi) as (gn & mk & Hrow & Hmk).
  assert (Z.of_nat i < 2 ^ 64) as Hilt.
  { apply lookup_lt_Some in Hi. rewrite <- Hpubs, length_fmap in Hrec. lia. }
  exists gn, mk. split; [done|]. intros body.
  (* the header *)
  unfold decrypt_traced, parse_header.
  rewrite read_framed_frame
    by (rewrite Hheader; simpl; by rewrite header_entries_json_ok).
  rewrite bind_Ret, Hheader.
  change (getitem_str (ODict ((OStr "version", ?v) :: ?d)) "version") with (@Ret obj v).
  rewrite bind_Ret. cbn [eq_one negb bool_decide decide_rel].
  rewrite bool_decide_true by done. cbn [negb].
  change (getitem_str (ODict [_; (OStr "sender", ?v); _; _]) "sender") with (@Ret obj v).
  rewrite bind_Ret.
  change (getitem_str (ODict [_; _; (OStr "nonce", ?v); _]) "nonce") with (@Ret obj v).
  rewrite bind_Ret.
  change (getitem_str (ODict [_; _; _; (OStr "recipients", ?v)]) "recipients")
    with (@Ret obj v).
  rewrite !bind_Ret.
  (* the recipient *)
  unfold find_recipient. cbn [py_iter]. rewrite bind_Ret.
  rewrite find_recipient_loop_rows, Hfind.
  rewrite bind_Ret, Z.add_0_l.
  rewrite Hrow, Hr, unbox_keys_row by done.
  (* the keys *)
  rewrite bind_Ret. unfold unbox_chunks, chunk_keys, json_repr.
  by rewrite make_keys_json_ok, bind_Ret, make_keys_encryption_key, bind_Ret,
    make_keys_mac_group, bind_Ret, make_keys_mac_key, !bind_Ret.
Qed.

(** C1. Round trip: for every message (the empty one too), every chunk
    size of at least 1 and every layout of recipient groups, anyone whose
    public key is listed in a group decrypts what [encrypt] returns to
    exactly the message. The two size bounds say that the recipient
    counter fits the 8 bytes and the chunk counter the 24 bytes that
    [to_bytes] is asked for; a CPython list, whose length is below 2^63,
    always meets them. *)
Theorem encrypt_decrypt_roundtrip (g : rng) (sender_private : bytes)
    (recipient_groups : list (list bytes)) (message : bytes) (chunk_size : Z)
    (recipient_private : bytes) :
  1 ≤ chunk_size →
  crypto_scalarmult_base recipient_private ∈ concat recipient_groups →
  Z.of_nat (length (concat recipient_groups)) ≤ 2 ^ 64 →
  ceil_div (Z.of_nat (length message)) chunk_size < 2 ^ 192 →
  ∃ blob,
    encrypt g sender_private recipient_groups message chunk_size = Ret blob
    ∧ decrypt blob recipient_private = Ret message.
Proof.
  intros Hc Hin Hrec Hchunks.
  destruct (encrypt_traced_spec g sender_private recipient_groups message
              chunk_size Hc Hrec Hchunks) as (tr & pieces & Hrun & Henc).
  exists (tr_output tr). split; [unfold encrypt; by rewrite Hrun|].
  destruct (decrypt_traced_encrypted _ _ _ _ _ _ _ recipient_private Henc Hin Hrec)
    as (gn & mk & Hmk & Hdec).
  destruct Henc as [Hcat Hpieces Hcount Hchunkrows Hheader Hout Hpubs Hmlen Hrows].
  unfold decrypt. rewrite Hout. unfold frames. cbn [fmap list_fmap concat].
  rewrite Hdec, Hchunkrows.
  set (stream := concat (frame <$> _)).
  rewrite <- (app_nil_r stream) at 2.
  subst stream.
  match goal with
  | |- fst <$> ?run = _ => replace run with (Ret ([] ++ concat pieces, @nil byte))
  end.
  { simpl. by rewrite Hcat. }
  symmetry.
  apply (decrypt_loop_frames _ _ _ gn mk pieces Hmk) with (k := 0%nat).
  - eapply Forall_impl; [exact Hpieces|]. by intros p [? _].
  - pose proof (length_frames (chunk_map <$>
      imap (mk_chunk_row (need_macs_of recipient_groups) (encryption_key_of g)
              (tr_mac_keys tr)) (pieces ++ [[]]))) as Hlen.
    rewrite length_fmap, length_imap, length_app in Hlen. simpl in Hlen.
    unfold frames in Hlen. lia.
  - lia.
Qed.
End Roundtrip.

(** ** What encrypt emits *)

Lemma ceil_div_spec (a c : Z) :
  0 ≤ a → 1 ≤ c → (ceil_div a c - 1) * c < a ≤ ceil_div a c * c.
Proof.
  intros Ha Hc. unfold ceil_div.
  pose proof (Z.div_mod (a + c - 1) c ltac:(lia)) as Hdm.
  pose proof (Z.mod_pos_bound (a + c - 1) c ltac:(lia)) as Hm.
  nia.
Qed.

Lemma be_bytes_inj (len : nat) (n m : Z) :
  0 ≤ n < 256 ^ Z.of_nat len → 0 ≤ m < 256 ^ Z.of_nat len →
  be_bytes len n = be_bytes len m → n = m.
Proof.
  intros Hn Hm Heq.
  rewrite <- (be_value_be_bytes len n), <- (be_value_be_bytes len m) by done.
  by rewrite Heq.
Qed.

Section EncoderClaims.
Context `{Random, Nacl, Hmac, Msgpack}.

(** C4. For a chunk size of at least 1, [encrypt] writes the header frame
    and then exactly [ceil(len(message) / chunk_size) + 1] chunk frames,
    so one frame for the empty message; the last frame holds the
    secretbox of the empty string. *)
Theorem encrypt_chunk_frames (g : rng) (sender_private : bytes)
    (recipient_groups : list (list bytes)) (message : bytes) (chunk_size : Z) :
  1 ≤ chunk_size →
  Z.of_nat (length (concat recipient_groups)) ≤ 2 ^ 64 →
  ceil_div (Z.of_nat (length message)) chunk_size < 2 ^ 192 →
  ∃ tr,
    encrypt_traced g sender_private recipient_groups message chunk_size = Ret tr
    ∧ encrypt g sender_private recipient_groups message chunk_size
      = Ret (frame (tr_header tr) ++ frames (chunk_map <$> tr_chunks tr))
    ∧ Z.of_nat (length (tr_chunks tr))
      = ceil_div (Z.of_nat (length message)) chunk_size + 1
    ∧ (message = [] → length (tr_chunks tr) = 1%nat)
    ∧ ∃ final,
        last (tr_chunks tr) = Some final
        ∧ chunk_plain final = []
        ∧ chunk_map final
          = ODict [ (OStr "macs",
                     OList (chunk_macs (need_macs_of recipient_groups)
                              (tr_mac_keys tr)
                              (crypto_secretbox [] (chunk_nonce final)
                                 (encryption_key_of g))));
                    (OStr "chunk",
                     OBytes (crypto_secretbox [] (chunk_nonce final)
                               (encryption_key_of g))) ].
Proof.
  intros Hc Hrec Hchunks.
  destruct (encrypt_traced_spec g sender_private recipient_groups message
              chunk_size Hc Hrec Hchunks) as (tr & pieces & Hrun & Henc).
  destruct Henc as [Hcat Hpieces Hcount Hchunkrows Hheader Hout Hpubs Hmlen Hrows].
  exists tr. split_and!.
  - done.
  - unfold encrypt. rewrite Hrun. simpl. by rewrite Hout.
  - rewrite Hchunkrows, length_imap, length_app. simpl. lia.
  - intros ->. rewrite Hchunkrows, length_imap, length_app. simpl.
    simpl in Hcount. rewrite ceil_div_0 in Hcount by done. lia.
  - rewrite Hchunkrows, imap_app. simpl.
    eexists. rewrite last_snoc. done.
Qed.


(** C8. In one call of [encrypt], two recipients at different positions
    get different unwrap nonces, each the 16-byte prefix followed by the
    position as 8 big-endian bytes, and two chunks at different positions
    get different nonces, each the position as 24 big-endian bytes. *)
Theorem nonces_pairwise_distinct (g : rng) (sender_private : bytes)
    (recipient_groups : list (list bytes)) (message : bytes) (chunk_size : Z) :
  1 ≤ chunk_size →
  Z.of_nat (length (concat recipient_groups)) ≤ 2 ^ 64 →
  ceil_div (Z.of_nat (length message)) chunk_size < 2 ^ 192 →
  ∃ tr,
    encrypt_traced g sender_private recipient_groups message chunk_size = Ret tr
    ∧ (∀ i r, tr_rows tr !! i = Some r →
         to_bytes (Z.of_nat i) 8 = Ret (be_bytes 8 (Z.of_nat i))
         ∧ row_nonce r = nonce_start_of g ++ be_bytes 8 (Z.of_nat i))
    ∧ (∀ i c, tr_chunks tr !! i = Some c →
         to_bytes (Z.of_nat i) 24 = Ret (be_bytes 24 (Z.of_nat i))
         ∧ chunk_nonce c = be_bytes 24 (Z.of_nat i))
    ∧ (∀ i j r r', i ≠ j →
         tr_rows tr !! i = Some r → tr_rows tr !! j = Some r' →
         row_nonce r ≠ row_nonce r')
    ∧ (∀ i j c c', i ≠ j →
         tr_chunks tr !! i = Some c → tr_chunks tr !! j = Some c' →
         chunk_nonce c ≠ chunk_nonce c').
Proof.
  intros Hc Hrec Hchunks.
  destruct (encrypt_traced_spec g sender_private recipient_groups message
              chunk_size Hc Hrec Hchunks) as (tr & pieces & Hrun & Henc).
  destruct Henc as [Hcat Hpieces Hcount Hchunkrows Hheader Hout Hpubs Hmlen Hrows].
  assert (∀ i r, tr_rows tr !! i = Some r →
            0 ≤ Z.of_nat i < 256 ^ Z.of_nat 8
            ∧ row_nonce r = nonce_start_of g ++ be_bytes 8 (Z.of_nat i)) as Hrn.
  { intros i r Hi. pose proof (lookup_lt_Some _ _ _ Hi) as Hlt.
    rewrite <- Hpubs, length_fmap in Hrec.
    split; [change (256 ^ Z.of_nat 8) with (2 ^ 64); lia|].
    by destruct (Hrows i r Hi) as (gn & mk & -> & _). }
  assert (∀ i c, tr_chunks tr !! i = Some c →
            0 ≤ Z.of_nat i < 256 ^ Z.of_nat 24
            ∧ chunk_nonce c = be_bytes 24 (Z.of_nat i)) as Hcn.
  { intros i c Hi. pose proof (lookup_lt_Some _ _ _ Hi) as Hlt.
    rewrite Hchunkrows in Hi, Hlt. rewrite length_imap, length_app in Hlt.
    simpl in Hlt.
    split; [change (256 ^ Z.of_nat 24) with (2 ^ 192); lia|].
    by apply list_lookup_imap_Some in Hi as (chunk & _ & ->). }
  exists tr. split_and!; [done | | | |].
  - intros i r Hi. destruct (Hrn i r Hi) as [Hb ->].
    by rewrite to_bytes_Ret.
  - intros i c Hi. destruct (Hcn i c Hi) as [Hb ->].
    by rewrite to_bytes_Ret.
  - intros i j r r' Hne Hi Hj Heq.
    destruct (Hrn i r Hi) as [Hbi Hri], (Hrn j r' Hj) as [Hbj Hrj].
    rewrite Hri, Hrj in Heq. apply app_inv_head in Heq.
    apply be_bytes_inj in Heq; [lia | done | done].
  - intros i j c c' Hne Hi Hj Heq.
    destruct (Hcn i c Hi) as [Hbi Hci], (Hcn j c' Hj) as [Hbj Hcj].
    rewrite Hci, Hcj in Heq.
    apply be_bytes_inj in Heq; [lia | done | done].
Qed.
End EncoderClaims.

(** ** The framing layer *)

Section Framing.
Context `{Random, Nacl, Hmac, Msgpack}.

Hypothesis unpack_packb : ∀ (o : obj) (rest : bytes),
  unpack (packb o ++ rest) = Some (o, rest).


End Framing.

(** ** Which exception, and when *)


Lemma bind_not_Diverge {A B : Type} (m : outcome A) (f : A → outcome B) :
  m ≠ Diverge → (∀ a, m = Ret a → f a ≠ Diverge) → m ≫= f ≠ Diverge.
Proof. destruct m; simpl; [eauto | done | done]. Qed.

Section Exceptions.
Context `{Random, Nacl, Hmac, Msgpack}.

Lemma unpack_pair_cases (o : obj) :
  (∃ p, unpack_pair o = Ret p)
  ∨ unpack_pair o = Raise TypeError ∨ unpack_pair o = Raise ValueError.
Proof.
  unfold unpack_pair. destruct (py_iter o) as [items|e|] eqn:E; simpl.
  - destruct items as [|a [|b [|c items]]]; eauto.
  - destruct o; simplify_eq/=; eauto.
  - destruct o; simplify_eq/=.
Qed.


Lemma seq_index_cases {A : Type} (l : list A) (i : Z) :
  (∃ x, seq_index l i = Ret x) ∨ seq_index l i = Raise IndexError.
Proof. unfold seq_index. outcome_cases; eauto. Qed.















End Exceptions.

(** ** decrypt on any input *)

Lemma bind_Raise_inv {A B : Type} (m : outcome A) (f : A → outcome B) (e : exn) :
  m ≫= f = Raise e → m = Raise e ∨ ∃ a, m = Ret a ∧ f a = Raise e.
Proof. destruct m; simpl; [eauto | intros [= ->]; eauto | done]. Qed.

Lemma bind_plain {A B : Type} (m : outcome A) (f : A → outcome B) :
  (∀ e, m = Raise e → plain_exn e) →
  (∀ a e, m = Ret a → f a = Raise e → plain_exn e) →
  ∀ e, m ≫= f = Raise e → plain_exn e.
Proof. intros Hm Hf e [?|(a & ? & ?)]%bind_Raise_inv; eauto. Qed.

Section AnyInput.
Context `{Random, Nacl, Hmac, Msgpack}.

Lemma decrypt_traced_keys (input recipient_private : bytes) :
  decrypt_traced input recipient_private
  = (decrypt_keys input recipient_private ≫= λ '(ek, mg, mk, stream),
     decrypt_loop (S (length stream)) ek mg mk stream 0 []).
Proof.
  unfold decrypt_traced, decrypt_keys.
  destruct (parse_header input) as [[[[sender nonce] recipients] stream]| |];
    [|done|done]. simpl.
  destruct (find_recipient _ _) as [[num boxed]| |]; [|done|done]. simpl.
  destruct (unbox_keys _ _ _ _ _) as [keys| |]; [|done|done]. simpl.
  unfold unbox_chunks.
  by destruct (chunk_keys keys) as [[[ek mg] mk]| |].
Qed.

(** What the loop returns is what the chunks up to the first empty one
    hold, joined. *)
Lemma decrypt_loop_complete (fuel : nat) (ek mg mk : obj) (stream : bytes)
    (chunknum : Z) (output m rest : bytes) :
  decrypt_loop fuel ek mg mk stream chunknum output = Ret (m, rest) →
  ∃ pieces, chunk_run ek mg mk stream chunknum pieces rest
            ∧ m = output ++ concat pieces.
Proof.
  revert stream chunknum output.
  induction fuel as [|fuel IH]; intros stream chunknum output Hrun; [done|].
  cbn [decrypt_loop] in Hrun.
  apply bind_Ret_inv in Hrun as (nonce & Hnonce & Hrun).
  apply bind_Ret_inv in Hrun as ([cm stream'] & Hread & Hrun).
  apply bind_Ret_inv in Hrun as (macs & Hmacs & Hrun).
  apply bind_Ret_inv in Hrun as (boxed & Hboxed & Hrun).
  apply bind_Ret_inv in Hrun as ([] & Hmac & Hrun).
  apply bind_Ret_inv in Hrun as (chunk & Hopen & Hrun).
  case_bool_decide as Hchunk.
  - simplify_eq. exists []. split; [|by rewrite app_nil_r].
    by eapply chunk_run_last.
  - apply IH in Hrun as (pieces & Hpieces & ->).
    exists (chunk :: pieces). split; [|simpl; by rewrite app_assoc].
    by eapply chunk_run_more.
Qed.

(** The exceptions of the parts of [decrypt] are plain. *)
Lemma seq_index_plain {A : Type} (l : list A) (i : Z) (e : exn) :
  seq_index l i = Raise e → plain_exn e.
Proof. destruct (seq_index_cases l i) as [[? ->]| ->]; by intros [= <-]. Qed.

Lemma getitem_plain (o i : obj) (e : exn) : getitem o i = Raise e → plain_exn e.
Proof.
  unfold getitem. destruct o; try (by intros [= <-]);
    repeat case_match; try (by intros [= <-]); apply seq_index_plain.
Qed.

Lemma check_mac_plain (mac_key mac_group macs boxed_chunk : obj) (e : exn) :
  check_mac mac_key mac_group macs boxed_chunk = Raise e → plain_exn e.
Proof.
  unfold check_mac. destruct mac_key; try done;
    (apply bind_plain; [apply getitem_plain|]; intros their e' _;
     unfold slice16, as_bytes; intros He; outcome_cases; simpl; auto).
Qed.

Lemma read_framed_msgpack_plain (stream : bytes) (e : exn) :
  read_framed_msgpack stream = Raise e → plain_exn e.
Proof.
  unfold read_framed_msgpack, unpack_stream, json_repr. intros He. outcome_cases.
Qed.

Lemma to_bytes_plain (n : Z) (len : nat) (e : exn) :
  to_bytes n len = Raise e → plain_exn e.
Proof. unfold to_bytes. intros He. outcome_cases. Qed.

Lemma getitem_str_plain (o : obj) (k : string) (e : exn) :
  getitem_str o k = Raise e → plain_exn e.
Proof. unfold getitem_str. intros He. outcome_cases. Qed.

Lemma decrypt_loop_plain (fuel : nat) (ek mg mk : obj) (stream : bytes)
    (chunknum : Z) (output : bytes) :
  ∀ e, decrypt_loop fuel ek mg mk stream chunknum output = Raise e → plain_exn e.
Proof.
  revert stream chunknum output.
  induction fuel as [|fuel IH]; intros stream chunknum output; [done|].
  cbn [decrypt_loop].
  apply bind_plain; [apply to_bytes_plain|]; intros nonce e _. revert e.
  apply bind_plain; [apply read_framed_msgpack_plain|]; intros [cm s] e _. revert e.
  apply bind_plain; [apply getitem_str_plain|]; intros macs e _. revert e.
  apply bind_plain; [apply getitem_str_plain|]; intros boxed e _. revert e.
  apply bind_plain; [apply check_mac_plain|]; intros _ e _. revert e.
  apply bind_plain.
  { unfold secretbox_open, as_bytes. intros e He. outcome_cases. }
  intros chunk e _. case_bool_decide; [done | apply IH].
Qed.

Lemma decrypt_keys_plain (input recipient_private : bytes) :
  ∀ e, decrypt_keys input recipient_private = Raise e → plain_exn e.
Proof.
  unfold decrypt_keys. apply bind_plain.
  { unfold parse_header. apply bind_plain; [apply read_framed_msgpack_plain|].
    intros [header s] e _. revert e.
    apply bind_plain; [apply getitem_str_plain|]; intros version e _.
    destruct (eq_one version); simpl; [|by intros [= <-]]. revert e.
    apply bind_plain; [apply getitem_str_plain|]; intros sender e _. revert e.
    apply bind_plain; [apply getitem_str_plain|]; intros nonce e _. revert e.
    apply bind_plain; [apply getitem_str_plain|]; done. }
  intros [[[sender nonce] recipients] stream] e _. revert e.
  apply bind_plain.
  { unfold find_recipient. apply bind_plain.
    - intros e He. destruct recipients; simplify_eq/=; done.
    - intros items e _. generalize 0.
      induction items as [|item items IH]; intros k.
      + simpl. intros [= <-]. simpl. auto.
      + cbn [find_recipient_loop].
        destruct (unpack_pair_cases item) as [[[pub boxed] ->]|[->| ->]]; simpl.
        * destruct (eq_bytes pub _); [done | apply IH].
        * by intros [= <-].
        * by intros [= <-]. }
  intros [num boxed] e _. revert e.
  apply bind_plain.
  { unfold unbox_keys. apply bind_plain; [apply to_bytes_plain|].
    intros counter e _.
    unfold as_bytes, box_open, unpackb, unpack_stream, as_bytes.
    intros He. outcome_cases. }
  intros keys e _. revert e.
  apply bind_plain.
  { unfold chunk_keys, json_repr, getitem_str, dict_get. intros e He. outcome_cases. }
  by intros [[ek mg] mk] e _.
Qed.

(** *** No partial output *)

Section Total.
(** A value that umsgpack unpacks takes at least one byte. *)
Hypothesis unpack_shorter : ∀ (s : bytes) (o : obj) (rest : bytes),
  unpack s = Some (o, rest) → (length rest < length s)%nat.

Lemma read_framed_msgpack_shorter (s : bytes) (o : obj) (rest : bytes) :
  read_framed_msgpack s = Ret (o, rest) → (length rest < length s)%nat.
Proof.
  unfold read_framed_msgpack, unpack_stream, json_repr. intros Hr.
  destruct (unpack s) as [[lp s1]|] eqn:E1; [|done]. simpl in Hr.
  destruct (unpack s1) as [[o' s2]|] eqn:E2; [|done]. simpl in Hr.
  apply unpack_shorter in E1, E2.
  destruct (json_ok o'); simplify_eq/=. lia.
Qed.

Lemma decrypt_loop_total (fuel : nat) (ek mg mk : obj) (stream : bytes)
    (chunknum : Z) (output : bytes) :
  (length stream < fuel)%nat →
  decrypt_loop fuel ek mg mk stream chunknum output ≠ Diverge.
Proof.
  revert stream chunknum output.
  induction fuel as [|fuel IH]; intros stream chunknum output Hfuel; [lia|].
  cbn [decrypt_loop].
  apply bind_not_Diverge; [unfold to_bytes; outcome_cases|]; intros nonce _.
  apply bind_not_Diverge.
  { unfold read_framed_msgpack, unpack_stream, json_repr. outcome_cases. }
  intros [cm s] Hread%read_framed_msgpack_shorter.
  apply bind_not_Diverge; [unfold getitem_str; outcome_cases|]; intros macs _.
  apply bind_not_Diverge; [unfold getitem_str; outcome_cases|]; intros boxed _.
  apply bind_not_Diverge.
  { unfold check_mac. destruct mk; try done;
      (apply bind_not_Diverge;
       [ unfold getitem; destruct macs; try done; repeat case_match; try done;
         match goal with
         | |- seq_index ?l ?z ≠ _ =>
             destruct (seq_index_cases l z) as [[? ->]| ->]; done
         end
       | intros their _; unfold slice16, as_bytes; outcome_cases ]). }
  intros _ _.
  apply bind_not_Diverge; [unfold secretbox_open, as_bytes; outcome_cases|].
  intros chunk _. case_bool_decide; [done|]. apply IH. lia.
Qed.

Lemma decrypt_keys_total (input recipient_private : bytes) :
  decrypt_keys input recipient_private ≠ Diverge.
Proof.
  unfold decrypt_keys. apply bind_not_Diverge.
  { unfold parse_header, read_framed_msgpack, unpack_stream, json_repr, getitem_str.
    outcome_cases. }
  intros [[[sender nonce] recipients] stream] _.
  apply bind_not_Diverge.
  { unfold find_recipient. apply bind_not_Diverge; [by destruct recipients|].
    intros items _. generalize 0.
    induction items as [|item items IH]; intros k; [done|].
    cbn [find_recipient_loop].
    destruct (unpack_pair_cases item) as [[[pub boxed] ->]|[->| ->]]; simpl;
      [|done|done].
    destruct (eq_bytes pub _); [done | apply IH]. }
  intros [num boxed] _.
  apply bind_not_Diverge.
  { unfold unbox_keys, to_bytes, as_bytes, box_open, unpackb, unpack_stream, as_bytes.
    outcome_cases. }
  intros keys _.
  apply bind_not_Diverge; [|by intros [[ek mg] mk] _].
  unfold chunk_keys, json_repr, getitem_str, dict_get. outcome_cases.
Qed.

(** C9. On every input and with every key, [decrypt] ends, and in one
    of two ways. Either it returns, and then it returns the chunks of
    all the frames up to the first empty chunk, joined, each of them
    checked and opened; or it raises, and then the caller gets an
    exception that holds no data (a built-in exception, or one of the
    two fixed messages) and nothing of the output buffer. *)
Theorem decrypt_all_or_nothing (input recipient_private : bytes) :
  (∃ ek mg mk stream pieces rest,
      decrypt_keys input recipient_private = Ret (ek, mg, mk, stream)
      ∧ chunk_run ek mg mk stream 0 pieces rest
      ∧ decrypt input recipient_private = Ret (concat pieces))
  ∨ (∃ e, decrypt input recipient_private = Raise e ∧ plain_exn e).
Proof.
  unfold decrypt. rewrite decrypt_traced_keys.
  pose proof (decrypt_keys_total input recipient_private) as Htot.
  pose proof (decrypt_keys_plain input recipient_private) as Hplain.
  destruct (decrypt_keys input recipient_private)
    as [[[[ek mg] mk] stream]|e|]; [|right|done].
  - rewrite bind_Ret. cbv beta iota.
    pose proof (decrypt_loop_total (S (length stream)) ek mg mk stream 0 []
                  ltac:(lia)) as Hlt.
    pose proof (decrypt_loop_plain (S (length stream)) ek mg mk stream 0 []) as Hlp.
    pose proof (decrypt_loop_complete (S (length stream)) ek mg mk stream 0 [])
      as Hlc.
    destruct (decrypt_loop _ _ _ _ _ _ _) as [[m rest]|e|]; [|right|done].
    + left. destruct (Hlc m rest eq_refl) as (pieces & Hrun & ->).
      by exists ek, mg, mk, stream, pieces, rest.
    + exists e. split; [done | by apply Hlp].
  - exists e. split; [done | by apply Hplain].
Qed.
End Total.
End AnyInput.

(** ** What follows the last chunk *)

Section Trailing.
Context `{Random, Nacl, Hmac, Msgpack}.

(** A value that umsgpack unpacks takes a non-empty front part of the
    stream, and is the same whatever follows that part. *)
Hypothesis unpack_prefix : ∀ (s : bytes) (o : obj) (rest : bytes),
  unpack s = Some (o, rest) →
  ∃ c, c ≠ [] ∧ s = c ++ rest ∧ ∀ rest', unpack (c ++ rest') = Some (o, rest').

Lemma read_framed_msgpack_prefix (s : bytes) (o : obj) (rest : bytes) :
  read_framed_msgpack s = Ret (o, rest) →
  ∃ c, c ≠ [] ∧ s = c ++ rest
       ∧ ∀ rest', read_framed_msgpack (c ++ rest') = Ret (o, rest').
Proof.
  unfold read_framed_msgpack, unpack_stream, json_repr. intros Hr.
  destruct (unpack s) as [[lp s1]|] eqn:E1; [|done]. simpl in Hr.
  destruct (unpack s1) as [[o' s2]|] eqn:E2; [|done]. simpl in Hr.
  destruct (json_ok o') eqn:Hok; simplify_eq/=.
  apply unpack_prefix in E1 as (c1 & Hc1 & -> & Hu1).
  apply unpack_prefix in E2 as (c2 & Hc2 & -> & Hu2).
  exists (c1 ++ c2). split_and!.
  - by destruct c1.
  - by rewrite app_assoc.
  - intros rest'. rewrite <- app_assoc, Hu1. simpl. rewrite Hu2. simpl.
    by rewrite Hok.
Qed.

Lemma decrypt_loop_trailing (fuel : nat) (ek mg mk : obj) (stream : bytes)
    (chunknum : Z) (output m rest : bytes) :
  decrypt_loop fuel ek mg mk stream chunknum output = Ret (m, rest) →
  ∃ c, stream = c ++ rest
       ∧ ∀ rest' fuel', (length c < fuel')%nat →
           decrypt_loop fuel' ek mg mk (c ++ rest') chunknum output = Ret (m, rest').
Proof.
  revert stream chunknum output.
  induction fuel as [|fuel IH]; intros stream chunknum output Hrun; [done|].
  cbn [decrypt_loop] in Hrun.
  apply bind_Ret_inv in Hrun as (nonce & Hnonce & Hrun).
  apply bind_Ret_inv in Hrun as ([cm stream'] & Hread & Hrun).
  apply bind_Ret_inv in Hrun as (macs & Hmacs & Hrun).
  apply bind_Ret_inv in Hrun as (boxed & Hboxed & Hrun).
  apply bind_Ret_inv in Hrun as ([] & Hmac & Hrun).
  apply bind_Ret_inv in Hrun as (chunk & Hopen & Hrun).
  apply read_framed_msgpack_prefix in Hread as (c1 & Hc1 & -> & Hread).
  assert (∀ rest' fuel',
            decrypt_loop (S fuel') ek mg mk (c1 ++ rest') chunknum output
            = (if bool_decide (chunk = []) then Ret (output, rest')
               else decrypt_loop fuel' ek mg mk rest' (chunknum + 1)
                      (output ++ chunk))) as Hstep.
  { intros rest' fuel'. cbn [decrypt_loop].
    by rewrite Hnonce, bind_Ret, Hread, bind_Ret, Hmacs, bind_Ret, Hboxed, bind_Ret,
      Hmac, bind_Ret, Hopen. }
  case_bool_decide as Hchunk.
  - simplify_eq. exists c1. split; [done|].
    intros rest' [|fuel'] Hfuel; [lia|].
    by rewrite Hstep.
  - apply IH in Hrun as (c2 & -> & Hrest).
    exists (c1 ++ c2). split; [by rewrite app_assoc|].
    intros rest' [|fuel'] Hfuel; [lia|].
    rewrite <- app_assoc, Hstep.
    apply Hrest. rewrite length_app in Hfuel. destruct c1; [done|]. simpl in Hfuel. lia.
Qed.

Lemma decrypt_keys_trailing (input recipient_private : bytes)
    (ek mg mk : obj) (stream : bytes) :
  decrypt_keys input recipient_private = Ret (ek, mg, mk, stream) →
  ∃ c, input = c ++ stream
       ∧ ∀ stream', decrypt_keys (c ++ stream') recipient_private
                    = Ret (ek, mg, mk, stream').
Proof.
  unfold decrypt_keys. intros Hrun.
  apply bind_Ret_inv in Hrun as ([[[sender nonce] recipients] s] & Hheader & Hrun).
  apply bind_Ret_inv in Hrun as ([num boxed] & Hfind & Hrun).
  apply bind_Ret_inv in Hrun as (keys & Hkeys & Hrun).
  apply bind_Ret_inv in Hrun as ([[ek' mg'] mk'] & Hck & Hrun).
  simplify_eq.
  unfold parse_header in Hheader.
  apply bind_Ret_inv in Hheader as ([header s] & Hread & Hheader).
  apply bind_Ret_inv in Hheader as (version & Hversion & Hheader).
  destruct (eq_one version) eqn:Hone; [|done]. simpl in Hheader.
  apply bind_Ret_inv in Hheader as (sender' & Hsender & Hheader).
  apply bind_Ret_inv in Hheader as (nonce' & Hnonce & Hheader).
  apply bind_Ret_inv in Hheader as (recipients' & Hrecipients & Hheader).
  simplify_eq.
  apply read_framed_msgpack_prefix in Hread as (c & Hc & -> & Hread).
  exists c. split; [done|]. intros stream'.
  unfold parse_header.
  rewrite Hread, bind_Ret, Hversion, bind_Ret, Hone. simpl.
  rewrite Hsender, bind_Ret, Hnonce, bind_Ret, Hrecipients, !bind_Ret.
  by rewrite Hfind, bind_Ret, Hkeys, bind_Ret, Hck.
Qed.

(** C5. Whenever [decrypt] returns, it has read the input up to the end
    of the frame of the first chunk that opened to the empty string, and
    no further: the input is a part it read followed by a part it left,
    and with anything else, or nothing, in place of the part it left it
    returns the same plaintext and leaves that instead. *)
Theorem decrypt_stops_at_empty_chunk (input recipient_private m : bytes) :
  decrypt input recipient_private = Ret m →
  ∃ consumed rest ek mg mk header_part chunks_part pieces,
    input = consumed ++ rest
    ∧ consumed = header_part ++ chunks_part
    ∧ decrypt_keys input recipient_private = Ret (ek, mg, mk, chunks_part ++ rest)
    ∧ chunk_run ek mg mk (chunks_part ++ rest) 0 pieces rest
    ∧ m = concat pieces
    ∧ decrypt_traced input recipient_private = Ret (m, rest)
    ∧ ∀ rest',
        decrypt_traced (consumed ++ rest') recipient_private = Ret (m, rest')
        ∧ decrypt (consumed ++ rest') recipient_private = Ret m.
Proof.
  unfold decrypt. intros ([m' rest] & Hrun & [= ->])%fmap_Ret_inv.
  pose proof Hrun as Htraced.
  rewrite decrypt_traced_keys in Hrun.
  apply bind_Ret_inv in Hrun as ([[[ek mg] mk] stream] & Hkeys & Hloop).
  pose proof Hkeys as Hkeys'.
  apply decrypt_keys_trailing in Hkeys' as (c0 & -> & Hkeys').
  pose proof Hloop as Hloop'.
  apply decrypt_loop_trailing in Hloop' as (c1 & -> & Hloop').
  apply decrypt_loop_complete in Hloop as (pieces & Hpieces & Hm).
  exists (c0 ++ c1), rest, ek, mg, mk, c0, c1, pieces.
  split_and!; [by rewrite app_assoc | done | done | done | done | done |].
  intros rest'.
  assert (decrypt_traced ((c0 ++ c1) ++ rest') recipient_private = Ret (m, rest'))
    as Hrun'.
  { rewrite decrypt_traced_keys, <- app_assoc, Hkeys', bind_Ret. cbv beta iota.
    apply Hloop'. rewrite length_app. lia. }
  split; [done|]. by rewrite Hrun'.
Qed.
End Trailing.

(** ** A chunk altered after encoding *)

Lemma flip_bit_beyond (b : bytes) (pos n : nat) :
  (8 * n ≤ pos)%nat → take n (flip_bit b pos) = take n b.
Proof.
  intros Hpos. unfold flip_bit. rewrite take_alter.
  case_decide as Hlt; [|done].
  pose proof (Nat.div_mod_eq pos 8) as Hdm.
  pose proof (Nat.mod_upper_bound pos 8 ltac:(lia)) as Hm. lia.
Qed.

Lemma length_flip_bit (b : bytes) (pos : nat) : length (flip_bit b pos) = length b.
Proof. unfold flip_bit. apply length_alter. Qed.

Section Tamper.
Context `{Random, Nacl, Hmac, Msgpack}.

Hypothesis unpack_packb : ∀ (o : obj) (rest : bytes),
  unpack (packb o ++ rest) = Some (o, rest).

Hypothesis box_open_box : ∀ (m n sk_s sk_r : bytes),
  crypto_box_open
    (crypto_box m n sk_s (crypto_scalarmult_base sk_r))
    n sk_r (crypto_scalarmult_base sk_s) = Some m.

Hypothesis secretbox_open_secretbox : ∀ (m n k : bytes),
  crypto_secretbox_open (crypto_secretbox m n k) n k = Some m.

(** The MAC check on a record whose ciphertext was replaced: it compares
    the MAC of the first 16 bytes of the new ciphertext with the stored
    MAC, which is that of the first 16 bytes of the old one. *)
Lemma check_mac_with_boxed (mks : list bytes) (gn : nat) (mk boxed boxed' : bytes) :
  mks !! gn = Some mk →
  check_mac (OBytes mk) (OInt (Z.of_nat gn))
    (OList (chunk_macs true mks boxed)) (OBytes boxed')
  = if bool_decide (py_slice (hmac_sha512 mk (py_slice boxed 0 16)) 0 16
                    = py_slice (hmac_sha512 mk (py_slice boxed' 0 16)) 0 16)
    then Ret () else Raise MacMismatch.
Proof.
  intros Hmk. unfold check_mac, getitem, chunk_macs.
  erewrite seq_index_nat; [|by rewrite list_lookup_fmap, Hmk]. done.
Qed.

(** An alteration that leaves the first 16 bytes alone passes the check. *)
Lemma check_mac_same_authenticator (mks : list bytes) (gn : nat)
    (mk boxed boxed' : bytes) :
  mks !! gn = Some mk →
  py_slice boxed' 0 16 = py_slice boxed 0 16 →
  check_mac (OBytes mk) (OInt (Z.of_nat gn))
    (OList (chunk_macs true mks boxed)) (OBytes boxed')
  = Ret ().
Proof.
  intros Hmk Heq. rewrite check_mac_with_boxed by done.
  by rewrite Heq, bool_decide_true.
Qed.

Lemma check_mac_flip_beyond_authenticator (mks : list bytes) (gn : nat)
    (mk boxed : bytes) (pos : nat) :
  mks !! gn = Some mk →
  (128 ≤ pos)%nat →
  check_mac (OBytes mk) (OInt (Z.of_nat gn))
    (OList (chunk_macs true mks boxed)) (OBytes (flip_bit boxed pos))
  = Ret ().
Proof.
  intros Hmk Hpos. apply check_mac_same_authenticator; [done|].
  rewrite !py_slice_take by done. by apply flip_bit_beyond.
Qed.

(** What [decrypt] does with a chunk record whose ciphertext was
    replaced: the records before it are read as they were written, then
    the MAC check on the new ciphertext decides, and only if it passes is
    [crypto_secretbox_open] called. *)
Lemma decrypt_replaced_chunk (g : rng) (sender_private : bytes)
    (recipient_groups : list (list bytes)) (message : bytes) (chunk_size : Z)
    (recipient_private : bytes) (tr : trace) (j : nat) (cr : chunk_row)
    (boxed' : bytes) :
  1 ≤ chunk_size →
  (1 < length recipient_groups)%nat →
  crypto_scalarmult_base recipient_private ∈ concat recipient_groups →
  Z.of_nat (length (concat recipient_groups)) ≤ 2 ^ 64 →
  ceil_div (Z.of_nat (length message)) chunk_size < 2 ^ 192 →
  encrypt_traced g sender_private recipient_groups message chunk_size = Ret tr →
  tr_chunks tr !! j = Some cr →
  ∃ mk,
    mk ∈ tr_mac_keys tr
    ∧ (py_slice (hmac_sha512 mk (py_slice (boxed_of (chunk_map cr)) 0 16)) 0 16
       ≠ py_slice (hmac_sha512 mk (py_slice boxed' 0 16)) 0 16 →
       decrypt (frames (tr_header tr ::
                        <[j := with_boxed (chunk_map cr) boxed']>
                          (chunk_map <$> tr_chunks tr)))
               recipient_private
       = Raise MacMismatch)
    ∧ (py_slice (hmac_sha512 mk (py_slice (boxed_of (chunk_map cr)) 0 16)) 0 16
       = py_slice (hmac_sha512 mk (py_slice boxed' 0 16)) 0 16 →
       crypto_secretbox_open boxed' (chunk_nonce cr) (encryption_key_of g) = None →
       decrypt (frames (tr_header tr ::
                        <[j := with_boxed (chunk_map cr) boxed']>
                          (chunk_map <$> tr_chunks tr)))
               recipient_private
       = Raise CryptoError).
Proof.
  intros Hc Hgroups Hin Hrec Hchunks Hrun Hj.
  destruct (encrypt_traced_spec g sender_private recipient_groups message
              chunk_size Hc Hrec Hchunks) as (tr' & pieces & Hrun' & Henc).
  rewrite Hrun in Hrun'. injection Hrun' as <-.
  destruct (decrypt_traced_encrypted unpack_packb box_open_box
              _ _ _ _ _ _ _ recipient_private Henc Hin Hrec)
    as (gn & mk & Hmk & Hdec).
  destruct Henc as [Hcat Hpieces Hcount Hchunkrows Hheader Hout Hpubs Hmlen Hrows].
  assert (need_macs_of recipient_groups = true) as Hnm
    by (unfold need_macs_of; by apply bool_decide_eq_true).
  rewrite Hnm in *. specialize (Hmk eq_refl).
  set (ek := encryption_key_of g) in *. set (mks := tr_mac_keys tr) in *.
  exists mk. split; [by eapply list_elem_of_lookup_2|].
  (* the chunks before the one replaced are pieces of the message *)
  pose proof (lookup_lt_Some _ _ _ Hj) as Hjlt.
  rewrite Hchunkrows, length_imap, length_app in Hjlt. simpl in Hjlt.
  assert (tr_chunks tr
          = imap (mk_chunk_row true ek mks) (take j pieces)
            ++ cr :: drop (S j) (tr_chunks tr)) as Hsplit.
  { rewrite <- (take_drop_middle _ _ _ Hj) at 1. f_equal.
    rewrite Hchunkrows. rewrite <- (take_app_le pieces [[]] j) by lia.
    generalize (pieces ++ [[]]). intros l.
    apply list_eq. intros i. rewrite list_lookup_imap.
    destruct (decide (i < j)%nat).
    - by rewrite !lookup_take_lt, list_lookup_imap by done.
    - by rewrite !lookup_take_ge by lia. }
  assert (cr = mk_chunk_row true ek mks j (chunk_plain cr)) as Hcr.
  { rewrite Hchunkrows in Hj.
    by apply list_lookup_imap_Some in Hj as (chunk & _ & ->). }
  assert (macs_of (chunk_map cr)
          = chunk_macs true mks (boxed_of (chunk_map cr))
          ∧ chunk_nonce cr = be_bytes 24 (Z.of_nat j)) as [Hmacs Hnonce]
    by (by rewrite Hcr).
  assert (decrypt (frames (tr_header tr ::
                           <[j := with_boxed (chunk_map cr) boxed']>
                             (chunk_map <$> tr_chunks tr)))
                  recipient_private
          = fst <$>
            (_ ← (if bool_decide
                    (py_slice (hmac_sha512 mk
                                 (py_slice (boxed_of (chunk_map cr)) 0 16)) 0 16
                     = py_slice (hmac_sha512 mk (py_slice boxed' 0 16)) 0 16)
                  then Ret () else Raise MacMismatch);
             chunk ← secretbox_open (OBytes boxed') (chunk_nonce cr) (OBytes ek);
             if bool_decide (chunk = [])
             then Ret (concat (take j pieces),
                       frames (chunk_map <$> drop (S j) (tr_chunks tr)))
             else decrypt_loop (length (frames (<[j := with_boxed (chunk_map cr) boxed']>
                                                  (chunk_map <$> tr_chunks tr))) - j)
                    (OBytes ek) (OInt (Z.of_nat gn)) (OBytes mk)
                    (frames (chunk_map <$> drop (S j) (tr_chunks tr)))
                    (Z.of_nat j + 1) (concat (take j pieces) ++ chunk))) as Hdecrypt.
  { unfold decrypt. rewrite frames_cons, Hdec.
    rewrite Hsplit at 2. rewrite fmap_app, fmap_cons.
    rewrite insert_app_r_alt, length_fmap, length_imap, length_take_le by
      (rewrite ?length_fmap, ?length_imap, ?length_take_le; lia).
    rewrite Nat.sub_diag. cbn [insert list_insert].
    rewrite frames_app, frames_cons, <- ?app_assoc.
    match goal with
    | |- context [decrypt_loop (S (length ?b))] =>
        assert (S (length b) = (length (take j pieces) + S (length b - j))%nat)
          as ->
    end.
    { rewrite length_take_le by lia.
      match goal with |- context [frames ?l] =>
        pose proof (length_frames unpack_packb l) as Hlen end.
      rewrite length_insert, length_fmap in Hlen.
      assert (length (tr_chunks tr) = (length pieces + 1)%nat) as Hn
        by (by rewrite Hchunkrows, length_imap, length_app).
      lia. }
    pose proof (decrypt_loop_prefix unpack_packb secretbox_open_secretbox
                  true ek mks gn mk (take j pieces) (λ _, Hmk)) as Hprefix.
    simpl in Hprefix.
    rewrite (Hprefix ltac:(by apply Forall_take; eapply Forall_impl;
                             [exact Hpieces | by intros p [? _]]) 0%nat).
    2:{ rewrite length_take_le by lia. lia. }
    rewrite length_take_le by lia. cbn [decrypt_loop Nat.add app].
    (* the chunk replaced *)
    rewrite to_bytes_Ret by (change (256 ^ Z.of_nat 24) with (2 ^ 192); lia).
    rewrite bind_Ret.
    rewrite (read_framed_frame unpack_packb).
    2:{ rewrite Hcr. cbn [mk_chunk_row chunk_map]. unfold with_boxed.
        change (macs_of (mk_chunk_map true mks ?b)) with (chunk_macs true mks b).
        cbn [json_ok forallb fst snd]. by rewrite chunk_macs_json_ok. }
    rewrite bind_Ret.
    change (getitem_str (with_boxed ?cm ?b) "macs") with (@Ret obj (OList (macs_of cm))).
    rewrite bind_Ret.
    change (getitem_str (with_boxed ?cm ?b) "chunk") with (@Ret obj (OBytes b)).
    rewrite bind_Ret.
    rewrite Hmacs, Hnonce. by rewrite check_mac_with_boxed by done. }
  rewrite Hdecrypt. split.
  - intros Hne. by rewrite bool_decide_false.
  - intros Heq Hopen. rewrite bool_decide_true by done.
    unfold secretbox_open. simpl. by rewrite Hopen.
Qed.

(** A ciphertext altered beyond its first 16 bytes, which the primitive
    refuses to open: the MAC check passes and [decrypt] raises the
    primitive's error. *)
Lemma tampered_body_rejected_by_secretbox (g : rng) (sender_private : bytes)
    (recipient_groups : list (list bytes)) (message : bytes) (chunk_size : Z)
    (recipient_private : bytes) (tr : trace) (j : nat) (cr : chunk_row)
    (boxed' : bytes) :
  1 ≤ chunk_size →
  (1 < length recipient_groups)%nat →
  crypto_scalarmult_base recipient_private ∈ concat recipient_groups →
  Z.of_nat (length (concat recipient_groups)) ≤ 2 ^ 64 →
  ceil_div (Z.of_nat (length message)) chunk_size < 2 ^ 192 →
  encrypt_traced g sender_private recipient_groups message chunk_size = Ret tr →
  tr_chunks tr !! j = Some cr →
  py_slice boxed' 0 16 = py_slice (boxed_of (chunk_map cr)) 0 16 →
  crypto_secretbox_open boxed' (chunk_nonce cr) (encryption_key_of g) = None →
  decrypt (frames (tr_header tr ::
                   <[j := with_boxed (chunk_map cr) boxed']>
                     (chunk_map <$> tr_chunks tr)))
          recipient_private
  = Raise CryptoError.
Proof.
  intros Hc Hgroups Hin Hrec Hchunks Hrun Hj Hsame Hopen.
  destruct (decrypt_replaced_chunk g sender_private recipient_groups message
              chunk_size recipient_private tr j cr boxed'
              Hc Hgroups Hin Hrec Hchunks Hrun Hj) as (mk & _ & _ & Hpass).
  apply Hpass; [by rewrite Hsame | done].
Qed.

(** C2, as the code has it. In an encoding for more than one group, let
    the ciphertext of one chunk record be replaced. If, for every group's
    MAC key, the MAC of the first 16 bytes of the new ciphertext differs
    from the MAC of the first 16 bytes of the old one, then [decrypt], for
    any listed recipient, raises [RuntimeError("MAC mismatch!")]; the
    check comes before [crypto_secretbox_open], of which nothing is
    assumed here for the new ciphertext. The MAC covers the first 16
    bytes only: a bit flipped further on passes the check. *)
Theorem tampered_authenticator_rejected (g : rng) (sender_private : bytes)
    (recipient_groups : list (list bytes)) (message : bytes) (chunk_size : Z)
    (recipient_private : bytes) (tr : trace) (j : nat) (cr : chunk_row)
    (boxed' : bytes) :
  1 ≤ chunk_size →
  (1 < length recipient_groups)%nat →
  crypto_scalarmult_base recipient_private ∈ concat recipient_groups →
  Z.of_nat (length (concat recipient_groups)) ≤ 2 ^ 64 →
  ceil_div (Z.of_nat (length message)) chunk_size < 2 ^ 192 →
  encrypt_traced g sender_private recipient_groups message chunk_size = Ret tr →
  tr_chunks tr !! j = Some cr →
  (∀ mk, mk ∈ tr_mac_keys tr →
     py_slice (hmac_sha512 mk (py_slice boxed' 0 16)) 0 16
     ≠ py_slice (hmac_sha512 mk (py_slice (boxed_of (chunk_map cr)) 0 16)) 0 16) →
  decrypt (frames (tr_header tr ::
                   <[j := with_boxed (chunk_map cr) boxed']>
                     (chunk_map <$> tr_chunks tr)))
          recipient_private
  = Raise MacMismatch.
Proof.
  intros Hc Hgroups Hin Hrec Hchunks Hrun Hj Hmac.
  destruct (decrypt_replaced_chunk g sender_private recipient_groups message
              chunk_size recipient_private tr j cr boxed'
              Hc Hgroups Hin Hrec Hchunks Hrun Hj) as (mk & Hmk & Hfail & _).
  apply Hfail. intros Heq. by apply (Hmac mk Hmk).
Qed.
End Tamper.

(** * The reference implementation keeps the laws *)

Lemma obj_ind_nested (P : obj → Prop) :
  P ONone →
  (∀ b, P (OBool b)) →
  (∀ z, P (OInt z)) →
  (∀ b, P (OBytes b)) →
  (∀ s, P (OStr s)) →
  (∀ l, Forall P l → P (OList l)) →
  (∀ d, Forall (λ kv, P kv.1 ∧ P kv.2) d → P (ODict d)) →
  ∀ o, P o.
Proof.
  intros HNone HBool HInt HBytes HStr HList HDict.
  fix IH 1. intros [ |b|z|b|s|l|d].
  - apply HNone.
  - apply HBool.
  - apply HInt.
  - apply HBytes.
  - apply HStr.
  - apply HList. induction l as [|x l IHl]; constructor; [apply IH | apply IHl].
  - apply HDict. induction d as [|[k v] d IHd]; constructor;
      [split; apply IH | apply IHd].
Qed.

Module RefLaws.
Import Ref.

(** ** The codec *)

Lemma read_unary_unary (n : nat) (rest : bytes) :
  read_unary (unary n ++ rest) = Some (n, rest).
Proof.
  unfold unary. induction n as [|n IH]; [done|].
  cbn [replicate app read_unary]. by rewrite IH.
Qed.

Lemma read_be_be_bytes (w : nat) (n : Z) (rest : bytes) :
  0 ≤ n < 256 ^ Z.of_nat w →
  read_be w (be_bytes w n ++ rest) = Some (n, rest).
Proof.
  intros Hn. unfold read_be.
  rewrite decide_True by (rewrite length_app, length_be_bytes; lia).
  rewrite <- (length_be_bytes w n) at 1 3.
  by rewrite take_app_length, drop_app_length, be_value_be_bytes.
Qed.

Lemma read_head_write_head (h : head) (rest : bytes) :
  head_ok h → read_head (write_head h ++ rest) = Some (h, rest).
Proof.
  assert (∀ kind n s, 0 ≤ n →
            read_head (escape kind n ++ s)
            = '(m, s) ← Some (Z.to_nat n, s);
              let m := Z.of_nat m in
              match kind with
              | x00 => Some (HInt m, s)
              | x01 => Some (HInt (- m), s)
              | x02 => Some (HBin m, s)
              | x03 => Some (HStr m, s)
              | x04 => Some (HArr m, s)
              | x05 => Some (HMap m, s)
              | _ => None
              end) as Hesc.
  { intros kind n s Hn. unfold escape.
    change (read_head ((xc1 :: kind :: ?u) ++ s))
      with ('(m, s) ← read_unary (u ++ s);
            let m := Z.of_nat m in
            match kind with
            | x00 => Some (HInt m, s)
            | x01 => Some (HInt (- m), s)
            | x02 => Some (HBin m, s)
            | x03 => Some (HStr m, s)
            | x04 => Some (HArr m, s)
            | x05 => Some (HMap m, s)
            | _ => None
            end).
    by rewrite read_unary_unary. }
  assert (∀ z s, 0 ≤ z < 192 →
            read_head (byte_of_Z z :: s)
            = if z <? 128 then Some (HInt z, s)
              else if z <? 144 then Some (HMap (z - 128), s)
              else if z <? 160 then Some (HArr (z - 144), s)
              else Some (HStr (z - 160), s)) as Hfix.
  { intros z s Hz. unfold read_head.
    rewrite Z_of_byte_of_Z, Z.mod_small by lia. by ltb_cases. }
  intros Hok. destruct h as [ |b|z|n|n|n|n]; simpl in Hok; unfold write_head.
  - done.
  - by destruct b.
  - ltb_cases.
    + rewrite Hesc by lia. simpl. do 3 f_equal. lia.
    + cbn [app]. rewrite Hfix by lia. by ltb_cases.
    + change (read_head ((xcc :: ?s) ++ rest)) with (sized HInt 1 (s ++ rest)).
      unfold sized. by rewrite read_be_be_bytes.
    + change (read_head ((xcd :: ?s) ++ rest)) with (sized HInt 2 (s ++ rest)).
      unfold sized. by rewrite read_be_be_bytes.
    + change (read_head ((xce :: ?s) ++ rest)) with (sized HInt 4 (s ++ rest)).
      unfold sized. by rewrite read_be_be_bytes.
    + change (read_head ((xcf :: ?s) ++ rest)) with (sized HInt 8 (s ++ rest)).
      unfold sized. by rewrite read_be_be_bytes.
    + rewrite Hesc by lia. simpl. do 3 f_equal. lia.
  - ltb_cases.
    + change (read_head ((xc4 :: ?s) ++ rest)) with (sized HBin 1 (s ++ rest)).
      unfold sized. by rewrite read_be_be_bytes.
    + change (read_head ((xc5 :: ?s) ++ rest)) with (sized HBin 2 (s ++ rest)).
      unfold sized. by rewrite read_be_be_bytes.
    + change (read_head ((xc6 :: ?s) ++ rest)) with (sized HBin 4 (s ++ rest)).
      unfold sized. by rewrite read_be_be_bytes.
    + rewrite Hesc by lia. simpl. do 3 f_equal. lia.
  - ltb_cases.
    + cbn [app]. rewrite Hfix by lia. ltb_cases. do 3 f_equal. lia.
    + change (read_head ((xd9 :: ?s) ++ rest)) with (sized HStr 1 (s ++ rest)).
      unfold sized. by rewrite read_be_be_bytes.
    + change (read_head ((xda :: ?s) ++ rest)) with (sized HStr 2 (s ++ rest)).
      unfold sized. by rewrite read_be_be_bytes.
    + change (read_head ((xdb :: ?s) ++ rest)) with (sized HStr 4 (s ++ rest)).
      unfold sized. by rewrite read_be_be_bytes.
    + rewrite Hesc by lia. simpl. do 3 f_equal. lia.
  - ltb_cases.
    + cbn [app]. rewrite Hfix by lia. ltb_cases. do 3 f_equal. lia.
    + change (read_head ((xdc :: ?s) ++ rest)) with (sized HArr 2 (s ++ rest)).
      unfold sized. by rewrite read_be_be_bytes.
    + change (read_head ((xdd :: ?s) ++ rest)) with (sized HArr 4 (s ++ rest)).
      unfold sized. by rewrite read_be_be_bytes.
    + rewrite Hesc by lia. simpl. do 3 f_equal. lia.
  - ltb_cases.
    + cbn [app]. rewrite Hfix by lia. ltb_cases. do 3 f_equal. lia.
    + change (read_head ((xde :: ?s) ++ rest)) with (sized HMap 2 (s ++ rest)).
      unfold sized. by rewrite read_be_be_bytes.
    + change (read_head ((xdf :: ?s) ++ rest)) with (sized HMap 4 (s ++ rest)).
      unfold sized. by rewrite read_be_be_bytes.
    + rewrite Hesc by lia. simpl. do 3 f_equal. lia.
Qed.

Lemma write_head_nonempty (h : head) : (1 ≤ length (write_head h))%nat.
Proof.
  destruct h; unfold write_head, escape; repeat case_match; simpl; lia.
Qed.

Lemma packb_list (l : list obj) :
  ref_packb (OList l)
  = write_head (HArr (Z.of_nat (length l))) ++ concat (ref_packb <$> l).
Proof.
  cbn [ref_packb]. f_equal. induction l as [|x l IH]; [done|].
  rewrite fmap_cons, concat_cons, <- IH. done.
Qed.

Lemma packb_dict (d : list (obj * obj)) :
  ref_packb (ODict d)
  = write_head (HMap (Z.of_nat (length d)))
    ++ concat ((λ kv, ref_packb kv.1 ++ ref_packb kv.2) <$> d).
Proof.
  cbn [ref_packb]. f_equal. induction d as [|kv d IH]; [done|].
  rewrite fmap_cons, concat_cons, <- IH. done.
Qed.

Lemma ref_packb_nonempty (o : obj) : (1 ≤ length (ref_packb o))%nat.
Proof.
  destruct o; rewrite ?packb_list, ?packb_dict; cbn [ref_packb];
    rewrite ?length_app;
    match goal with |- context [write_head ?h] =>
      pose proof (write_head_nonempty h) end; lia.
Qed.

Lemma length_items (l : list obj) :
  (length l ≤ length (concat (ref_packb <$> l)))%nat.
Proof.
  induction l as [|x l IH]; [done|].
  rewrite fmap_cons, concat_cons, length_app.
  pose proof (ref_packb_nonempty x). simpl. lia.
Qed.

Lemma length_pairs (d : list (obj * obj)) :
  (length d ≤ length (concat ((λ kv, ref_packb kv.1 ++ ref_packb kv.2) <$> d)))%nat.
Proof.
  induction d as [|kv d IH]; [done|].
  rewrite fmap_cons, concat_cons, !length_app.
  pose proof (ref_packb_nonempty kv.1). simpl. lia.
Qed.

Lemma take_exact_app (b rest : bytes) :
  take_exact (Z.of_nat (length b)) (b ++ rest) = Some (b, rest).
Proof.
  unfold take_exact. rewrite decide_True by (rewrite length_app; lia).
  by rewrite Nat2Z.id, take_app_length, drop_app_length.
Qed.

Lemma unpack_items_packb (u : bytes → option (obj * bytes)) (l : list obj)
    (rest : bytes) :
  Forall (λ x, ∀ r, u (ref_packb x ++ r) = Some (x, r)) l →
  unpack_items u (length l) (concat (ref_packb <$> l) ++ rest) = Some (l, rest).
Proof.
  induction 1 as [|x l Hx _ IH]; [done|].
  rewrite fmap_cons, concat_cons, <- app_assoc. cbn [length unpack_items].
  rewrite Hx. simpl. by rewrite IH.
Qed.

Lemma unpack_pairs_packb (u : bytes → option (obj * bytes))
    (d : list (obj * obj)) (rest : bytes) :
  Forall (λ kv, (∀ r, u (ref_packb kv.1 ++ r) = Some (kv.1, r))
                ∧ (∀ r, u (ref_packb kv.2 ++ r) = Some (kv.2, r))) d →
  unpack_pairs u (length d)
    (concat ((λ kv, ref_packb kv.1 ++ ref_packb kv.2) <$> d) ++ rest)
  = Some (d, rest).
Proof.
  induction 1 as [|[k v] d [Hk Hv] _ IH]; [done|].
  rewrite fmap_cons, concat_cons, <- !app_assoc. cbn [length unpack_pairs].
  simpl in Hk, Hv. rewrite Hk. simpl. rewrite Hv. simpl. by rewrite IH.
Qed.

Lemma length_packb_elem (l : list obj) (x : obj) :
  x ∈ l → (length (ref_packb x) ≤ length (concat (ref_packb <$> l)))%nat.
Proof.
  induction 1 as [x l|x y l _ IH];
    rewrite fmap_cons, concat_cons, length_app; lia.
Qed.

Lemma length_packb_pair (d : list (obj * obj)) (kv : obj * obj) :
  kv ∈ d →
  (length (ref_packb kv.1) + length (ref_packb kv.2)
   ≤ length (concat ((λ kv, ref_packb kv.1 ++ ref_packb kv.2) <$> d)))%nat.
Proof.
  induction 1 as [x l|x y l _ IH];
    rewrite fmap_cons, concat_cons, !length_app; lia.
Qed.

Lemma unpack_fuel_packb (o : obj) :
  ∀ (fuel : nat) (rest : bytes),
    (length (ref_packb o) ≤ fuel)%nat →
    unpack_fuel fuel (ref_packb o ++ rest) = Some (o, rest).
Proof.
  induction o as [ |b|z|b|s|l IH|d IH] using obj_ind_nested;
    intros fuel rest Hfuel.
  all: destruct fuel as [|fuel];
    [match type of Hfuel with (length (ref_packb ?o) ≤ _)%nat =>
       pose proof (ref_packb_nonempty o) end; lia|].
  - cbn [ref_packb unpack_fuel]. by rewrite read_head_write_head.
  - cbn [ref_packb unpack_fuel]. by rewrite read_head_write_head.
  - cbn [ref_packb unpack_fuel]. by rewrite read_head_write_head.
  - cbn [ref_packb unpack_fuel]. rewrite <- app_assoc.
    rewrite read_head_write_head by (simpl; lia). simpl.
    by rewrite take_exact_app.
  - cbn [ref_packb unpack_fuel]. rewrite <- app_assoc.
    rewrite read_head_write_head by (simpl; lia). simpl.
    rewrite take_exact_app. simpl. by rewrite string_of_list_byte_of_string.
  - rewrite packb_list in *. cbn [unpack_fuel]. rewrite <- app_assoc.
    rewrite read_head_write_head by (simpl; lia). simpl.
    rewrite length_app in Hfuel.
    pose proof (write_head_nonempty (HArr (Z.of_nat (length l)))) as Hh.
    pose proof (length_items l) as Hl.
    rewrite decide_True by (rewrite length_app; lia).
    rewrite Nat2Z.id, unpack_items_packb; [done|].
    rewrite Forall_forall in IH. apply Forall_forall. intros x Hx r.
    apply IH; [done|]. pose proof (length_packb_elem l x Hx). lia.
  - rewrite packb_dict in *. cbn [unpack_fuel]. rewrite <- app_assoc.
    rewrite read_head_write_head by (simpl; lia). simpl.
    rewrite length_app in Hfuel.
    pose proof (write_head_nonempty (HMap (Z.of_nat (length d)))) as Hh.
    pose proof (length_pairs d) as Hl.
    rewrite decide_True by (rewrite length_app; lia).
    rewrite Nat2Z.id, unpack_pairs_packb; [done|].
    rewrite Forall_forall in IH. apply Forall_forall. intros kv Hkv.
    pose proof (length_packb_pair d kv Hkv).
    destruct (IH kv Hkv) as [IHk IHv].
    split; intros r; [apply IHk | apply IHv]; lia.
Qed.

Lemma ref_unpack_packb (o : obj) (rest : bytes) :
  ref_unpack (ref_packb o ++ rest) = Some (o, rest).
Proof.
  unfold ref_unpack. apply unpack_fuel_packb. rewrite length_app. lia.
Qed.

Lemma read_unary_prefix (s : bytes) (n : nat) (rest : bytes) :
  read_unary s = Some (n, rest) → reads_prefix read_unary s n rest.
Proof.
  revert n. induction s as [|b s IH]; intros n Hr; [done|].
  cbn [read_unary] in Hr.
  destruct b; try done.
  - injection Hr as <- <-. by exists [x00].
  - destruct (read_unary s) as [[m s']|] eqn:E; [|done].
    injection Hr as <- <-.
    destruct (IH m eq_refl) as (c & Hc & -> & Hrd).
    exists (x01 :: c). split_and!; [done | done |].
    intros rest'. cbn [app read_unary]. by rewrite Hrd.
Qed.

Lemma read_be_prefix (w : nat) (s : bytes) (n : Z) (rest : bytes) :
  read_be w s = Some (n, rest) →
  ∃ c, length c = w ∧ s = c ++ rest ∧ ∀ rest', read_be w (c ++ rest') = Some (n, rest').
Proof.
  unfold read_be. case_decide as Hlen; [|done]. intros [= <- <-].
  exists (take w s). split_and!.
  - by rewrite length_take_le.
  - by rewrite take_drop.
  - intros rest'. rewrite decide_True by (rewrite length_app, length_take_le; lia).
    rewrite <- (length_take_le s w) at 1 3 by done.
    by rewrite take_app_length, drop_app_length.
Qed.

Lemma sized_prefix (mk : Z → head) (w : nat) (tag : byte) (s : bytes)
    (h : head) (rest : bytes) :
  (∀ r, read_head (tag :: r) = sized mk w r) →
  sized mk w s = Some (h, rest) →
  reads_prefix read_head (tag :: s) h rest.
Proof.
  intros Htag. unfold sized.
  destruct (read_be w s) as [[n s']|] eqn:E; [|done]. intros [= <- <-].
  apply read_be_prefix in E as (c & Hc & -> & Hrd).
  exists (tag :: c). split_and!; [done | done |].
  intros rest'. cbn [app]. rewrite Htag. unfold sized. by rewrite Hrd.
Qed.

Lemma read_head_prefix (s : bytes) (h : head) (rest : bytes) :
  read_head s = Some (h, rest) → reads_prefix read_head s h rest.
Proof.
  destruct s as [|b s]; [done|]. intros Hr.
  assert (Z_of_byte b < 192 → reads_prefix read_head (b :: s) h rest) as Hlow.
  { intros Hb. exists [b]. unfold read_head in Hr |- *.
    repeat match type of Hr with
           | context [?a <? ?c] => destruct (Z.ltb_spec a c); try lia
           end; injection Hr as <- <-;
      (split_and!; [done | done | intros rest'; simpl; by ltb_cases]). }
  destruct (decide (Z_of_byte b < 192)) as [|Hhigh]; [by apply Hlow|].
  destruct b; try (exfalso; apply Hhigh; vm_compute; reflexivity);
    try (by vm_compute in Hr);
    try (injection Hr as <- <-; by eexists [_]);
    try (eapply sized_prefix; [|exact Hr]; done).
  (* the escape *)
  change (read_head (xc1 :: s)) with (read_escape s) in Hr.
  unfold read_escape in Hr. destruct s as [|kind s]; [done|].
  destruct (read_unary s) as [[n s']|] eqn:E; [|done].
  apply read_unary_prefix in E as (c & Hc & -> & Hrd).
  exists (xc1 :: kind :: c). split_and!; [done | |].
  - simpl in Hr. by destruct kind; simplify_eq.
  - intros rest'. change (read_head ((xc1 :: kind :: c) ++ rest'))
      with (read_escape (kind :: c ++ rest')).
    unfold read_escape. rewrite Hrd. simpl in Hr |- *.
    by destruct kind; simplify_eq.
Qed.

Lemma take_exact_prefix (n : Z) (s b rest : bytes) :
  take_exact n s = Some (b, rest) →
  s = b ++ rest ∧ ∀ rest', take_exact n (b ++ rest') = Some (b, rest').
Proof.
  unfold take_exact. case_decide as Hn; [|done]. intros [= <- <-].
  split; [by rewrite take_drop|]. intros rest'.
  assert (length (take (Z.to_nat n) s) = Z.to_nat n) as Hlen
    by (rewrite length_take_le; lia).
  rewrite decide_True by (rewrite length_app; lia).
  rewrite <- Hlen at 1 3. by rewrite take_app_length, drop_app_length.
Qed.

Lemma unpack_items_prefix (f n : nat) :
  fuel_prefix f →
  ∀ s l rest, unpack_items (unpack_fuel f) n s = Some (l, rest) →
    ∃ c, (n ≤ length c)%nat ∧ s = c ++ rest
         ∧ ∀ rest' f', (length c ≤ f')%nat →
             unpack_items (unpack_fuel f') n (c ++ rest') = Some (l, rest').
Proof.
  intros Hf. induction n as [|n IH]; intros s l rest Hr.
  - injection Hr as <- <-. by exists [].
  - cbn [unpack_items] in Hr.
    destruct (unpack_fuel f s) as [[x s1]|] eqn:E1; [|done]. simpl in Hr.
    destruct (unpack_items (unpack_fuel f) n s1) as [[l' s2]|] eqn:E2; [|done].
    injection Hr as <- <-.
    apply Hf in E1 as (c1 & Hc1 & -> & Hrd1).
    apply IH in E2 as (c2 & Hc2 & -> & Hrd2).
    exists (c1 ++ c2). rewrite length_app. split_and!.
    + destruct c1; [done|]. simpl. lia.
    + by rewrite app_assoc.
    + intros rest' f' Hf'. cbn [unpack_items].
      rewrite <- app_assoc, Hrd1 by lia. simpl. by rewrite Hrd2 by lia.
Qed.

Lemma unpack_pairs_prefix (f n : nat) :
  fuel_prefix f →
  ∀ s d rest, unpack_pairs (unpack_fuel f) n s = Some (d, rest) →
    ∃ c, (n ≤ length c)%nat ∧ s = c ++ rest
         ∧ ∀ rest' f', (length c ≤ f')%nat →
             unpack_pairs (unpack_fuel f') n (c ++ rest') = Some (d, rest').
Proof.
  intros Hf. induction n as [|n IH]; intros s d rest Hr.
  - injection Hr as <- <-. by exists [].
  - cbn [unpack_pairs] in Hr.
    destruct (unpack_fuel f s) as [[k s1]|] eqn:E1; [|done]. simpl in Hr.
    destruct (unpack_fuel f s1) as [[v s2]|] eqn:E2; [|done]. simpl in Hr.
    destruct (unpack_pairs (unpack_fuel f) n s2) as [[d' s3]|] eqn:E3; [|done].
    injection Hr as <- <-.
    apply Hf in E1 as (c1 & Hc1 & -> & Hrd1).
    apply Hf in E2 as (c2 & Hc2 & -> & Hrd2).
    apply IH in E3 as (c3 & Hc3 & -> & Hrd3).
    exists (c1 ++ c2 ++ c3). rewrite !length_app. split_and!.
    + destruct c1; [done|]. simpl. lia.
    + by rewrite <- !app_assoc.
    + intros rest' f' Hf'. cbn [unpack_pairs].
      rewrite <- !app_assoc, Hrd1 by lia. simpl.
      rewrite Hrd2 by lia. simpl. by rewrite Hrd3 by lia.
Qed.

Lemma unpack_fuel_prefix (f : nat) : fuel_prefix f.
Proof.
  induction f as [|f IH]; intros s o rest Hr; [done|].
  cbn [unpack_fuel] in Hr.
  destruct (read_head s) as [[h s1]|] eqn:Eh; [|done]. simpl in Hr.
  apply read_head_prefix in Eh as (ch & Hch & -> & Hrdh).
  assert (1 ≤ length ch)%nat as Hlen by (destruct ch; [done | simpl; lia]).
  destruct h as [ |b|z|n|n|n|n].
  - injection Hr as <- <-. exists ch. split_and!; [done | done |].
    intros rest' [|f'] Hf'; [lia|]. cbn [unpack_fuel]. by rewrite Hrdh.
  - injection Hr as <- <-. exists ch. split_and!; [done | done |].
    intros rest' [|f'] Hf'; [lia|]. cbn [unpack_fuel]. by rewrite Hrdh.
  - injection Hr as <- <-. exists ch. split_and!; [done | done |].
    intros rest' [|f'] Hf'; [lia|]. cbn [unpack_fuel]. by rewrite Hrdh.
  - destruct (take_exact n s1) as [[b s2]|] eqn:E; [|done].
    injection Hr as <- <-. apply take_exact_prefix in E as (-> & Hrd).
    exists (ch ++ b). split_and!; [by destruct ch | by rewrite app_assoc |].
    intros rest' [|f'] Hf'; [rewrite length_app in Hf'; lia|].
    cbn [unpack_fuel]. rewrite <- app_assoc, Hrdh. simpl. by rewrite Hrd.
  - destruct (take_exact n s1) as [[b s2]|] eqn:E; [|done].
    injection Hr as <- <-. apply take_exact_prefix in E as (-> & Hrd).
    exists (ch ++ b). split_and!; [by destruct ch | by rewrite app_assoc |].
    intros rest' [|f'] Hf'; [rewrite length_app in Hf'; lia|].
    cbn [unpack_fuel]. rewrite <- app_assoc, Hrdh. simpl. by rewrite Hrd.
  - case_decide as Hn; [|done].
    destruct (unpack_items _ _ s1) as [[l s2]|] eqn:E; [|done].
    injection Hr as <- <-.
    apply (unpack_items_prefix f _ IH) in E as (c & Hc & -> & Hrd).
    exists (ch ++ c). split_and!; [by destruct ch | by rewrite app_assoc |].
    intros rest' [|f'] Hf'; rewrite length_app in Hf'; [lia|].
    cbn [unpack_fuel]. rewrite <- app_assoc, Hrdh. simpl.
    rewrite decide_True by (rewrite length_app; lia).
    by rewrite Hrd by lia.
  - case_decide as Hn; [|done].
    destruct (unpack_pairs _ _ s1) as [[d s2]|] eqn:E; [|done].
    injection Hr as <- <-.
    apply (unpack_pairs_prefix f _ IH) in E as (c & Hc & -> & Hrd).
    exists (ch ++ c). split_and!; [by destruct ch | by rewrite app_assoc |].
    intros rest' [|f'] Hf'; rewrite length_app in Hf'; [lia|].
    cbn [unpack_fuel]. rewrite <- app_assoc, Hrdh. simpl.
    rewrite decide_True by (rewrite length_app; lia).
    by rewrite Hrd by lia.
Qed.

Lemma ref_unpack_prefix (s : bytes) (o : obj) (rest : bytes) :
  ref_unpack s = Some (o, rest) →
  ∃ c, c ≠ [] ∧ s = c ++ rest ∧ ∀ rest', ref_unpack (c ++ rest') = Some (o, rest').
Proof.
  unfold ref_unpack. intros (c & Hc & -> & Hrd)%unpack_fuel_prefix.
  exists c. split_and!; [done | done |].
  intros rest'. apply Hrd. rewrite length_app. lia.
Qed.

Lemma ref_unpack_shorter (s : bytes) (o : obj) (rest : bytes) :
  ref_unpack s = Some (o, rest) → (length rest < length s)%nat.
Proof.
  intros (c & Hc & -> & _)%ref_unpack_prefix. rewrite length_app.
  destruct c; [done | simpl; lia].
Qed.

(** ** The ciphers *)

Lemma byte_of_Z_mod (z : Z) : byte_of_Z (z mod 256) = byte_of_Z z.
Proof. unfold byte_of_Z. by rewrite Z.mod_mod. Qed.

Lemma shift_shift (by_ : Z) (b : bytes) : shift (- by_) (shift by_ b) = b.
Proof.
  unfold shift. rewrite <- list_fmap_compose. rewrite <- (list_fmap_id b) at 2.
  apply list_fmap_ext. intros _ x _. simpl.
  rewrite Z_of_byte_of_Z, <- byte_of_Z_mod.
  rewrite Zplus_mod_idemp_l.
  replace (Z_of_byte x + by_ + - by_) with (Z_of_byte x) by lia.
  by rewrite byte_of_Z_mod, byte_of_Z_of_byte.
Qed.

Lemma length_tag (body nonce key : bytes) : length (tag body nonce key) = 16%nat.
Proof. apply length_be_bytes. Qed.

Lemma ref_secretbox_open_secretbox (m n k : bytes) :
  ref_secretbox_open (ref_secretbox m n k) n k = Some m.
Proof.
  unfold ref_secretbox_open, ref_secretbox.
  set (body := shift (hash (k ++ n)) m).
  rewrite decide_False by (rewrite length_app, length_tag; lia).
  rewrite (take_app_length' _ _ 16), (drop_app_length' _ _ 16)
    by (by rewrite length_tag).
  rewrite decide_True by done.
  subst body. by rewrite shift_shift.
Qed.

Lemma shared_comm (sk_s sk_r : bytes) :
  shared sk_s (ref_scalarmult_base sk_r) = shared sk_r (ref_scalarmult_base sk_s).
Proof.
  unfold shared, ref_scalarmult_base.
  assert (∀ x, 0 ≤ x mod p25519 < 256 ^ Z.of_nat 32) as Hrange.
  { intros x. pose proof (Z.mod_pos_bound x p25519 ltac:(done)) as Hb.
    split; [lia|]. eapply Z.lt_trans; [apply Hb | done]. }
  rewrite !be_value_be_bytes by apply Hrange.
  rewrite !Z.mul_mod_idemp_r by done. f_equal. f_equal. lia.
Qed.

Lemma ref_box_open_box (m n sk_s sk_r : bytes) :
  ref_box_open (ref_box m n sk_s (ref_scalarmult_base sk_r)) n sk_r (ref_scalarmult_base sk_s)
  = Some m.
Proof.
  unfold ref_box_open, ref_box. rewrite shared_comm. apply ref_secretbox_open_secretbox.
Qed.
End RefLaws.
(** * json_repr and its helper *)

Lemma list_comprehension_Ret (f : obj → outcome obj) (l r : list obj) :
  list_comprehension f l = Ret r → Forall2 (λ x y, f x = Ret y) l r.
Proof.
  revert r. induction l as [|x l IH]; intros r; simpl.
  - intros [= <-]. constructor.
  - intros (y & Hy & Hrun)%bind_Ret_inv.
    apply bind_Ret_inv in Hrun as (ys & Hys & [= <-]).
    constructor; [done | by apply IH].
Qed.

Lemma list_comprehension_id (f : obj → outcome obj) (l : list obj) :
  Forall (λ x, f x = Ret x) l → list_comprehension f l = Ret l.
Proof.
  induction 1 as [|x l Hx _ IH]; [done|].
  simpl. by rewrite Hx, bind_Ret, IH.
Qed.

Lemma key_eqb_sym (x y : obj) : key_eqb x y = key_eqb y x.
Proof.
  destruct x, y; simpl; try done; apply bool_decide_ext; naive_solver.
Qed.

Lemma fst_dict_set (d : list (obj * obj)) (k v : obj) :
  fst <$> dict_set d k v
  = if forallb (λ kv, negb (key_eqb kv.1 k)) d then (fst <$> d) ++ [k]
    else fst <$> d.
Proof.
  induction d as [|[k' v'] d IH]; [done|].
  cbn [dict_set forallb fst fmap list_fmap]. rewrite (key_eqb_sym k k').
  destruct (key_eqb k' k); [done|]. cbn [negb andb fmap list_fmap fst].
  rewrite IH. by destruct (forallb _ d).
Qed.

Lemma dict_set_fresh (d : list (obj * obj)) (k v : obj) :
  forallb (λ kv, negb (key_eqb kv.1 k)) d = true →
  dict_set d k v = d ++ [(k, v)].
Proof.
  induction d as [|[k' v'] d IH]; [done|].
  cbn [dict_set forallb fst]. rewrite (key_eqb_sym k k').
  destruct (key_eqb k' k); [done|]. cbn [negb andb]. intros Hd.
  by rewrite IH.
Qed.

Lemma distinct_keys_fst (d d' : list (obj * obj)) :
  fst <$> d = fst <$> d' → distinct_keys d = distinct_keys d'.
Proof.
  revert d'. induction d as [|[k v] d IH]; intros [|[k' v'] d']; try done.
  cbn [fmap list_fmap fst distinct_keys]. intros [= -> Hd].
  rewrite (IH d' Hd). f_equal.
  clear IH. revert d' Hd. induction d as [|[k v0] d IH]; intros [|[k0 v1] d']; try done.
  cbn [fmap list_fmap fst forallb]. intros [= -> Hd]. by rewrite (IH d' Hd).
Qed.

Lemma distinct_keys_snoc (d : list (obj * obj)) (k v : obj) :
  distinct_keys (d ++ [(k, v)])
  = distinct_keys d && forallb (λ kv, negb (key_eqb kv.1 k)) d.
Proof.
  induction d as [|[k' v'] d IH]; [done|].
  cbn [app distinct_keys forallb fst]. rewrite IH, forallb_app.
  cbn [forallb fst]. rewrite (key_eqb_sym k k').
  destruct (forallb _ d), (key_eqb k' k), (distinct_keys d), (forallb _ d); done.
Qed.

Lemma distinct_keys_dict_set (d : list (obj * obj)) (k v : obj) :
  distinct_keys d = true → distinct_keys (dict_set d k v) = true.
Proof.
  intros Hd.
  destruct (forallb (λ kv, negb (key_eqb kv.1 k)) d) eqn:Hfresh.
  - rewrite dict_set_fresh, distinct_keys_snoc by done. by rewrite Hd, Hfresh.
  - rewrite (distinct_keys_fst _ d); [done|]. by rewrite fst_dict_set, Hfresh.
Qed.

Lemma Forall_dict_set (P : obj * obj → Prop) (Q : obj → Prop)
    (d : list (obj * obj)) (k v : obj) :
  (∀ k v, P (k, v) ↔ hashable k = true ∧ Q k ∧ Q v) →
  Forall P d → P (k, v) → Forall P (dict_set d k v).
Proof.
  intros HP Hd Hkv. induction Hd as [|[k' v'] d Hx Hd IH]; simpl.
  - by constructor.
  - destruct (key_eqb k k'); constructor; try done.
    apply HP. apply HP in Hx, Hkv. tauto.
Qed.

Lemma json_native_dict (d : list (obj * obj)) :
  json_native (ODict d) = true
  ↔ Forall native_item d ∧ distinct_keys d = true.
Proof.
  cbn [json_native]. rewrite andb_true_iff, forallb_forall, Forall_forall.
  unfold native_item. setoid_rewrite <- list_elem_of_In.
  setoid_rewrite andb_true_iff. setoid_rewrite andb_true_iff.
  split; intros [Hd ?]; (split; [|done]); intros kv Hkv;
    specialize (Hd kv Hkv); tauto.
Qed.

Lemma json_native_list (l : list obj) :
  json_native (OList l) = true ↔ Forall (λ x, json_native x = true) l.
Proof.
  cbn [json_native]. rewrite forallb_forall, Forall_forall.
  by setoid_rewrite <- list_elem_of_In.
Qed.

Lemma dict_comprehension_native (f : obj → outcome obj) (d acc r : list (obj * obj)) :
  Forall (λ kv, (∀ y, f kv.1 = Ret y → json_native y = true)
                ∧ (∀ y, f kv.2 = Ret y → json_native y = true)) d →
  Forall native_item acc → distinct_keys acc = true →
  dict_comprehension f d acc = Ret r →
  Forall native_item r ∧ distinct_keys r = true.
Proof.
  intros Hd. revert acc. induction Hd as [|[k v] d [Hk Hv] _ IH]; intros acc Hacc Hdist.
  - simpl. by intros [= <-].
  - cbn [dict_comprehension fst snd].
    intros (k' & Hk' & Hrun)%bind_Ret_inv.
    apply bind_Ret_inv in Hrun as (v' & Hv' & Hrun).
    destruct (hashable k') eqn:Hh; [|done].
    apply IH in Hrun; [done| |by apply distinct_keys_dict_set].
    apply (Forall_dict_set _ (λ o, json_native o = true)); [|done|].
    + intros ??. unfold native_item. simpl. tauto.
    + split_and!; [done | by apply Hk | by apply Hv].
Qed.

(** What [_recurse_repr] returns is ready for [json.dumps]. *)
Lemma recurse_repr_native (o r : obj) :
  _recurse_repr o = Ret r → json_native r = true.
Proof.
  revert r. induction o as [ | | | | |l IH|d IH] using obj_ind_nested; intros r;
    cbn [_recurse_repr]; try by intros [= <-].
  - intros (l' & Hl & <-)%fmap_Ret_inv. apply json_native_list.
    apply list_comprehension_Ret in Hl.
    induction Hl as [|x y l l' Hxy _ IHl]; [done|].
    apply Forall_cons in IH as [Hx IH]. constructor; [by apply Hx | by apply IHl].
  - intros (d' & Hd & <-)%fmap_Ret_inv. apply json_native_dict.
    eapply dict_comprehension_native; [|constructor|done|exact Hd].
    eapply Forall_impl; [exact IH|]. intros kv [H1 H2]. split; eauto.
Qed.

Lemma json_native_no_bytes (o : obj) : json_native o = true → no_bytes o = true.
Proof.
  induction o as [ | | | | |l IH|d IH] using obj_ind_nested; try done.
  - rewrite json_native_list. cbn [no_bytes]. rewrite forallb_forall.
    intros Hl x Hx%list_elem_of_In. rewrite Forall_forall in IH, Hl. eauto.
  - rewrite json_native_dict. cbn [no_bytes]. rewrite forallb_forall.
    intros [Hd _] kv Hkv%list_elem_of_In. rewrite Forall_forall in IH, Hd.
    destruct (Hd kv Hkv) as (_ & H1 & H2). destruct (IH kv Hkv) as [I1 I2].
    by rewrite I1, I2.
Qed.

Lemma dict_comprehension_id (f : obj → outcome obj) (d acc : list (obj * obj)) :
  Forall (λ kv, f kv.1 = Ret kv.1 ∧ f kv.2 = Ret kv.2 ∧ hashable kv.1 = true) d →
  distinct_keys (acc ++ d) = true →
  dict_comprehension f d acc = Ret (acc ++ d).
Proof.
  intros Hd. revert acc. induction Hd as [|[k v] d (Hk & Hv & Hh) _ IH]; intros acc Hdist.
  - simpl. by rewrite app_nil_r.
  - cbn [dict_comprehension fst snd] in *. rewrite Hk, bind_Ret, Hv, bind_Ret, Hh.
    replace (acc ++ (k, v) :: d) with ((acc ++ [(k, v)]) ++ d) in *
      by by rewrite <- app_assoc.
    assert (distinct_keys (acc ++ [(k, v)]) = true) as Hfresh.
    { clear -Hdist. induction d as [|kv d IH] using rev_ind; [by rewrite app_nil_r in Hdist|].
      apply IH. rewrite app_assoc in Hdist. destruct kv as [k' v'].
      rewrite distinct_keys_snoc in Hdist. by apply andb_true_iff in Hdist as [? _]. }
    rewrite distinct_keys_snoc in Hfresh. apply andb_true_iff in Hfresh as [_ Hfresh].
    rewrite dict_set_fresh by done. by apply IH.
Qed.

(** A value that is ready for [json.dumps] comes back as it is. *)
Lemma recurse_repr_id (o : obj) : json_native o = true → _recurse_repr o = Ret o.
Proof.
  induction o as [ | | | | |l IH|d IH] using obj_ind_nested; try done.
  - rewrite json_native_list. intros Hl. cbn [_recurse_repr].
    rewrite list_comprehension_id; [done|].
    rewrite Forall_forall in IH, Hl |- *. eauto.
  - rewrite json_native_dict. intros [Hd Hdist]. cbn [_recurse_repr].
    rewrite dict_comprehension_id; [done| |done].
    rewrite Forall_forall in IH, Hd |- *. intros kv Hkv.
    destruct (Hd kv Hkv) as (? & ? & ?). destruct (IH kv Hkv). eauto.
Qed.

(** X4. [_recurse_repr] leaves no [bytes] value behind, at any depth and in no
    dict key: what it returns holds [None], [bool], [int], [str], lists of
    these and dicts of these only. *)
Theorem recurse_repr_leaves_no_bytes (o r : obj) :
  _recurse_repr o = Ret r → no_bytes r = true.
Proof.
  intros Hrun. apply json_native_no_bytes.
  revert Hrun. apply recurse_repr_native.
Qed.

(** X5. [_recurse_repr] is idempotent: run on what it returned, it returns the
    same value again. *)
Theorem recurse_repr_idempotent (o r : obj) :
  _recurse_repr o = Ret r → _recurse_repr r = Ret r.
Proof.
  intros Hrun. apply recurse_repr_id.
  revert Hrun. apply recurse_repr_native.
Qed.

Lemma list_comprehension_agrees (l : list obj) :
  Forall repr_agrees l →
  (list_comprehension _recurse_repr l = Raise TypeError ∧ forallb json_ok l = false)
  ∨ (∃ r, list_comprehension _recurse_repr l = Ret r ∧ forallb json_ok l = true).
Proof.
  induction 1 as [|x l Hx _ IH]; [right; by exists []|].
  cbn [list_comprehension forallb].
  destruct Hx as [[-> ->]|(y & -> & -> & _)]; [by left|].
  rewrite bind_Ret. destruct IH as [[-> ->]|(r & -> & ->)]; [by left|].
  right. by eexists.
Qed.

Lemma dict_comprehension_agrees (d acc : list (obj * obj)) :
  Forall (λ kv, repr_agrees kv.1 ∧ repr_agrees kv.2) d →
  (dict_comprehension _recurse_repr d acc = Raise TypeError
   ∧ json_ok (ODict d) = false)
  ∨ (∃ r, dict_comprehension _recurse_repr d acc = Ret r
          ∧ json_ok (ODict d) = true).
Proof.
  intros Hd. revert acc.
  induction Hd as [|[k v] d [Hk Hv] _ IH]; intros acc; [right; by exists acc|].
  cbn [dict_comprehension json_ok forallb fst snd] in *.
  destruct Hk as [[-> Hk]|(k' & -> & Hk & Hh)].
  - left. split; [done|]. by destruct k.
  - rewrite bind_Ret.
    destruct Hv as [[-> ->]|(v' & -> & -> & _)].
    + left. split; [done|]. by destruct k.
    + rewrite bind_Ret, Hh. destruct k; cbn [hashable andb]; try apply IH; by left.
Qed.

Lemma recurse_repr_agrees (o : obj) : repr_agrees o.
Proof.
  induction o as [ | | | | |l IH|d IH] using obj_ind_nested;
    try (right; by eexists).
  - unfold repr_agrees. cbn [_recurse_repr json_ok].
    destruct (list_comprehension_agrees l IH) as [[-> ->]|(r & -> & ->)];
      [by left | right; by eexists].
  - unfold repr_agrees. cbn [_recurse_repr].
    destruct (dict_comprehension_agrees d [] IH) as [[-> ->]|(r & -> & ->)];
      [by left | right; by eexists].
Qed.

(** X6. [json_repr] raises exactly where its helper [_recurse_repr] does, and
    then it is a [TypeError]: some dict in the value, at any depth, has a
    tuple (or a dict) for a key. Otherwise both return. *)
Theorem json_repr_raises_with_recurse_repr (o : obj) :
  json_repr o = (_recurse_repr o ≫= λ _, Ret ())
  ∧ (json_repr o = Raise TypeError ↔ json_ok o = false)
  ∧ (json_repr o = Ret () ↔ ∃ r, _recurse_repr o = Ret r).
Proof.
  unfold json_repr.
  destruct (recurse_repr_agrees o) as [[-> ->]|(r & -> & -> & _)].
  - split_and!; [done| |]; split; try done. by intros [? ?].
  - split_and!; [done| |]; split; try done. by eexists.
Qed.

(** * chunks_with_empty, piece by piece *)

Lemma chunks_with_empty_loop_nth (fuel : nat) (message : bytes)
    (chunk_size chunk_start : Z) (chunks result : list bytes) :
  1 ≤ chunk_size → 0 ≤ chunk_start →
  chunks_with_empty_loop fuel message chunk_size chunk_start chunks = Ret result →
  ∃ pieces,
    result = chunks ++ pieces ++ [[]]
    ∧ ∀ (i : nat) p, pieces !! i = Some p →
        chunk_start + Z.of_nat i * chunk_size < Z.of_nat (length message)
        ∧ p = py_slice message (chunk_start + Z.of_nat i * chunk_size)
                (chunk_start + Z.of_nat i * chunk_size + chunk_size).
Proof.
  intros Hc. revert chunk_start chunks.
  induction fuel as [|fuel IH]; intros start chunks Hs; simpl;
    destruct (Z.ltb_spec start (Z.of_nat (length message))) as [Hlt|Hge]; try done.
  - intros [= <-]. by exists [].
  - intros Hrun. apply IH in Hrun as (pieces & -> & Hnth); [|lia].
    exists (py_slice message start (start + chunk_size) :: pieces).
    split; [by rewrite <- app_assoc|].
    intros [|i] p Hp.
    + simpl in Hp. injection Hp as <-. split; [lia|]. f_equal; lia.
    + change (pieces !! i = Some p) in Hp. apply Hnth in Hp as [Hlt' ->].
      split; [lia|]. f_equal; lia.
  - intros [= <-]. by exists [].
Qed.

(** X1. For a chunk size of at least 1, [chunks_with_empty] cuts the message
    into consecutive slices of [chunk_size] bytes: piece [i] is
    [message[i*chunk_size : (i+1)*chunk_size]], every piece but the last has
    exactly [chunk_size] bytes, the last has between 1 and [chunk_size], the
    pieces joined are the message, and one empty chunk follows them. *)
Theorem chunks_with_empty_slices (message : bytes) (chunk_size : Z) :
  1 ≤ chunk_size →
  ∃ pieces,
    chunks_with_empty message chunk_size = Ret (pieces ++ [[]])
    ∧ concat pieces = message
    ∧ ∀ (i : nat) p, pieces !! i = Some p →
        p = py_slice message (Z.of_nat i * chunk_size)
              (Z.of_nat i * chunk_size + chunk_size)
        ∧ 1 ≤ Z.of_nat (length p) ≤ chunk_size
        ∧ ((S i < length pieces)%nat → Z.of_nat (length p) = chunk_size).
Proof.
  intros Hc.
  destruct (chunks_with_empty_spec message chunk_size Hc)
    as (pieces & Hrun & Hcat & Hne & Hlen).
  exists pieces. split_and!; [done | done |].
  destruct (chunks_with_empty_loop_nth _ _ _ _ _ _ Hc (Z.le_refl 0) Hrun)
    as (pieces' & Heq & Hnth).
  apply app_inj_tail in Heq as [<- _].
  assert (∀ (i : nat) p, pieces !! i = Some p →
            Z.of_nat i * chunk_size < Z.of_nat (length message)
            ∧ p = take (Z.to_nat chunk_size)
                    (drop (Z.to_nat (Z.of_nat i * chunk_size)) message)) as Hslice.
  { intros i p Hp. destruct (Hnth i p Hp) as [Hlt ->]. rewrite Z.add_0_l in *.
    split; [done|]. apply py_slice_chunk; lia. }
  intros i p Hp. destruct (Hnth i p Hp) as [_ Hpy]. rewrite Z.add_0_l in Hpy.
  split; [done|].
  destruct (Hslice i p Hp) as [Hlt Htake].
  assert (Z.of_nat (length p)
          = Z.min chunk_size (Z.of_nat (length message) - Z.of_nat i * chunk_size))
    as Hp_len.
  { rewrite Htake, length_take, length_drop. lia. }
  split; [lia|].
  intros Hnext. destruct (lookup_lt_is_Some_2 pieces (S i) Hnext) as [q Hq].
  destruct (Hslice (S i) q Hq) as [Hlt' _]. lia.
Qed.

(** X2. For a chunk size of 0 or less and a message that is not empty, the
    loop of [chunks_with_empty] never ends: [chunk_start] does not get past
    0. So [encrypt] does not return either. *)
Theorem chunks_with_empty_loops_for_ever `{Random, Nacl, Hmac, Msgpack}
    (message : bytes) (chunk_size : Z) :
  chunk_size ≤ 0 → message ≠ [] →
  (∀ fuel chunk_start chunks,
     chunk_start ≤ 0 →
     chunks_with_empty_loop fuel message chunk_size chunk_start chunks = Diverge)
  ∧ chunks_with_empty message chunk_size = Diverge
  ∧ ∀ g sender_private recipient_groups,
      Z.of_nat (length (concat recipient_groups)) ≤ 2 ^ 64 →
      encrypt g sender_private recipient_groups message chunk_size = Diverge.
Proof.
  intros Hc Hne.
  assert (0 < Z.of_nat (length message)) as Hlen by (destruct message; [done | simpl; lia]).
  assert (∀ fuel chunk_start chunks,
            chunk_start ≤ 0 →
            chunks_with_empty_loop fuel message chunk_size chunk_start chunks = Diverge)
    as Hloop.
  { induction fuel as [|fuel IH]; intros start chunks Hs; simpl;
      destruct (Z.ltb_spec start (Z.of_nat (length message))); try done; try lia.
    apply IH. lia. }
  split_and!; [done | by apply Hloop |].
  intros g sk groups Hrec. unfold encrypt, encrypt_traced.
  destruct (urandom 32 g) as [ek g1]. destruct (urandom 16 g1) as [prefix g2].
  destruct (encrypt_groups_spec (bool_decide (1 < length groups)%nat) ek prefix
              sk groups 0 g2 [] [])
    as (g' & mks & rows & Hrun & _); [simpl; lia | done |].
  unfold enumerate. simpl in Hrun. change (Z.of_nat 0) with 0 in Hrun.
  rewrite Hrun, bind_Ret. unfold chunks_with_empty. by rewrite Hloop.
Qed.

(** * decrypt on what encrypt wrote, and on what was made of it *)

Section Readback.
Context `{Random, Nacl, Hmac, Msgpack}.

Hypothesis unpack_packb : ∀ (o : obj) (rest : bytes),
  unpack (packb o ++ rest) = Some (o, rest).

Hypothesis box_open_box : ∀ (m n sk_s sk_r : bytes),
  crypto_box_open
    (crypto_box m n sk_s (crypto_scalarmult_base sk_r))
    n sk_r (crypto_scalarmult_base sk_s) = Some m.

Hypothesis secretbox_open_secretbox : ∀ (m n k : bytes),
  crypto_secretbox_open (crypto_secretbox m n k) n k = Some m.

(** The header frame of [encrypt], read by [decrypt]. *)
Lemma parse_header_encrypted (g : rng) (sender_private : bytes)
    (recipient_groups : list (list bytes)) (message : bytes) (chunk_size : Z)
    (tr : trace) (pieces : list bytes) (body : bytes) :
  encrypted g sender_private recipient_groups message chunk_size tr pieces →
  parse_header (frame (tr_header tr) ++ body)
  = Ret (OBytes (crypto_scalarmult_base sender_private),
         OBytes (nonce_start_of g),
         OList (header_entry <$> tr_rows tr), body).
Proof.
  intros Henc. pose proof (enc_header _ _ _ _ _ _ _ Henc) as Hheader.
  unfold parse_header.
  rewrite (read_framed_frame unpack_packb)
    by (rewrite Hheader; simpl; by rewrite header_entries_json_ok).
  rewrite bind_Ret, Hheader.
  change (getitem_str (ODict ((OStr "version", ?v) :: ?d)) "version") with (@Ret obj v).
  rewrite bind_Ret. cbn [eq_one negb bool_decide decide_rel].
  rewrite bool_decide_true by done. cbn [negb].
  change (getitem_str (ODict [_; (OStr "sender", ?v); _; _]) "sender") with (@Ret obj v).
  rewrite bind_Ret.
  change (getitem_str (ODict [_; _; (OStr "nonce", ?v); _]) "nonce") with (@Ret obj v).
  rewrite bind_Ret.
  change (getitem_str (ODict [_; _; _; (OStr "recipients", ?v)]) "recipients")
    with (@Ret obj v).
  by rewrite !bind_Ret.
Qed.

(** A listed recipient, up to the loop: the row [decrypt] picks is the
    first one made for the recipient's public key, and the keys are those
    [encrypt] boxed in it. *)
Lemma decrypt_keys_encrypted (g : rng) (sender_private : bytes)
    (recipient_groups : list (list bytes)) (message : bytes) (chunk_size : Z)
    (tr : trace) (pieces : list bytes) (recipient_private : bytes) :
  encrypted g sender_private recipient_groups message chunk_size tr pieces →
  crypto_scalarmult_base recipient_private ∈ concat recipient_groups →
  Z.of_nat (length (concat recipient_groups)) ≤ 2 ^ 64 →
  ∃ i r gn mk,
    list_find (λ r, row_pub r = crypto_scalarmult_base recipient_private)
              (tr_rows tr) = Some (i, r)
    ∧ row_keys r = make_keys (need_macs_of recipient_groups)
                     (encryption_key_of g) gn mk
    ∧ (need_macs_of recipient_groups = true → tr_mac_keys tr !! gn = Some mk)
    ∧ ∀ body,
        decrypt_keys (frame (tr_header tr) ++ body) recipient_private
        = Ret (OBytes (encryption_key_of g),
               if need_macs_of recipient_groups then OInt (Z.of_nat gn) else ONone,
               if need_macs_of recipient_groups then OBytes mk else ONone,
               body).
Proof.
  intros Henc Hin Hrec.
  pose proof (enc_pubs _ _ _ _ _ _ _ Henc) as Hpubs.
  pose proof (enc_rows _ _ _ _ _ _ _ Henc) as Hrows.
  rewrite <- Hpubs in Hin. apply list_elem_of_fmap in Hin as (r0 & Hr0 & Hin).
  destruct (list_find_elem_of (λ r, row_pub r = crypto_scalarmult_base recipient_private)
              (tr_rows tr) r0 Hin (eq_sym Hr0)) as [[i r] Hfind].
  pose proof Hfind as Hfind'.
  apply list_find_Some in Hfind' as (Hi & Hr & _).
  destruct (Hrows i r Hi) as (gn & mk & Hrow & Hmk).
  assert (Z.of_nat i < 2 ^ 64) as Hilt.
  { apply lookup_lt_Some in Hi. rewrite <- Hpubs, length_fmap in Hrec. lia. }
  exists i, r, gn, mk. split_and!; [done | by rewrite Hrow | done |].
  intros body. unfold decrypt_keys.
  rewrite (parse_header_encrypted _ _ _ _ _ _ _ _ Henc), bind_Ret.
  unfold find_recipient. cbn [py_iter]. rewrite bind_Ret.
  rewrite find_recipient_loop_rows, Hfind.
  rewrite bind_Ret, Z.add_0_l.
  rewrite Hrow, Hr, (unbox_keys_row unpack_packb box_open_box) by done.
  rewrite bind_Ret. unfold chunk_keys, json_repr.
  by rewrite make_keys_json_ok, bind_Ret, make_keys_encryption_key, bind_Ret,
    make_keys_mac_group, bind_Ret, make_keys_mac_key, !bind_Ret.
Qed.


(** The whole of [decrypt] on the output of [encrypt], whatever follows
    that output in the input. *)
Lemma decrypt_traced_output (g : rng) (sender_private : bytes)
    (recipient_groups : list (list bytes)) (message : bytes) (chunk_size : Z)
    (tr : trace) (pieces : list bytes) (recipient_private rest : bytes) :
  encrypted g sender_private recipient_groups message chunk_size tr pieces →
  crypto_scalarmult_base recipient_private ∈ concat recipient_groups →
  Z.of_nat (length (concat recipient_groups)) ≤ 2 ^ 64 →
  ceil_div (Z.of_nat (length message)) chunk_size < 2 ^ 192 →
  decrypt_traced (tr_output tr ++ rest) recipient_private = Ret (message, rest).
Proof.
  intros Henc Hin Hrec Hchunks.
  destruct (decrypt_keys_encrypted _ _ _ _ _ _ _ recipient_private Henc Hin Hrec)
    as (i & r & gn & mk & _ & _ & Hmk & Hkeys).
  destruct Henc as [Hcat Hpieces Hcount Hchunkrows Hheader Hout Hpubs Hmlen Hrows].
  rewrite decrypt_traced_keys, Hout, frames_cons, <- app_assoc, Hkeys, bind_Ret.
  rewrite Hchunkrows.
  rewrite (decrypt_loop_frames unpack_packb secretbox_open_secretbox
             _ _ _ gn mk pieces Hmk) with (k := 0%nat).
  - simpl. by rewrite Hcat.
  - eapply Forall_impl; [exact Hpieces|]. by intros p [? _].
  - pose proof (length_frames unpack_packb (chunk_map <$>
      imap (mk_chunk_row (need_macs_of recipient_groups) (encryption_key_of g)
              (tr_mac_keys tr)) (pieces ++ [[]]))) as Hlen.
    rewrite length_fmap, length_imap, length_app in Hlen. simpl in Hlen.
    rewrite length_app. lia.
  - lia.
Qed.

(** X9. Bytes that follow the output of [encrypt] in the input of [decrypt]
    change nothing: a listed recipient gets the message, and [decrypt]
    leaves those bytes unread. *)
Theorem decrypt_ignores_what_follows (g : rng) (sender_private : bytes)
    (recipient_groups : list (list bytes)) (message : bytes) (chunk_size : Z)
    (recipient_private blob : bytes) :
  1 ≤ chunk_size →
  crypto_scalarmult_base recipient_private ∈ concat recipient_groups →
  Z.of_nat (length (concat recipient_groups)) ≤ 2 ^ 64 →
  ceil_div (Z.of_nat (length message)) chunk_size < 2 ^ 192 →
  encrypt g sender_private recipient_groups message chunk_size = Ret blob →
  ∀ junk,
    decrypt_traced (blob ++ junk) recipient_private = Ret (message, junk)
    ∧ decrypt (blob ++ junk) recipient_private = Ret message.
Proof.
  intros Hc Hin Hrec Hchunks Hblob junk.
  destruct (encrypt_traced_spec g sender_private recipient_groups message
              chunk_size Hc Hrec Hchunks) as (tr & pieces & Hrun & Henc).
  unfold encrypt in Hblob. rewrite Hrun in Hblob. injection Hblob as <-.
  pose proof (decrypt_traced_output _ _ _ _ _ _ _ recipient_private junk
                Henc Hin Hrec Hchunks) as Hdec.
  split; [done|]. unfold decrypt. by rewrite Hdec.
Qed.

(** X11. Someone whose public key is in no group gets ['recipient key not
    found'] from the output of [encrypt], and nothing else; so does
    everyone when there are no recipients at all. *)
Theorem unlisted_key_not_found (g : rng) (sender_private : bytes)
    (recipient_groups : list (list bytes)) (message : bytes) (chunk_size : Z)
    (recipient_private blob : bytes) :
  1 ≤ chunk_size →
  crypto_scalarmult_base recipient_private ∉ concat recipient_groups →
  Z.of_nat (length (concat recipient_groups)) ≤ 2 ^ 64 →
  ceil_div (Z.of_nat (length message)) chunk_size < 2 ^ 192 →
  encrypt g sender_private recipient_groups message chunk_size = Ret blob →
  decrypt blob recipient_private = Raise RecipientNotFound.
Proof.
  intros Hc Hout Hrec Hchunks Hblob.
  destruct (encrypt_traced_spec g sender_private recipient_groups message
              chunk_size Hc Hrec Hchunks) as (tr & pieces & Hrun & Henc).
  unfold encrypt in Hblob. rewrite Hrun in Hblob. injection Hblob as <-.
  unfold decrypt, decrypt_traced.
  rewrite (enc_output _ _ _ _ _ _ _ Henc), frames_cons.
  rewrite (parse_header_encrypted _ _ _ _ _ _ _ _ Henc), bind_Ret.
  unfold find_recipient. cbn [py_iter]. rewrite bind_Ret, find_recipient_loop_rows.
  destruct (list_find _ (tr_rows tr)) as [[i r]|] eqn:Hfind; [|done].
  apply list_find_Some in Hfind as (Hi & Hr & _).
  destruct Hout. rewrite <- (enc_pubs _ _ _ _ _ _ _ Henc), <- Hr.
  apply list_elem_of_fmap. exists r. split; [done|]. by eapply list_elem_of_lookup_2.
Qed.

(** X7. The header that [encrypt] writes, as [decrypt] reads it back: the
    sender's public key is the one of [sender_private], and the recipients
    are listed group after group, in the order given, each with the box
    of its keys under the nonce made of the 16 random bytes and its
    position. What follows the header frame is the chunk frames. *)
Theorem encrypt_header_read_back (g : rng) (sender_private : bytes)
    (recipient_groups : list (list bytes)) (message : bytes) (chunk_size : Z)
    (blob : bytes) :
  1 ≤ chunk_size →
  Z.of_nat (length (concat recipient_groups)) ≤ 2 ^ 64 →
  ceil_div (Z.of_nat (length message)) chunk_size < 2 ^ 192 →
  encrypt g sender_private recipient_groups message chunk_size = Ret blob →
  ∃ entries chunk_frames,
    parse_header blob
    = Ret (OBytes (crypto_scalarmult_base sender_private),
           OBytes (nonce_start_of g), OList entries, chunk_frames)
    ∧ length entries = length (concat recipient_groups)
    ∧ ∀ (i : nat) pk, concat recipient_groups !! i = Some pk →
        ∃ keys,
          entries !! i
          = Some (OList [OBytes pk;
                         OBytes (crypto_box (packb keys)
                                   (nonce_start_of g ++ be_bytes 8 (Z.of_nat i))
                                   sender_private pk)])
          ∧ getitem_str keys "encryption_key" = Ret (OBytes (encryption_key_of g)).
Proof.
  intros Hc Hrec Hchunks Hblob.
  destruct (encrypt_traced_spec g sender_private recipient_groups message
              chunk_size Hc Hrec Hchunks) as (tr & pieces & Hrun & Henc).
  unfold encrypt in Hblob. rewrite Hrun in Hblob. injection Hblob as <-.
  exists (header_entry <$> tr_rows tr), (frames (chunk_map <$> tr_chunks tr)).
  pose proof (enc_pubs _ _ _ _ _ _ _ Henc) as Hpubs.
  split_and!.
  - rewrite (enc_output _ _ _ _ _ _ _ Henc), frames_cons.
    by apply parse_header_encrypted with recipient_groups message chunk_size pieces.
  - by rewrite <- Hpubs, !length_fmap.
  - intros i pk Hi. rewrite <- Hpubs, list_lookup_fmap in Hi.
    destruct (tr_rows tr !! i) as [r|] eqn:Hr; [|done]. injection Hi as <-.
    destruct (enc_rows _ _ _ _ _ _ _ Henc i r Hr) as (gn & mk & Hrow & _).
    exists (row_keys r). rewrite list_lookup_fmap, Hr. split.
    + simpl. unfold header_entry. do 4 f_equal. rewrite Hrow. reflexivity.
    + rewrite Hrow. apply make_keys_encryption_key.
Qed.

(** X3. For the empty message the chunk size plays no part: [encrypt]
    returns the same bytes for every [chunk_size], be it 0 or negative,
    and a listed recipient decrypts them to the empty message. *)
Theorem empty_message_any_chunk_size (g : rng) (sender_private : bytes)
    (recipient_groups : list (list bytes)) (recipient_private : bytes) :
  crypto_scalarmult_base recipient_private ∈ concat recipient_groups →
  Z.of_nat (length (concat recipient_groups)) ≤ 2 ^ 64 →
  ∃ blob,
    (∀ chunk_size,
       chunks_with_empty [] chunk_size = Ret [[]]
       ∧ encrypt g sender_private recipient_groups [] chunk_size = Ret blob)
    ∧ decrypt blob recipient_private = Ret [].
Proof.
  intros Hin Hrec.
  destruct (encrypt_traced_spec g sender_private recipient_groups [] 1)
    as (tr & pieces & Hrun & Henc); [done | done | done |].
  exists (tr_output tr). split.
  - intros chunk_size. split; [done|]. unfold encrypt.
    change (encrypt_traced g sender_private recipient_groups [] chunk_size)
      with (encrypt_traced g sender_private recipient_groups [] 1).
    by rewrite Hrun.
  - unfold decrypt. rewrite <- (app_nil_r (tr_output tr)).
    by rewrite (decrypt_traced_output _ _ _ _ _ _ _ recipient_private []
                  Henc Hin Hrec).
Qed.
End Readback.

(** * decrypt on a truncated input *)

Section Truncation.
Context `{Random, Nacl, Hmac, Msgpack}.

Hypothesis unpack_packb : ∀ (o : obj) (rest : bytes),
  unpack (packb o ++ rest) = Some (o, rest).

Hypothesis box_open_box : ∀ (m n sk_s sk_r : bytes),
  crypto_box_open
    (crypto_box m n sk_s (crypto_scalarmult_base sk_r))
    n sk_r (crypto_scalarmult_base sk_s) = Some m.

Hypothesis secretbox_open_secretbox : ∀ (m n k : bytes),
  crypto_secretbox_open (crypto_secretbox m n k) n k = Some m.

(** A value that umsgpack unpacks takes a non-empty front part of the
    stream, and is the same whatever follows that part. *)
Hypothesis unpack_prefix : ∀ (s : bytes) (o : obj) (rest : bytes),
  unpack s = Some (o, rest) →
  ∃ c, c ≠ [] ∧ s = c ++ rest ∧ ∀ rest', unpack (c ++ rest') = Some (o, rest').

Lemma unpack_shorter_of_prefix (s : bytes) (o : obj) (rest : bytes) :
  unpack s = Some (o, rest) → (length rest < length s)%nat.
Proof.
  intros (c & Hc & -> & _)%unpack_prefix. rewrite length_app.
  destruct c; [done | simpl; lia].
Qed.

(** A read on the input cut short runs out of bytes, or is the read on
    the whole input. *)
Lemma unpack_stream_cut (s d : bytes) (o : obj) (stream : bytes) :
  unpack_stream (s ++ d) = Ret (o, stream) →
  unpack_stream s = Raise UnpackException
  ∨ ∃ r, unpack_stream s = Ret (o, r) ∧ stream = r ++ d.
Proof.
  unfold unpack_stream. destruct (unpack s) as [[o' r]|] eqn:Hs; [|by left].
  destruct (unpack_prefix _ _ _ Hs) as (c & _ & -> & Hany).
  rewrite <- app_assoc, Hany. intros [= <- <-]. right. by exists r.
Qed.

Lemma read_framed_msgpack_cut (s d : bytes) (o : obj) (stream : bytes) :
  read_framed_msgpack (s ++ d) = Ret (o, stream) →
  read_framed_msgpack s = Raise UnpackException
  ∨ ∃ r, read_framed_msgpack s = Ret (o, r) ∧ stream = r ++ d.
Proof.
  unfold read_framed_msgpack.
  intros ([len s1] & Hlen & Hrun)%bind_Ret_inv.
  apply unpack_stream_cut in Hlen as [->|(r1 & -> & ->)]; [by left|].
  rewrite bind_Ret.
  apply bind_Ret_inv in Hrun as ([o' s2] & Hbody & Hrun).
  apply unpack_stream_cut in Hbody as [->|(r2 & -> & ->)]; [by left|].
  rewrite bind_Ret.
  apply bind_Ret_inv in Hrun as ([] & -> & [= <- <-]).
  right. by exists r2.
Qed.

Lemma parse_header_cut (s d : bytes) (sp ns rs : obj) (stream : bytes) :
  parse_header (s ++ d) = Ret (sp, ns, rs, stream) →
  parse_header s = Raise UnpackException
  ∨ ∃ r, parse_header s = Ret (sp, ns, rs, r) ∧ stream = r ++ d.
Proof.
  unfold parse_header.
  intros ([header s1] & Hread & Hrun)%bind_Ret_inv.
  apply read_framed_msgpack_cut in Hread as [->|(r & -> & ->)]; [by left|].
  rewrite bind_Ret. right.
  apply bind_Ret_inv in Hrun as (version & -> & Hrun). rewrite bind_Ret.
  destruct (negb (eq_one version)); [done|].
  apply bind_Ret_inv in Hrun as (sp' & -> & Hrun). rewrite bind_Ret.
  apply bind_Ret_inv in Hrun as (ns' & -> & Hrun). rewrite bind_Ret.
  apply bind_Ret_inv in Hrun as (rs' & -> & [= <- <- <- <-]). rewrite bind_Ret.
  by exists r.
Qed.

Lemma decrypt_keys_cut (s d recipient_private : bytes) (ek mg mk : obj)
    (stream : bytes) :
  decrypt_keys (s ++ d) recipient_private = Ret (ek, mg, mk, stream) →
  decrypt_keys s recipient_private = Raise UnpackException
  ∨ ∃ r, decrypt_keys s recipient_private = Ret (ek, mg, mk, r)
         ∧ stream = r ++ d.
Proof.
  unfold decrypt_keys.
  intros ([[[sp ns] rs] s1] & Hhead & Hrun)%bind_Ret_inv.
  apply parse_header_cut in Hhead as [->|(r & -> & ->)]; [by left|].
  rewrite bind_Ret. right.
  apply bind_Ret_inv in Hrun as ([num boxed] & -> & Hrun). rewrite bind_Ret.
  apply bind_Ret_inv in Hrun as (keys & -> & Hrun). rewrite bind_Ret.
  apply bind_Ret_inv in Hrun as ([[ek' mg'] mk'] & -> & [= <- <- <- <-]).
  rewrite bind_Ret. by exists r.
Qed.

(** The loop on the input cut short: it runs out of bytes at some read,
    or out of turns, or it stopped before the cut. *)
Lemma decrypt_loop_cut (d : bytes) (ek mg mk : obj) (m stream : bytes) :
  ∀ (fuel fuel' : nat) (s : bytes) (chunknum : Z) (output : bytes),
    decrypt_loop fuel' ek mg mk (s ++ d) chunknum output = Ret (m, stream) →
    decrypt_loop fuel ek mg mk s chunknum output = Raise UnpackException
    ∨ decrypt_loop fuel ek mg mk s chunknum output = Diverge
    ∨ ∃ r, decrypt_loop fuel ek mg mk s chunknum output = Ret (m, r)
           ∧ stream = r ++ d.
Proof.
  induction fuel as [|fuel IH]; intros [|fuel'] s chunknum output; try done;
    [by right; left|].
  cbn [decrypt_loop].
  intros (nonce & -> & Hrun)%bind_Ret_inv. rewrite bind_Ret.
  apply bind_Ret_inv in Hrun as ([cm s1] & Hread & Hrun).
  apply read_framed_msgpack_cut in Hread as [->|(r & -> & ->)]; [by left|].
  rewrite bind_Ret.
  apply bind_Ret_inv in Hrun as (macs & -> & Hrun). rewrite bind_Ret.
  apply bind_Ret_inv in Hrun as (boxed & -> & Hrun). rewrite bind_Ret.
  apply bind_Ret_inv in Hrun as ([] & -> & Hrun). rewrite bind_Ret.
  apply bind_Ret_inv in Hrun as (chunk & -> & Hrun). rewrite bind_Ret.
  case_bool_decide.
  - injection Hrun as <- <-. right; right. by exists r.
  - by apply IH with fuel'.
Qed.

(** Where [decrypt] read its input to the end, it raises umsgpack's
    exception on every shorter front part of that input. *)
Lemma decrypt_cut (input recipient_private m : bytes) (k : nat) :
  decrypt_traced input recipient_private = Ret (m, []) →
  (k < length input)%nat →
  decrypt (take k input) recipient_private = Raise UnpackException.
Proof.
  intros Hfull Hk.
  assert (drop k input ≠ []) as Hd.
  { intros Hnil%(f_equal length). rewrite length_drop in Hnil. simpl in Hnil. lia. }
  rewrite <- (take_drop k input) in Hfull.
  unfold decrypt. rewrite decrypt_traced_keys in Hfull |- *.
  apply bind_Ret_inv in Hfull as ([[[ek mg] mk] s1] & Hkeys & Hloop).
  apply decrypt_keys_cut in Hkeys as [->|(r & -> & ->)]; [done|].
  rewrite bind_Ret.
  apply (decrypt_loop_cut _ _ _ _ _ _ (S (length r))) in Hloop
    as [->|[Hdiv|(r' & _ & Hnil)]]; [done | |].
  - by apply (decrypt_loop_total unpack_shorter_of_prefix) in Hdiv; [|lia].
  - symmetry in Hnil. by apply app_eq_nil in Hnil as [_ ?].
Qed.

(** X10. A message cut short is never taken for a shorter message: on every
    front part of what [encrypt] returns, short of the whole, a listed
    recipient gets umsgpack's exception from the read that runs out of
    bytes, and no plaintext. *)
Theorem truncated_message_rejected (g : rng) (sender_private : bytes)
    (recipient_groups : list (list bytes)) (message : bytes) (chunk_size : Z)
    (recipient_private blob : bytes) (k : nat) :
  1 ≤ chunk_size →
  crypto_scalarmult_base recipient_private ∈ concat recipient_groups →
  Z.of_nat (length (concat recipient_groups)) ≤ 2 ^ 64 →
  ceil_div (Z.of_nat (length message)) chunk_size < 2 ^ 192 →
  encrypt g sender_private recipient_groups message chunk_size = Ret blob →
  (k < length blob)%nat →
  decrypt (take k blob) recipient_private = Raise UnpackException.
Proof.
  intros Hc Hin Hrec Hchunks Hblob Hk.
  destruct (encrypt_traced_spec g sender_private recipient_groups message
              chunk_size Hc Hrec Hchunks) as (tr & pieces & Hrun & Henc).
  unfold encrypt in Hblob. rewrite Hrun in Hblob. injection Hblob as <-.
  apply decrypt_cut with message; [|done].
  rewrite <- (app_nil_r (tr_output tr)).
  by apply (decrypt_traced_output unpack_packb box_open_box
              secretbox_open_secretbox) with g sender_private recipient_groups
              chunk_size pieces.
Qed.
End Truncation.

(** * Which MAC a recipient checks *)

Section OwnMac.
Context `{Random, Nacl, Hmac, Msgpack}.

Hypothesis unpack_packb : ∀ (o : obj) (rest : bytes),
  unpack (packb o ++ rest) = Some (o, rest).

Hypothesis box_open_box : ∀ (m n sk_s sk_r : bytes),
  crypto_box_open
    (crypto_box m n sk_s (crypto_scalarmult_base sk_r))
    n sk_r (crypto_scalarmult_base sk_s) = Some m.

Hypothesis secretbox_open_secretbox : ∀ (m n k : bytes),
  crypto_secretbox_open (crypto_secretbox m n k) n k = Some m.

(** The rows of one group are for its members and hold its number. *)
Lemma encrypt_recipients_in_group (nm : bool) (ek prefix sk : bytes)
    (gn : nat) (mk : bytes) (group : list bytes) :
  ∀ rows n rows' n',
    for_each (encrypt_recipient nm ek prefix sk gn mk) (rows, n) group
      = Ret (rows', n') →
    ∃ new, rows' = rows ++ new
           ∧ Forall (λ r, row_pub r ∈ group
                          ∧ row_keys r = make_keys nm ek gn mk) new.
Proof.
  induction group as [|pk group IH]; intros rows n rows' n'.
  - simpl. intros [= <- <-]. exists []. by rewrite app_nil_r.
  - cbn [for_each]. intros ([rows1 n1] & Hstep & Hrun)%bind_Ret_inv.
    unfold encrypt_recipient in Hstep.
    apply bind_Ret_inv in Hstep as (counter & _ & [= <- <-]).
    apply IH in Hrun as (new & -> & Hnew).
    eexists (_ :: new). split; [by rewrite <- app_assoc|].
    constructor; [split; [apply list_elem_of_here | done]|].
    eapply Forall_impl; [exact Hnew|]. intros r [? ?].
    split; [by apply list_elem_of_further | done].
Qed.

Lemma encrypt_groups_in_group (nm : bool) (ek prefix sk : bytes)
    (groups : list (list bytes)) :
  ∀ k g mks rows n g' mks' rows' n',
    for_each (encrypt_group nm ek prefix sk) (g, mks, (rows, n))
             (imap (λ i x, ((k + i)%nat, x)) groups)
      = Ret (g', mks', (rows', n')) →
    ∃ new, rows' = rows ++ new
           ∧ Forall (λ r, ∃ i group mk,
                        groups !! i = Some group ∧ row_pub r ∈ group
                        ∧ row_keys r = make_keys nm ek (k + i) mk) new.
Proof.
  induction groups as [|group groups IH]; intros k g mks rows n g' mks' rows' n'.
  - simpl. intros [= <- <- <- <-]. exists []. by rewrite app_nil_r.
  - cbn [imap for_each].
    intros ([[g1 mks1] [rows1 n1]] & Hstep & Hrun)%bind_Ret_inv.
    unfold encrypt_group in Hstep.
    destruct (if nm then _ else _) as [[mk0 g0] mks0] in Hstep.
    apply bind_Ret_inv in Hstep as ([rows2 n2] & Hgroup & [= <- <- <- <-]).
    apply encrypt_recipients_in_group in Hgroup as (new0 & -> & Hnew0).
    erewrite imap_ext in Hrun; [apply (IH (S k)) in Hrun as (new & -> & Hnew)|].
    2:{ intros i x _. simpl. f_equal. lia. }
    exists (new0 ++ new). split; [by rewrite <- app_assoc|].
    apply Forall_app. split.
    + eapply Forall_impl; [exact Hnew0|]. intros r [? ?].
      exists 0%nat, group, mk0. by rewrite Nat.add_0_r in *.
    + eapply Forall_impl; [exact Hnew|]. intros r (i & gr & mk & ? & ? & Hk).
      exists (S i), gr, mk. split_and!; [done | done |].
      rewrite Hk. f_equal. lia.
Qed.

Lemma encrypt_traced_rows_in_group (g : rng) (sender_private : bytes)
    (recipient_groups : list (list bytes)) (message : bytes) (chunk_size : Z)
    (tr : trace) (r : recipient_row) :
  encrypt_traced g sender_private recipient_groups message chunk_size = Ret tr →
  r ∈ tr_rows tr →
  ∃ i group mk,
    recipient_groups !! i = Some group ∧ row_pub r ∈ group
    ∧ row_keys r = make_keys (need_macs_of recipient_groups)
                     (encryption_key_of g) i mk.
Proof.
  unfold encrypt_traced, encryption_key_of.
  destruct (urandom 32 g) as [ek g1]. destruct (urandom 16 g1) as [prefix g2].
  intros ([[g' mks] [rows n]] & Hgroups & Hrun)%bind_Ret_inv Hr.
  apply (encrypt_groups_in_group _ _ _ _ _ 0%nat) in Hgroups as (new & Hrows & Hnew).
  apply bind_Ret_inv in Hrun as (chunks & _ & Hrun).
  apply bind_Ret_inv in Hrun as ([crs out] & _ & [= <-]).
  simpl in Hr. rewrite Hrows in Hr. simpl in Hr.
  rewrite Forall_forall in Hnew. apply Hnew in Hr as (i & gr & mk & ? & ? & ?).
  by exists i, gr, mk.
Qed.






(** X18. In a message to several groups, the keys boxed for a recipient
    hold the number of a group the recipient is listed in and the MAC key
    drawn for that group, and every chunk record holds, at that place of
    its [macs] list, the first 16 bytes of the HMAC, under that key, of
    the first 16 bytes of the ciphertext. *)
Theorem mac_at_the_place_of_the_group (g : rng) (sender_private : bytes)
    (recipient_groups : list (list bytes)) (message : bytes) (chunk_size : Z)
    (tr : trace) (r : recipient_row) :
  1 ≤ chunk_size →
  Z.of_nat (length (concat recipient_groups)) ≤ 2 ^ 64 →
  ceil_div (Z.of_nat (length message)) chunk_size < 2 ^ 192 →
  (1 < length recipient_groups)%nat →
  encrypt_traced g sender_private recipient_groups message chunk_size = Ret tr →
  r ∈ tr_rows tr →
  ∃ gn group mk,
    recipient_groups !! gn = Some group
    ∧ row_pub r ∈ group
    ∧ tr_mac_keys tr !! gn = Some mk
    ∧ row_keys r
      = ODict [ (OStr "encryption_key", OBytes (encryption_key_of g));
                (OStr "mac_group", OInt (Z.of_nat gn));
                (OStr "mac_key", OBytes mk) ]
    ∧ ∀ c, c ∈ tr_chunks tr →
        macs_of (chunk_map c) !! gn
        = Some (OBytes (py_slice
                          (hmac_sha512 mk (py_slice (boxed_of (chunk_map c)) 0 16))
                          0 16)).
Proof.
  intros Hc Hrec Hchunks Hmany Hrun Hr.
  destruct (encrypt_traced_spec g sender_private recipient_groups message
              chunk_size Hc Hrec Hchunks) as (tr' & pieces & Hrun' & Henc).
  rewrite Hrun in Hrun'. injection Hrun' as <-.
  assert (need_macs_of recipient_groups = true) as Hnm
    by by apply bool_decide_eq_true.
  destruct (encrypt_traced_rows_in_group _ _ _ _ _ _ r Hrun Hr)
    as (gn & group & mk & Hgroup & Hin & Hkeys).
  apply list_elem_of_lookup in Hr as [j Hj].
  destruct (enc_rows _ _ _ _ _ _ _ Henc j r Hj) as (gn' & mk' & Hrow & Hmk).
  rewrite Hnm in *. specialize (Hmk eq_refl).
  assert (row_keys r = make_keys true (encryption_key_of g) gn' mk') as Hkeys'
    by (rewrite Hrow; done).
  rewrite Hkeys in Hkeys'. injection Hkeys' as Hgn ->.
  apply Nat2Z.inj in Hgn as <-.
  exists gn, group, mk'. split_and!; [done | done | done | done |].
  intros c Hcin. rewrite (enc_chunks _ _ _ _ _ _ _ Henc), Hnm in Hcin.
  apply list_elem_of_lookup in Hcin as [i Hi].
  apply list_lookup_imap_Some in Hi as (p & _ & ->).
  change (macs_of (chunk_map (mk_chunk_row true ?ek ?mks ?i ?p)))
    with (chunk_macs true mks (crypto_secretbox p (be_bytes 24 (Z.of_nat i)) ek)).
  change (boxed_of (chunk_map (mk_chunk_row true ?ek ?mks ?i ?p)))
    with (crypto_secretbox p (be_bytes 24 (Z.of_nat i)) ek).
  unfold chunk_macs. by rewrite list_lookup_fmap, Hmk.
Qed.
End OwnMac.

(** * Which block of decrypt raises what *)

Lemma raises_only_bind {A B : Type} (m : outcome A) (f : A → outcome B)
    (es : list exn) :
  raises_only m es → (∀ a, m = Ret a → raises_only (f a) es) →
  raises_only (m ≫= f) es.
Proof.
  intros Hm Hf e. destruct m as [a|e'|]; simpl; [by apply Hf | | done].
  intros [= ->]. by apply Hm.
Qed.

Lemma raises_only_mono {A : Type} (m : outcome A) (es es' : list exn) :
  raises_only m es → es ⊆ es' → raises_only m es'.
Proof. intros Hm Hsub e He. apply Hsub. by apply Hm. Qed.

Lemma fmap_Raise_inv {A B : Type} (m : outcome A) (f : A → B) (e : exn) :
  f <$> m = Raise e → m = Raise e.
Proof. destruct m; [done | by intros [= ->] | done]. Qed.

Lemma raises_only_Ret {A : Type} (a : A) (es : list exn) : raises_only (Ret a) es.
Proof. by intros e. Qed.

Section Stages.
Context `{Random, Nacl, Hmac, Msgpack}.

Lemma to_bytes_raises (n : Z) (len : nat) :
  raises_only (to_bytes n len) [OverflowError].
Proof. unfold to_bytes. raises_cases. Qed.

Lemma read_framed_msgpack_raises (stream : bytes) :
  raises_only (read_framed_msgpack stream) [UnpackException; TypeError].
Proof. unfold read_framed_msgpack, unpack_stream, json_repr. raises_cases. Qed.

Lemma getitem_str_raises (o : obj) (k : string) :
  raises_only (getitem_str o k) [KeyError; TypeError].
Proof. unfold getitem_str. raises_cases. Qed.

Lemma seq_index_raises {A : Type} (l : list A) (i : Z) :
  raises_only (seq_index l i) [IndexError].
Proof. unfold seq_index. raises_cases. Qed.

Lemma getitem_raises (o i : obj) :
  raises_only (getitem o i) [TypeError; KeyError; IndexError].
Proof.
  unfold getitem.
  destruct o; try raises_cases;
    repeat case_match; try raises_cases;
    (eapply raises_only_mono; [apply seq_index_raises | sub_list]).
Qed.

Lemma check_mac_raises (mac_key mac_group macs boxed_chunk : obj) :
  raises_only (check_mac mac_key mac_group macs boxed_chunk)
    [TypeError; KeyError; IndexError; MacMismatch].
Proof.
  unfold check_mac. destruct mac_key; try apply raises_only_Ret;
    (apply raises_only_bind;
     [eapply raises_only_mono; [apply getitem_raises | sub_list]|];
     intros their _; unfold slice16, as_bytes; raises_cases).
Qed.

Lemma secretbox_open_raises (boxed_chunk : obj) (nonce : bytes) (ek : obj) :
  raises_only (secretbox_open boxed_chunk nonce ek) [TypeError; CryptoError].
Proof. unfold secretbox_open, as_bytes. raises_cases. Qed.

(** The loop. *)
Lemma decrypt_loop_raises (fuel : nat) (ek mg mk : obj) (stream : bytes)
    (chunknum : Z) (output : bytes) :
  raises_only (decrypt_loop fuel ek mg mk stream chunknum output)
    [OverflowError; UnpackException; TypeError; KeyError; CryptoError;
     IndexError; MacMismatch].
Proof.
  revert stream chunknum output.
  induction fuel as [|fuel IH]; intros stream chunknum output; [done|].
  cbn [decrypt_loop].
  apply raises_only_bind;
    [eapply raises_only_mono; [apply to_bytes_raises | sub_list]|].
  intros nonce _. apply raises_only_bind;
    [eapply raises_only_mono; [apply read_framed_msgpack_raises | sub_list]|].
  intros [cm s] _. apply raises_only_bind;
    [eapply raises_only_mono; [apply getitem_str_raises | sub_list]|].
  intros macs _. apply raises_only_bind;
    [eapply raises_only_mono; [apply getitem_str_raises | sub_list]|].
  intros boxed _. apply raises_only_bind;
    [eapply raises_only_mono; [apply check_mac_raises | sub_list]|].
  intros _ _. apply raises_only_bind;
    [eapply raises_only_mono; [apply secretbox_open_raises | sub_list]|].
  intros chunk _. case_bool_decide; [done | apply IH].
Qed.

(** The loop of a recipient whose keys hold no [mac_key]. *)
Lemma decrypt_loop_raises_no_mac_key (fuel : nat) (ek mg : obj) (stream : bytes)
    (chunknum : Z) (output : bytes) :
  raises_only (decrypt_loop fuel ek mg ONone stream chunknum output)
    [OverflowError; UnpackException; TypeError; KeyError; CryptoError].
Proof.
  revert stream chunknum output.
  induction fuel as [|fuel IH]; intros stream chunknum output; [done|].
  cbn [decrypt_loop check_mac].
  apply raises_only_bind;
    [eapply raises_only_mono; [apply to_bytes_raises | sub_list]|].
  intros nonce _. apply raises_only_bind;
    [eapply raises_only_mono; [apply read_framed_msgpack_raises | sub_list]|].
  intros [cm s] _. apply raises_only_bind;
    [eapply raises_only_mono; [apply getitem_str_raises | sub_list]|].
  intros macs _. apply raises_only_bind;
    [eapply raises_only_mono; [apply getitem_str_raises | sub_list]|].
  intros boxed _. rewrite bind_Ret. apply raises_only_bind;
    [eapply raises_only_mono; [apply secretbox_open_raises | sub_list]|].
  intros chunk _. case_bool_decide; [done | apply IH].
Qed.

Lemma find_recipient_raises (recipients : obj) (rp : bytes) :
  raises_only (find_recipient recipients rp)
    [TypeError; ValueError; RecipientNotFound].
Proof.
  unfold find_recipient. apply raises_only_bind; [unfold py_iter; raises_cases|].
  intros items _. generalize 0.
  induction items as [|item items IH]; intros k; [raises_cases|].
  cbn [find_recipient_loop]. apply raises_only_bind.
  - intros e He. destruct (unpack_pair_cases item) as [[p Hp]|[Hp|Hp]];
      rewrite Hp in He; simplify_eq; in_list.
  - intros [pub boxed] _. destruct (eq_bytes pub rp); [done | apply IH].
Qed.

Lemma unbox_keys_raises (sender_public nonce_start : obj) (sk : bytes)
    (num : Z) (boxed_keys : obj) :
  raises_only (unbox_keys sender_public nonce_start sk num boxed_keys)
    [OverflowError; TypeError; CryptoError; UnpackException].
Proof.
  unfold unbox_keys.
  apply raises_only_bind;
    [eapply raises_only_mono; [apply to_bytes_raises | sub_list]|].
  intros counter _.
  unfold as_bytes, box_open, unpackb, unpack_stream, as_bytes. raises_cases.
Qed.

Lemma chunk_keys_raises (keys : obj) :
  raises_only (chunk_keys keys) [TypeError; KeyError; AttributeError].
Proof. unfold chunk_keys, json_repr, getitem_str, dict_get. raises_cases. Qed.

(** What comes after the header is parsed, up to the loop. *)
Lemma after_header_raises (sender_public nonce_start recipients : obj)
    (stream recipient_private : bytes) :
  raises_only
    ('(recipient_num, boxed_keys) ←
       find_recipient recipients (crypto_scalarmult_base recipient_private);
     keys ← unbox_keys sender_public nonce_start recipient_private
              recipient_num boxed_keys;
     '(encryption_key, mac_group, mac_key) ← chunk_keys keys;
     Ret (encryption_key, mac_group, mac_key, stream))
    [TypeError; ValueError; RecipientNotFound; OverflowError; CryptoError;
     UnpackException; KeyError; AttributeError].
Proof.
  apply raises_only_bind;
    [eapply raises_only_mono; [apply find_recipient_raises | sub_list]|].
  intros [num boxed] _. apply raises_only_bind;
    [eapply raises_only_mono; [apply unbox_keys_raises | sub_list]|].
  intros keys _. apply raises_only_bind;
    [eapply raises_only_mono; [apply chunk_keys_raises | sub_list]|].
  by intros [[ek mg] mk] _.
Qed.

(** X15. [AssertionError] is the version check and nothing else: [decrypt]
    raises it exactly when the header frame can be read, is a dict with
    the key ["version"], and the value is not equal to 1. *)
Theorem assertion_error_iff_other_version (input recipient_private : bytes) :
  decrypt input recipient_private = Raise AssertionError
  ↔ ∃ header stream version,
      read_framed_msgpack input = Ret (header, stream)
      ∧ getitem_str header "version" = Ret version
      ∧ eq_one version = false.
Proof.
  unfold decrypt. rewrite decrypt_traced_keys. unfold decrypt_keys. split.
  - intros Hraise%fmap_Raise_inv.
    apply bind_Raise_inv in Hraise
      as [Hkeys|([[[ek mg] mk] s] & _ & Hloop)];
      [|apply decrypt_loop_raises in Hloop; not_in_list Hloop].
    apply bind_Raise_inv in Hkeys
      as [Hhead|([[[sp ns] rs] stream] & _ & Hafter)];
      [|apply after_header_raises in Hafter; not_in_list Hafter].
    unfold parse_header in Hhead.
    apply bind_Raise_inv in Hhead
      as [Hread|([header stream] & Hread & Hhead)];
      [apply read_framed_msgpack_raises in Hread; not_in_list Hread|].
    apply bind_Raise_inv in Hhead as [Hv|(version & Hv & Hhead)];
      [apply getitem_str_raises in Hv; not_in_list Hv|].
    exists header, stream, version. split_and!; [done | done |].
    destruct (eq_one version); [|done]. exfalso. simpl in Hhead.
    revert Hhead. unfold getitem_str. outcome_cases.
  - intros (header & stream & version & Hread & Hv & Hne).
    unfold parse_header. by rewrite Hread, bind_Ret, Hv, bind_Ret, Hne.
Qed.

(** X14. ['MAC mismatch!'] and [IndexError] come from the MAC check alone, so
    only to a recipient whose keys hold a [mac_key]: whoever got keys
    without one, as in a message to a single group, gets neither,
    whatever the chunk records hold. *)
Theorem mac_errors_need_mac_key (input recipient_private : bytes) (e : exn) :
  decrypt input recipient_private = Raise e →
  e = MacMismatch ∨ e = IndexError →
  ∃ ek mg mk stream,
    decrypt_keys input recipient_private = Ret (ek, mg, mk, stream)
    ∧ mk ≠ ONone.
Proof.
  unfold decrypt. rewrite decrypt_traced_keys. intros Hraise%fmap_Raise_inv He.
  apply bind_Raise_inv in Hraise
    as [Hkeys|([[[ek mg] mk] stream] & Hkeys & Hloop)].
  - exfalso. unfold decrypt_keys in Hkeys.
    apply bind_Raise_inv in Hkeys
      as [Hhead|([[[sp ns] rs] stream] & _ & Hafter)].
    + unfold parse_header in Hhead.
      revert Hhead. unfold read_framed_msgpack, unpack_stream, json_repr,
        getitem_str.
      destruct He as [-> | ->]; outcome_cases.
    + apply after_header_raises in Hafter.
      destruct He as [-> | ->]; not_in_list Hafter.
  - exists ek, mg, mk, stream. split; [done|]. intros ->.
    apply decrypt_loop_raises_no_mac_key in Hloop.
    destruct He as [-> | ->]; not_in_list Hloop.
Qed.
End Stages.

(** * main: the script tries itself *)

Section MainRuns.
Context `{Random, Nacl, Hmac, Msgpack, Text}.

Hypothesis unpack_packb : ∀ (o : obj) (rest : bytes),
  unpack (packb o ++ rest) = Some (o, rest).

Hypothesis box_open_box : ∀ (m n sk_s sk_r : bytes),
  crypto_box_open
    (crypto_box m n sk_s (crypto_scalarmult_base sk_r))
    n sk_r (crypto_scalarmult_base sk_s) = Some m.

Hypothesis secretbox_open_secretbox : ∀ (m n k : bytes),
  crypto_secretbox_open (crypto_secretbox m n k) n k = Some m.

Lemma length_urandom_list (n size : nat) (g : rng) :
  length (urandom_list n size g).1 = n.
Proof.
  revert g. induction n as [|n IH]; intros g; [done|].
  simpl. destruct (urandom size g) as [x g1].
  specialize (IH g1). destruct (urandom_list n size g1) as [xs g2].
  simpl in *. by rewrite IH.
Qed.

Lemma concat_singletons {A : Type} (l : list A) :
  concat ((λ p, [p]) <$> l) = l.
Proof. induction l as [|x l IH]; [done|]. simpl. f_equal. apply IH. Qed.

(** X16. [main] prints the message it was given: with at least one recipient
    and a chunk size of at least 1, the script encrypts the message for
    fresh keys, one group each, decrypts the output with the first of the
    private keys, and gets the message back. Without arguments that is
    the default message, for one recipient, in chunks of 100 bytes. *)
Theorem main_decodes_its_message (g : rng) (a : args)
    (encoded_message : bytes) (recipients_len chunk_size : Z) :
  main_message a = Ret encoded_message →
  int_or (arg_recipients a) 1 = Ret recipients_len →
  int_or (arg_chunk a) 100 = Ret chunk_size →
  1 ≤ recipients_len ≤ 2 ^ 64 →
  1 ≤ chunk_size →
  ceil_div (Z.of_nat (length encoded_message)) chunk_size < 2 ^ 192 →
  ∃ output,
    main_traced g a = Ret (output, encoded_message)
    ∧ main g a = Ret ().
Proof.
  intros Hmsg Hrec Hchunk Hn Hc Hbound.
  unfold main, main_traced. rewrite Hmsg, bind_Ret, Hrec, bind_Ret.
  pose proof (length_urandom_list (Z.to_nat recipients_len) 32 g) as Hlen.
  destruct (urandom_list (Z.to_nat recipients_len) 32 g) as [privs g1].
  simpl in Hlen. rewrite Hchunk, bind_Ret.
  destruct privs as [|sk privs]; [simpl in Hlen; lia|].
  set (groups := (λ p, [p]) <$> (crypto_scalarmult_base <$> sk :: privs)).
  assert (concat groups = crypto_scalarmult_base <$> sk :: privs) as Hcat
    by apply concat_singletons.
  assert (Z.of_nat (length (concat groups)) ≤ 2 ^ 64) as Hcount
    by (rewrite Hcat, length_fmap, Hlen; lia).
  destruct (encrypt_traced_spec g1 jack_private groups encoded_message
              chunk_size Hc Hcount Hbound) as (tr & pieces & Hrun & Henc).
  unfold encrypt. rewrite Hrun. cbn [fmap outcome_fmap]. rewrite bind_Ret.
  change (seq_index (sk :: privs) 0) with (Ret sk). rewrite bind_Ret.
  assert (decrypt (tr_output tr) sk = Ret encoded_message) as ->.
  { unfold decrypt. rewrite <- (app_nil_r (tr_output tr)).
    rewrite (decrypt_traced_output unpack_packb box_open_box
               secretbox_open_secretbox g1 jack_private groups encoded_message
               chunk_size tr pieces sk []); try done.
    rewrite Hcat. apply list_elem_of_here. }
  exists (tr_output tr). by rewrite !bind_Ret.
Qed.

(** X17. With [--recipients=0], or a negative number, [main] makes no key and
    encrypts for nobody; it raises [IndexError] at [recipients_private[0]]
    once [encrypt] has returned. *)
Theorem main_without_recipients (g : rng) (a : args)
    (encoded_message : bytes) (recipients_len chunk_size : Z) :
  main_message a = Ret encoded_message →
  int_or (arg_recipients a) 1 = Ret recipients_len →
  int_or (arg_chunk a) 100 = Ret chunk_size →
  recipients_len ≤ 0 →
  1 ≤ chunk_size →
  ceil_div (Z.of_nat (length encoded_message)) chunk_size < 2 ^ 192 →
  (∃ output, encrypt g jack_private [] encoded_message chunk_size = Ret output)
  ∧ main_traced g a = Raise IndexError
  ∧ main g a = Raise IndexError.
Proof.
  intros Hmsg Hrec Hchunk Hn Hc Hbound.
  destruct (encrypt_traced_spec g jack_private [] encoded_message chunk_size)
    as (tr & pieces & Hrun & _); [done | simpl; lia | done |].
  assert (encrypt g jack_private [] encoded_message chunk_size = Ret (tr_output tr))
    as Henc by (unfold encrypt; by rewrite Hrun).
  split; [by eexists|].
  assert (main_traced g a = Raise IndexError) as Hmain.
  { unfold main_traced. rewrite Hmsg, bind_Ret, Hrec, bind_Ret.
    replace (Z.to_nat recipients_len) with 0%nat by lia.
    cbn [urandom_list fmap list_fmap]. by rewrite Hchunk, bind_Ret, Henc. }
  split; [done|]. unfold main. by rewrite Hmain.
Qed.
End MainRuns.

(** * The header and the message *)

Section Header.
Context `{Random, Nacl, Hmac, Msgpack}.

(** X8. The header says nothing about the message: for the same sender, the
    same groups and the same randomness, [encrypt] writes the same header
    and the same MAC keys whatever the message and the chunk size are. *)
Theorem header_independent_of_message (g : rng) (sender_private : bytes)
    (recipient_groups : list (list bytes)) (message message' : bytes)
    (chunk_size chunk_size' : Z) (tr tr' : trace) :
  encrypt_traced g sender_private recipient_groups message chunk_size = Ret tr →
  encrypt_traced g sender_private recipient_groups message' chunk_size' = Ret tr' →
  tr_header tr = tr_header tr'
  ∧ tr_rows tr = tr_rows tr'
  ∧ tr_mac_keys tr = tr_mac_keys tr'
  ∧ ∃ chunk_frames chunk_frames',
      tr_output tr = write_framed_msgpack [] (tr_header tr) ++ chunk_frames
      ∧ tr_output tr' = write_framed_msgpack [] (tr_header tr) ++ chunk_frames'.
Proof.
  unfold encrypt_traced.
  destruct (urandom 32 g) as [ek g1]. destruct (urandom 16 g1) as [prefix g2].
  destruct (for_each _ _ _) as [[[g' mks] [rows n]]|e|]; [|done|done].
  rewrite !bind_Ret.
  intros (chunks & _ & Hrun)%bind_Ret_inv (chunks' & _ & Hrun')%bind_Ret_inv.
  apply bind_Ret_inv in Hrun as ([crs out] & Hchunks & [= <-]).
  apply bind_Ret_inv in Hrun' as ([crs' out'] & Hchunks' & [= <-]).
  cbn [tr_header tr_rows tr_mac_keys tr_output].
  split_and!; [done | done | done |].
  assert (∀ nm (chunks : list (nat * bytes)) (crs0 : list chunk_row) out0 crs1 out1,
            for_each (encrypt_chunk nm ek mks) (crs0, out0) chunks
              = Ret (crs1, out1) →
            ∃ added, out1 = out0 ++ added) as Hgrow.
  { intros nm l. induction l as [|[i c] l IH]; intros crs0 out0 crs1 out1.
    - simpl. intros [= <- <-]. exists []. by rewrite app_nil_r.
    - cbn [for_each]. intros ([crs2 out2] & Hstep & Hrest)%bind_Ret_inv.
      unfold encrypt_chunk in Hstep.
      apply bind_Ret_inv in Hstep as (nonce & _ & [= <- <-]).
      apply IH in Hrest as (added & ->).
      rewrite write_framed_msgpack_frame, <- app_assoc. by eexists. }
  apply Hgrow in Hchunks as (added & ->). apply Hgrow in Hchunks' as (added' & ->).
  by exists added, added'.
Qed.
End Header.

(** * Edge cases of the scan and of the chunking *)

Section Edges.
Context `{Random, Nacl, Hmac, Msgpack}.


End Edges.

(** * The script run on the reference implementation *)

Module Examples.
Import Ref.

(** ** Evaluations *)

Example hi_trace_returned : two_groups = Ret hi_trace.
Proof. vm_compute. reflexivity. Qed.

Example hi_two_chunk_frames : length (tr_chunks hi_trace) = 2%nat.
Proof. vm_compute. reflexivity. Qed.

Example hi_decrypts_for_alice : decrypt hi_blob alice_private = Ret (bytes_of "hi").
Proof. vm_compute. reflexivity. Qed.

Example hi_decrypts_for_bob : decrypt hi_blob bob_private = Ret (bytes_of "hi").
Proof. vm_compute. reflexivity. Qed.

(** The first chunk, "hi", is in the output buffer when the stream ends
    early; the caller gets the exception and no bytes. *)
Example truncated_stream_raises :
  decrypt (take (length hi_blob - 30) hi_blob) alice_private
  = Raise UnpackException.
Proof. vm_compute. reflexivity. Qed.

(** ** C1 *)

Lemma encrypt_decrypt_roundtrip_witness :
  ∃ blob,
    encrypt 2025 jack_private [[alice_public]; [bob_public]] (bytes_of "hi") 100
      = Ret blob
    ∧ decrypt blob bob_private = Ret (bytes_of "hi").
Proof.
  apply (@encrypt_decrypt_roundtrip random nacl hmac msgpack
           RefLaws.ref_unpack_packb RefLaws.ref_box_open_box
           RefLaws.ref_secretbox_open_secretbox).
  - lia.
  - cbn [concat app]. apply list_elem_of_further, list_elem_of_here.
  - vm_compute. discriminate.
  - vm_compute. reflexivity.
Defined.

(** ** C2 *)

(** The claim as stated fails: bit 0 of byte 16 of the ciphertext of the
    first chunk, which is bit 3504 of the blob, is flipped; the MAC check
    passes, and it is [crypto_secretbox_open] that rejects the chunk. *)
Lemma flipped_body_bit_not_mac_mismatch :
  encrypt 2025 jack_private [[alice_public]; [bob_public]] (bytes_of "hi") 100
    = Ret hi_blob
  ∧ length hi_boxed = 18%nat
  ∧ flip_bit hi_blob 3504 = hi_blob_with (flip_bit hi_boxed 128)
  ∧ decrypt (flip_bit hi_blob 3504) alice_private = Raise CryptoError
  ∧ decrypt (flip_bit hi_blob 3504) alice_private ≠ Raise MacMismatch.
Proof.
  assert (decrypt (flip_bit hi_blob 3504) alice_private = Raise CryptoError) as Hd
    by (vm_compute; reflexivity).
  split_and!; [vm_compute; reflexivity .. | done | by rewrite Hd].
Defined.

Lemma tampered_authenticator_rejected_witness :
  decrypt (hi_blob_with (flip_bit hi_boxed 0)) alice_private = Raise MacMismatch.
Proof.
  apply (@tampered_authenticator_rejected random nacl hmac msgpack
           RefLaws.ref_unpack_packb RefLaws.ref_box_open_box
           RefLaws.ref_secretbox_open_secretbox
           2025 jack_private [[alice_public]; [bob_public]] (bytes_of "hi") 100
           alice_private hi_trace 0 hi_chunk).
  - lia.
  - cbn [length]. lia.
  - cbn [concat app]. apply list_elem_of_here.
  - vm_compute. discriminate.
  - vm_compute. reflexivity.
  - vm_compute. reflexivity.
  - vm_compute. reflexivity.
  - intros mk Hmk. vm_compute in Hmk.
    inversion_clear Hmk as [|? ? ? Hmk1]; [vm_compute; discriminate|].
    inversion_clear Hmk1 as [|? ? ? Hmk2]; [vm_compute; discriminate|].
    inversion Hmk2.
Defined.

(** ** C3 *)



(** ** C4 *)

Lemma encrypt_chunk_frames_witness :
  ∃ tr,
    encrypt_traced 1 jack_private [[alice_public]] (bytes_of "hello world") 4 = Ret tr
    ∧ Z.of_nat (length (tr_chunks tr)) = 4.
Proof.
  destruct (@encrypt_chunk_frames random nacl hmac msgpack 1 jack_private [[alice_public]]
              (bytes_of "hello world") 4) as (tr & Hrun & _ & Hcount & _).
  - lia.
  - vm_compute. discriminate.
  - vm_compute. reflexivity.
  - exists tr. split; [done|]. rewrite Hcount. vm_compute. reflexivity.
Defined.

(** ** C5 *)

Lemma decrypt_stops_at_empty_chunk_witness :
  ∃ consumed rest,
    hi_blob ++ [xff; x00; xff] = consumed ++ rest
    ∧ ∀ rest', decrypt (consumed ++ rest') bob_private = Ret (bytes_of "hi").
Proof.
  destruct (@decrypt_stops_at_empty_chunk nacl hmac msgpack RefLaws.ref_unpack_prefix
              (hi_blob ++ [xff; x00; xff]) bob_private (bytes_of "hi"))
    as (consumed & rest & ek & mg & mk & hp & cp & pieces & Hin & _ & _ & _ & _ & _ & Hany).
  - vm_compute. reflexivity.
  - exists consumed, rest. split; [done|]. intros rest'. apply Hany.
Defined.

(** ** C6 *)


(** ** C7 *)


(** ** C8 *)

Lemma nonces_pairwise_distinct_witness :
  ∃ tr,
    encrypt_traced 2025 jack_private [[alice_public]; [bob_public]]
      (bytes_of "hi") 100 = Ret tr
    ∧ (∀ i j r r', i ≠ j →
         tr_rows tr !! i = Some r → tr_rows tr !! j = Some r' →
         row_nonce r ≠ row_nonce r')
    ∧ (∀ i j c c', i ≠ j →
         tr_chunks tr !! i = Some c → tr_chunks tr !! j = Some c' →
         chunk_nonce c ≠ chunk_nonce c').
Proof.
  destruct (@nonces_pairwise_distinct random nacl hmac msgpack 2025 jack_private
              [[alice_public]; [bob_public]] (bytes_of "hi") 100)
    as (tr & Hrun & _ & _ & Hrows & Hchunks).
  - lia.
  - vm_compute. discriminate.
  - vm_compute. reflexivity.
  - by exists tr.
Defined.

(** ** C9 *)

Lemma decrypt_all_or_nothing_witness :
  (∃ ek mg mk stream pieces rest,
      decrypt_keys (take (length hi_blob - 30) hi_blob) alice_private
        = Ret (ek, mg, mk, stream)
      ∧ chunk_run ek mg mk stream 0 pieces rest
      ∧ decrypt (take (length hi_blob - 30) hi_blob) alice_private
        = Ret (concat pieces))
  ∨ (∃ e, decrypt (take (length hi_blob - 30) hi_blob) alice_private = Raise e
          ∧ plain_exn e).
Proof.
  apply (@decrypt_all_or_nothing nacl hmac msgpack RefLaws.ref_unpack_shorter).
Defined.

(** ** C10 *)

End Examples.

(** * More runs on the reference implementation *)

Module Runs.
Import Ref RefText Samples.

(** ** base64, on the test vectors of RFC 4648 *)

Example b64encode_vectors :
  b64encode [] = ""%string
  ∧ b64encode (bytes_of "f") = "Zg=="%string
  ∧ b64encode (bytes_of "fo") = "Zm8="%string
  ∧ b64encode (bytes_of "foo") = "Zm9v"%string
  ∧ b64encode (bytes_of "foob") = "Zm9vYg=="%string
  ∧ b64encode (bytes_of "fooba") = "Zm9vYmE="%string
  ∧ b64encode (bytes_of "foobar") = "Zm9vYmFy"%string.
Proof. split_and!; vm_compute; reflexivity. Qed.

(** A [bytes] key and a [str] key that meet after the conversion: the
    first keeps its place, the second gives the value. *)
Example recurse_repr_merges_keys :
  _recurse_repr (ODict [ (OBytes (bytes_of "a"), OInt 1);
                       (OStr "YQ==", OList [OBytes [xff]]) ])
  = Ret (ODict [ (OStr "YQ==", OList [OStr "/w=="]) ]).
Proof. vm_compute. reflexivity. Qed.

(** ** chunks_with_empty *)

Lemma chunks_with_empty_slices_witness :
  ∃ pieces,
    chunks_with_empty (bytes_of "hello world") 4 = Ret (pieces ++ [[]])
    ∧ concat pieces = bytes_of "hello world"
    ∧ ∀ (i : nat) p, pieces !! i = Some p →
        p = py_slice (bytes_of "hello world") (Z.of_nat i * 4) (Z.of_nat i * 4 + 4)
        ∧ 1 ≤ Z.of_nat (length p) ≤ 4
        ∧ ((S i < length pieces)%nat → Z.of_nat (length p) = 4).
Proof. apply (chunks_with_empty_slices (bytes_of "hello world") 4). lia. Defined.

Lemma chunks_with_empty_loops_for_ever_witness :
  (∀ fuel chunk_start chunks,
     chunk_start ≤ 0 →
     chunks_with_empty_loop fuel (bytes_of "hi") 0 chunk_start chunks = Diverge)
  ∧ chunks_with_empty (bytes_of "hi") 0 = Diverge
  ∧ ∀ g sender_private recipient_groups,
      Z.of_nat (length (concat recipient_groups)) ≤ 2 ^ 64 →
      encrypt g sender_private recipient_groups (bytes_of "hi") 0 = Diverge.
Proof.
  apply (@chunks_with_empty_loops_for_ever random nacl hmac msgpack
           (bytes_of "hi") 0); [lia | discriminate].
Defined.

(** ** json_repr *)

Lemma recurse_repr_leaves_no_bytes_witness :
  no_bytes (ODict [ (OStr "YQ==", OList [OStr "/w=="]) ]) = true.
Proof.
  apply (recurse_repr_leaves_no_bytes
           (ODict [ (OBytes (bytes_of "a"), OInt 1);
                    (OStr "YQ==", OList [OBytes [xff]]) ])).
  vm_compute. reflexivity.
Defined.

Lemma recurse_repr_idempotent_witness :
  _recurse_repr (ODict [ (OStr "YQ==", OList [OStr "/w=="]) ])
  = Ret (ODict [ (OStr "YQ==", OList [OStr "/w=="]) ]).
Proof.
  apply (recurse_repr_idempotent
           (ODict [ (OBytes (bytes_of "a"), OInt 1);
                    (OStr "YQ==", OList [OBytes [xff]]) ])).
  vm_compute. reflexivity.
Defined.

(** ** decrypt on what encrypt wrote *)

Lemma decrypt_ignores_what_follows_witness :
  decrypt_traced (hi_blob ++ [xff; x00; xff]) bob_private
    = Ret (bytes_of "hi", [xff; x00; xff])
  ∧ decrypt (hi_blob ++ [xff; x00; xff]) bob_private = Ret (bytes_of "hi").
Proof.
  apply (@decrypt_ignores_what_follows random nacl hmac msgpack
           RefLaws.ref_unpack_packb RefLaws.ref_box_open_box
           RefLaws.ref_secretbox_open_secretbox
           2025 jack_private [[alice_public]; [bob_public]] (bytes_of "hi") 100
           bob_private hi_blob).
  - lia.
  - cbn [concat app]. apply list_elem_of_further, list_elem_of_here.
  - vm_compute. discriminate.
  - vm_compute. reflexivity.
  - vm_compute. reflexivity.
Defined.

Lemma unlisted_key_not_found_witness :
  decrypt hi_blob carol_private = Raise RecipientNotFound.
Proof.
  apply (@unlisted_key_not_found random nacl hmac msgpack
           RefLaws.ref_unpack_packb
           2025 jack_private [[alice_public]; [bob_public]] (bytes_of "hi") 100
           carol_private hi_blob).
  - lia.
  - cbn [concat app]. intros Hin.
    apply elem_of_cons in Hin as [Heq|Hin]; [vm_compute in Heq; discriminate|].
    apply elem_of_cons in Hin as [Heq|Hin]; [vm_compute in Heq; discriminate|].
    by apply elem_of_nil in Hin.
  - vm_compute. discriminate.
  - vm_compute. reflexivity.
  - vm_compute. reflexivity.
Defined.

Lemma encrypt_header_read_back_witness :
  ∃ entries chunk_frames,
    parse_header hi_blob
    = Ret (OBytes (crypto_scalarmult_base jack_private),
           OBytes (nonce_start_of 2025), OList entries, chunk_frames)
    ∧ length entries = 2%nat.
Proof.
  destruct (@encrypt_header_read_back random nacl hmac msgpack
              RefLaws.ref_unpack_packb
              2025 jack_private [[alice_public]; [bob_public]] (bytes_of "hi") 100
              hi_blob) as (entries & chunk_frames & Hhead & Hlen & _).
  - lia.
  - vm_compute. discriminate.
  - vm_compute. reflexivity.
  - vm_compute. reflexivity.
  - exists entries, chunk_frames. split; [exact Hhead | exact Hlen].
Defined.

Lemma truncated_message_rejected_witness :
  decrypt (take 100 hi_blob) alice_private = Raise UnpackException.
Proof.
  apply (@truncated_message_rejected random nacl hmac msgpack
           RefLaws.ref_unpack_packb RefLaws.ref_box_open_box
           RefLaws.ref_secretbox_open_secretbox RefLaws.ref_unpack_prefix
           2025 jack_private [[alice_public]; [bob_public]] (bytes_of "hi") 100
           alice_private hi_blob 100).
  - lia.
  - cbn [concat app]. apply list_elem_of_here.
  - vm_compute. discriminate.
  - vm_compute. reflexivity.
  - vm_compute. reflexivity.
  - vm_compute. lia.
Defined.

(** ** The MACs *)


Lemma mac_at_the_place_of_the_group_witness :
  ∃ gn group mk,
    [[alice_public]; [bob_public]] !! gn = Some group
    ∧ row_pub hi_row ∈ group
    ∧ tr_mac_keys hi_trace !! gn = Some mk
    ∧ ∀ c, c ∈ tr_chunks hi_trace →
        macs_of (chunk_map c) !! gn
        = Some (OBytes (py_slice
                          (hmac_sha512 mk (py_slice (boxed_of (chunk_map c)) 0 16))
                          0 16)).
Proof.
  destruct (@mac_at_the_place_of_the_group random nacl hmac msgpack
              2025 jack_private [[alice_public]; [bob_public]] (bytes_of "hi") 100
              hi_trace hi_row)
    as (gn & group & mk & Hgroup & Hin & Hmk & _ & Hmacs).
  - lia.
  - vm_compute. discriminate.
  - vm_compute. reflexivity.
  - cbn [length]. lia.
  - vm_compute. reflexivity.
  - apply list_elem_of_lookup_2 with 0%nat. vm_compute. reflexivity.
  - exists gn, group, mk. split_and!; [exact Hgroup | exact Hin | exact Hmk | exact Hmacs].
Defined.

(** ** Exceptions *)

Example version_2_refused : decrypt version_2 alice_private = Raise AssertionError.
Proof. vm_compute. reflexivity. Qed.

Lemma mac_errors_need_mac_key_witness :
  ∃ ek mg mk stream,
    decrypt_keys (hi_blob_with (flip_bit hi_boxed 0)) alice_private
      = Ret (ek, mg, mk, stream)
    ∧ mk ≠ ONone.
Proof.
  apply (@mac_errors_need_mac_key nacl hmac msgpack
           (hi_blob_with (flip_bit hi_boxed 0)) alice_private MacMismatch).
  - vm_compute. reflexivity.
  - by left.
Defined.


Lemma empty_message_any_chunk_size_witness :
  ∃ blob,
    (∀ chunk_size,
       chunks_with_empty [] chunk_size = Ret [[]]
       ∧ encrypt 2025 jack_private [[alice_public]; [bob_public]] [] chunk_size
         = Ret blob)
    ∧ decrypt blob bob_private = Ret [].
Proof.
  apply (@empty_message_any_chunk_size random nacl hmac msgpack
           RefLaws.ref_unpack_packb RefLaws.ref_box_open_box
           RefLaws.ref_secretbox_open_secretbox
           2025 jack_private [[alice_public]; [bob_public]] bob_private).
  - cbn [concat app]. apply list_elem_of_further, list_elem_of_here.
  - vm_compute. discriminate.
Defined.

(** ** main *)

Lemma main_decodes_its_message_witness :
  ∃ output,
    main_traced 2025 hello_args = Ret (output, bytes_of "hello")
    ∧ main 2025 hello_args = Ret ().
Proof.
  apply (@main_decodes_its_message random nacl hmac msgpack text
           RefLaws.ref_unpack_packb RefLaws.ref_box_open_box
           RefLaws.ref_secretbox_open_secretbox
           2025 hello_args (bytes_of "hello") 3 2).
  - reflexivity.
  - reflexivity.
  - reflexivity.
  - split; [lia | vm_compute; discriminate].
  - lia.
  - vm_compute. reflexivity.
Defined.

Example main_default_message :
  snd <$> main_traced 7 no_args = Ret default_message.
Proof. vm_compute. reflexivity. Qed.

Lemma main_without_recipients_witness :
  (∃ output, encrypt 2025 jack_private [] default_message 100 = Ret output)
  ∧ main_traced 2025 nobody_args = Raise IndexError
  ∧ main 2025 nobody_args = Raise IndexError.
Proof.
  apply (@main_without_recipients random nacl hmac msgpack text
           2025 nobody_args default_message 0 100).
  - reflexivity.
  - reflexivity.
  - reflexivity.
  - lia.
  - lia.
  - vm_compute. reflexivity.
Defined.

(** ** The header *)

Lemma header_independent_of_message_witness :
  tr_header hi_trace
  = tr_header (returned empty_trace
                 (encrypt_traced 2025 jack_private [[alice_public]; [bob_public]]
                    (bytes_of "another message") 3)).
Proof.
  apply (@header_independent_of_message random nacl hmac msgpack
           2025 jack_private [[alice_public]; [bob_public]]
           (bytes_of "hi") (bytes_of "another message") 100 3).
  - vm_compute. reflexivity.
  - vm_compute. reflexivity.
Defined.
End Runs.
